(** * HEM: the simulated homomorphic-encryption engine

    A shallow embedding of [src/server/he_engine.py] (the [Ciphertext]
    dataclass with its token codec, and [SimulatedFHEEngine]) together with
    the properties the specification states about them.

    Conventions of the embedding:
    - a Python [float] is an IEEE-754 binary64 number: Rocq's primitive
      [float], whose operations round to nearest, ties to even, like
      CPython's;
    - a Python [str] is a sequence of code points ([text]); a [bytes]
      object is a sequence of octets ([octets]);
    - an exception is a value of [error]; a method that may raise returns
      a [result];
    - the sources of non-determinism ([secrets], [time.time]) are explicit
      arguments of the operations that consult them. *)

From Stdlib Require Import String Ascii ZArith NArith PArith Bool Lia List.
From Stdlib Require Import Floats.
From Stdlib Require DecimalFacts DecimalPos DecimalN.
Import ListNotations.

Set Warnings "-inexact-float,-register-all".
Local Open Scope N_scope.

(* ================================================================= *)
(** ** Exceptions and results *)

(** The engine raises [ValueError] with one of a handful of messages; the
    specification names them.  The constructor comments give the messages
    of the source. *)
Inductive error : Type :=
| KeysNotInitialized  (* "Keys not generated. Call generate_keys first." /
                         "Secret key unavailable; generate keys first." *)
| KeyMismatch         (* "ciphertext key does not match active key" *)
| InvalidCiphertext   (* "ciphertext payload cannot be empty" *)
| InvalidInput        (* "values cannot be empty" / "values must be finite
                         numeric types" / "coefficients cannot be empty" /
                         "ciphertext is required" *)
| DimensionMismatch   (* "payload sizes must match for ..." / "Weights and
                         ciphertext dimensions do not match." *)
| MalformedToken      (* any exception escaping [Ciphertext.deserialize] *)
| OutsideModel        (* the token decodes, but a field has a JSON type
                         other than the one the dataclass declares: Python
                         goes on with an ill-typed object, which the typed
                         embedding does not follow *).

Inductive result (A : Type) : Type :=
| Ok (a : A)
| Raise (e : error).

Arguments Ok {A} a.
Arguments Raise {A} e.

Definition bind {A B : Type} (m : result A) (k : A -> result B) : result B :=
  match m with
  | Ok a => k a
  | Raise e => Raise e
  end.

Notation "x <- m ;; k" := (bind m (fun x => k))
  (at level 61, m at next level, right associativity).
Notation "' p <- m ;; k" := (bind m (fun x => match x with p => k end))
  (at level 61, p pattern, m at next level, right associativity).

Definition is_ok {A : Type} (m : result A) : bool :=
  match m with Ok _ => true | Raise _ => false end.

(** Library decoders report failure as [None]; the caller decides which
    exception class that is. *)
Definition obind {A B : Type} (m : option A) (k : A -> option B) : option B :=
  match m with
  | Some a => k a
  | None => None
  end.

(* ================================================================= *)
(** ** Text and octets *)

Definition text := list N.     (* code points *)
Definition octets := list N.   (* values below 256 *)

(** [u "abc"] is the text of an ASCII literal. *)
Definition u (s : string) : text := map N_of_ascii (list_ascii_of_string s).

Fixpoint text_eqb (a b : text) : bool :=
  match a, b with
  | [], [] => true
  | x :: a', y :: b' => (x =? y) && text_eqb a' b'
  | _, _ => false
  end.

(** *** UTF-8 ([str.encode("utf-8")], [bytes.decode("utf-8")]) *)

Definition is_surrogate (c : N) : bool := (55296 <=? c) && (c <=? 57343).

(** A code point that UTF-8 can carry. *)
Definition is_scalar (c : N) : bool := (c <? 1114112) && negb (is_surrogate c).

Definition utf8_encode_char (c : N) : option octets :=
  if c <? 128 then Some [c]
  else if c <? 2048 then Some [192 + c / 64; 128 + c mod 64]
  else if is_surrogate c then None
  else if c <? 65536 then
    Some [224 + c / 4096; 128 + (c / 64) mod 64; 128 + c mod 64]
  else if c <? 1114112 then
    Some [240 + c / 262144; 128 + (c / 4096) mod 64;
          128 + (c / 64) mod 64; 128 + c mod 64]
  else None.

Fixpoint utf8_encode (s : text) : option octets :=
  match s with
  | [] => Some []
  | c :: s' =>
      obind (utf8_encode_char c) (fun bs =>
      obind (utf8_encode s') (fun rest => Some (bs ++ rest)))
  end.

Definition is_cont (b : N) : bool := (128 <=? b) && (b <=? 191).
Definition in_range (lo hi b : N) : bool := (lo <=? b) && (b <=? hi).

(** The strict decoder: shortest forms only, no surrogates, nothing above
    U+10FFFF. *)
Fixpoint utf8_decode (bs : octets) : option text :=
  match bs with
  | [] => Some []
  | b0 :: r0 =>
      if b0 <? 128 then obind (utf8_decode r0) (fun t => Some (b0 :: t))
      else
        match r0 with
        | b1 :: r1 =>
            if in_range 194 223 b0 then
              if is_cont b1 then
                obind (utf8_decode r1)
                      (fun t => Some ((b0 - 192) * 64 + (b1 - 128) :: t))
              else None
            else
              match r1 with
              | b2 :: r2 =>
                  if in_range 224 239 b0 then
                    if (if b0 =? 224 then in_range 160 191 b1
                        else if b0 =? 237 then in_range 128 159 b1
                        else is_cont b1) && is_cont b2 then
                      obind (utf8_decode r2)
                            (fun t => Some ((b0 - 224) * 4096 + (b1 - 128) * 64
                                            + (b2 - 128) :: t))
                    else None
                  else
                    match r2 with
                    | b3 :: r3 =>
                        if in_range 240 244 b0 then
                          if (if b0 =? 240 then in_range 144 191 b1
                              else if b0 =? 244 then in_range 128 143 b1
                              else is_cont b1) && is_cont b2 && is_cont b3 then
                            obind (utf8_decode r3)
                                  (fun t => Some ((b0 - 240) * 262144
                                                  + (b1 - 128) * 4096
                                                  + (b2 - 128) * 64
                                                  + (b3 - 128) :: t))
                          else None
                        else None
                    | [] => None
                    end
              | [] => None
              end
        | [] => None
        end
  end.

(** *** Base64, URL-safe alphabet ([base64.urlsafe_b64encode] and
    [base64.urlsafe_b64decode]) *)

(** The character of a 6-bit value: [A-Z], [a-z], [0-9], [-], [_]. *)
Definition b64_char (v : N) : N :=
  if v <? 26 then 65 + v
  else if v <? 52 then 97 + (v - 26)
  else if v <? 62 then 48 + (v - 52)
  else if v =? 62 then 45
  else 95.

Definition b64_pad : N := 61.

Fixpoint b64encode (bs : octets) : octets :=
  match bs with
  | [] => []
  | [a] =>
      [b64_char (a / 4); b64_char ((a mod 4) * 16); b64_pad; b64_pad]
  | [a; b] =>
      [b64_char (a / 4); b64_char ((a mod 4) * 16 + b / 16);
       b64_char ((b mod 16) * 4); b64_pad]
  | a :: b :: c :: rest =>
      b64_char (a / 4) :: b64_char ((a mod 4) * 16 + b / 16)
        :: b64_char ((b mod 16) * 4 + c / 64) :: b64_char (c mod 64)
        :: b64encode rest
  end.

(** The 6-bit value of a character.  The decoder first maps [-] to [+] and
    [_] to [/], so both alphabets are read. *)
Definition b64_value (c : N) : option N :=
  if in_range 65 90 c then Some (c - 65)
  else if in_range 97 122 c then Some (c - 97 + 26)
  else if in_range 48 57 c then Some (c - 48 + 52)
  else if (c =? 43) || (c =? 45) then Some 62
  else if (c =? 47) || (c =? 95) then Some 63
  else None.

(** CPython's [binascii.a2b_base64] in its default, lenient mode: octets
    outside the alphabet are skipped, a complete pad sequence ends the
    input, and input that stops inside a quad is an error.  [quad_pos] is
    the position in the current quad, [leftchar] the bits carried over and
    [pads] the pad characters seen in a row. *)
Fixpoint a2b_base64 (bs : octets) (quad_pos leftchar pads : N)
  : option octets :=
  match bs with
  | [] => if quad_pos =? 0 then Some [] else None
  | c :: rest =>
      if c =? b64_pad then
        if 2 <=? quad_pos then
          if 4 <=? quad_pos + (pads + 1) then Some []
          else a2b_base64 rest quad_pos leftchar (pads + 1)
        else a2b_base64 rest quad_pos leftchar pads
      else
        match b64_value c with
        | None => a2b_base64 rest quad_pos leftchar pads
        | Some v =>
            if quad_pos =? 0 then a2b_base64 rest 1 v 0
            else if quad_pos =? 1 then
              obind (a2b_base64 rest 2 (v mod 16) 0)
                    (fun out => Some (leftchar * 4 + v / 16 :: out))
            else if quad_pos =? 2 then
              obind (a2b_base64 rest 3 (v mod 4) 0)
                    (fun out => Some (leftchar * 16 + v / 4 :: out))
            else
              obind (a2b_base64 rest 0 0 0)
                    (fun out => Some (leftchar * 64 + v :: out))
        end
  end.

Definition b64decode (bs : octets) : option octets := a2b_base64 bs 0 0 0.

(* ================================================================= *)
(** ** Floats as decimal text ([float.__repr__] and [float(str)]) *)

Definition is_digit (c : N) : bool := in_range 48 57 c.

Fixpoint uint_text (d : Decimal.uint) : text :=
  match d with
  | Decimal.Nil => []
  | Decimal.D0 d' => 48 :: uint_text d'
  | Decimal.D1 d' => 49 :: uint_text d'
  | Decimal.D2 d' => 50 :: uint_text d'
  | Decimal.D3 d' => 51 :: uint_text d'
  | Decimal.D4 d' => 52 :: uint_text d'
  | Decimal.D5 d' => 53 :: uint_text d'
  | Decimal.D6 d' => 54 :: uint_text d'
  | Decimal.D7 d' => 55 :: uint_text d'
  | Decimal.D8 d' => 56 :: uint_text d'
  | Decimal.D9 d' => 57 :: uint_text d'
  end.

Definition cons_digit (c : N) (d : Decimal.uint) : option Decimal.uint :=
  match c with
  | 48 => Some (Decimal.D0 d) | 49 => Some (Decimal.D1 d)
  | 50 => Some (Decimal.D2 d) | 51 => Some (Decimal.D3 d)
  | 52 => Some (Decimal.D4 d) | 53 => Some (Decimal.D5 d)
  | 54 => Some (Decimal.D6 d) | 55 => Some (Decimal.D7 d)
  | 56 => Some (Decimal.D8 d) | 57 => Some (Decimal.D9 d)
  | _ => None
  end.

Fixpoint text_uint (s : text) : option Decimal.uint :=
  match s with
  | [] => Some Decimal.Nil
  | c :: r => obind (text_uint r) (cons_digit c)
  end.

(** The decimal digits of a natural number, and back. *)
Definition nat_text (n : N) : text := uint_text (N.to_uint n).

Definition text_nat (s : text) : option N :=
  obind (text_uint s) (fun d => Some (N.of_uint d)).

(** The leading run of characters that satisfy [p], and the rest. *)
Fixpoint span (p : N -> bool) (s : text) : text * text :=
  match s with
  | [] => ([], [])
  | c :: r =>
      if p c then let '(a, b) := span p r in (c :: a, b) else ([], s)
  end.

Local Open Scope Z_scope.

(** [M * 10 ^ E] rounded to the nearest binary64 number, ties to even:
    what [float(str)] computes from a decimal literal.  The first two
    tests only spare the computation of astronomically large powers of
    ten.  With [2^b <= M < 2^(b+1)]: for [0 <= E], [8^E <= 10^E], so the
    value is at least [2^(b + 3E)], beyond the largest double from
    [2^1025] on; for [E < 0], [10^E <= 8^E], so the value is below
    [2^(b + 1 + 3E)], under half the smallest double from [2^-1076]
    down. *)
Definition dec_to_SF (neg : bool) (M : positive) (E : Z) : spec_float :=
  let b := Z.log2 (Zpos M) in
  if (0 <=? E) && (1025 <=? b + 3 * E) then S754_infinity neg
  else if (E <? 0) && (b + 1 + 3 * E <=? -1076) then S754_zero neg
  else
    match E with
    | Zneg k =>
        let '(q, e, l) :=
          SFdiv_core_binary prec emax (Zpos M) 0 (10 ^ Zpos k) 0 in
        binary_round_aux prec emax neg q e l
    | _ =>
        binary_round prec emax neg (M * Z.to_pos (10 ^ E)) 0
    end.

Definition dec_to_float (neg : bool) (M : N) (E : Z) : float :=
  match M with
  | N0 => if neg then neg_zero else zero
  | Npos p => SF2Prim (dec_to_SF neg p E)
  end.

Local Close Scope Z_scope.

Definition SF_eqb (x y : spec_float) : bool :=
  match x, y with
  | S754_zero a, S754_zero b => Bool.eqb a b
  | S754_infinity a, S754_infinity b => Bool.eqb a b
  | S754_nan, S754_nan => true
  | S754_finite a m e, S754_finite b m' e' =>
      Bool.eqb a b && Pos.eqb m m' && Z.eqb e e'
  | _, _ => false
  end.

(** *** Reading a number token

    The characters a JSON number is made of, and the token read as the
    decoder's number pattern has it: an optional minus sign; an integer
    part, either a single zero or digits that do not start with zero; an
    optional fraction, a point and at least one digit; an optional
    exponent, [e] or [E], an optional sign and at least one digit.  A
    token with a fraction or an exponent is a float, any other an
    integer, which [int] refuses when it has too many digits. *)

Definition is_num_char (c : N) : bool :=
  is_digit c || (c =? 43) || (c =? 45) || (c =? 46) || (c =? 69) || (c =? 101).

Definition int_part_ok (s : text) : bool :=
  match s with
  | [] => false
  | [_] => true
  | c :: _ => negb (c =? 48)
  end.

Inductive number : Type :=
| NumInt (z : Z)
| NumFloat (f : float).

(** [sys.int_info.default_max_str_digits]: [int(str)] raises
    [ValueError] on more digits. *)
Definition max_str_digits : nat := 4300.

Definition number_of_token (tok : text) : option number :=
  let '(neg, body) :=
    match tok with
    | c :: r => if c =? 45 then (true, r) else (false, tok)
    | [] => (false, tok)
    end in
  let '(ipart, r1) := span is_digit body in
  if negb (int_part_ok ipart) then None else
  let '(frac, r2) :=
    match r1 with
    | c :: r =>
        if c =? 46 then let '(f, r') := span is_digit r in (Some f, r')
        else (None, r1)
    | [] => (None, r1)
    end in
  let '(ex, r3) :=
    match r2 with
    | c :: r =>
        if (c =? 69) || (c =? 101) then
          let '(sg, r') :=
            match r with
            | d :: t => if d =? 43 then (false, t)
                        else if d =? 45 then (true, t)
                        else (false, r)
            | [] => (false, r)
            end in
          let '(x, r'') := span is_digit r' in (Some (sg, x), r'')
        else (None, r2)
    | [] => (None, r2)
    end in
  match r3, frac, ex with
  | _ :: _, _, _ => None
  | [], Some [], _ => None
  | [], _, Some (_, []) => None
  | [], None, None =>
      if (max_str_digits <? length ipart)%nat then None else
      obind (text_nat ipart) (fun n =>
        Some (NumInt (if neg then - Z.of_N n else Z.of_N n)%Z))
  | [], _, _ =>
      let f := match frac with Some f => f | None => [] end in
      let e := match ex with
               | Some (sg, x) =>
                   obind (text_nat x) (fun n =>
                     Some (if sg then - Z.of_N n else Z.of_N n)%Z)
               | None => Some 0%Z
               end in
      obind (text_nat (ipart ++ f)) (fun M =>
      obind e (fun E =>
        Some (NumFloat (dec_to_float neg M (E - Z.of_nat (length f))%Z))))
  end.

(** *** Writing a float

    [float.__repr__] gives the shortest digit string that reads back as
    the same float: with each number of digits it looks at the two
    strings around the value, and stops at the first number of digits
    for which one of them reads back.  The string is laid out in
    positional notation when the decimal point falls within the digits'
    reach and in scientific notation otherwise. *)

Local Open Scope Z_scope.

Definition round_half_even (a b : Z) : Z :=
  let q := a / b in
  match 2 * (a mod b) ?= b with
  | Lt => q
  | Gt => q + 1
  | Eq => if Z.even q then q else q + 1
  end.

(** The ways to cut [a / b] down to an integer. *)
Inductive rounding : Type := Nearest | Down | Up.

Definition round_to (r : rounding) (a b : Z) : Z :=
  match r with
  | Nearest => round_half_even a b
  | Down => a / b
  | Up => if a mod b =? 0 then a / b else a / b + 1
  end.

Fixpoint scale_up (fuel : nat) (num den j : Z) : Z :=
  match fuel with
  | O => j
  | S fuel' =>
      if den <=? num * 10 ^ j then j else scale_up fuel' num den (j + 1)
  end.

(** The position [k] of the decimal point: [10^(k-1) <= num/den < 10^k]. *)
Definition decpt (num den : Z) : Z :=
  if den <=? num
  then Z.of_nat (Decimal.nb_digits (N.to_uint (Z.to_N (num / den))))
  else 1 - scale_up 400 num den 1.

(** [num/den] cut down to [n] significant digits: the digits and the
    position of the decimal point. *)
Definition digits_n (r : rounding) (n : Z) (num den : Z) : text * Z :=
  let k := decpt num den in
  let s := n - k in
  let q := if 0 <=? s then round_to r (num * 10 ^ s) den
           else round_to r num (den * 10 ^ (- s)) in
  if q =? 10 ^ n then (nat_text (Z.to_N (10 ^ (n - 1))), k + 1)
  else (nat_text (Z.to_N q), k).

Definition zeros (n : Z) : text := repeat 48%N (Z.to_nat n).

Definition layout (ds : text) (k : Z) : text :=
  let nd := Z.of_nat (length ds) in
  if (-4 <? k) && (k <=? 16) then
    if k <=? 0 then u "0." ++ zeros (- k) ++ ds
    else if nd <=? k then ds ++ zeros (k - nd) ++ u ".0"
    else firstn (Z.to_nat k) ds ++ 46%N :: skipn (Z.to_nat k) ds
  else
    let x := k - 1 in
    let xs := nat_text (Z.to_N (Z.abs x)) in
    firstn 1 ds
      ++ (match skipn 1 ds with [] => [] | t => 46%N :: t end)
      ++ 101%N :: (if x <? 0 then 45%N else 43%N)
      :: (if Z.abs x <? 10 then 48%N :: xs else xs).

Definition sign_text (s : bool) : text := if s then [45%N] else [].

(** The exact value [m * 2^e] in decimal: the way out should no short
    string read back, which does not happen. *)
Definition exact_text (m : positive) (e : Z) : text :=
  match e with
  | Zneg k =>
      nat_text (Npos (m * 5 ^ k)) ++ u "e-" ++ nat_text (Npos k)
  | _ => nat_text (Z.to_N (Zpos m * 2 ^ e)) ++ u "e0"
  end.

Definition reads_back (s : bool) (m : positive) (e : Z) (t : text) : bool :=
  forallb is_num_char t
  && match number_of_token t with
     | Some (NumFloat y) => SF_eqb (Prim2SF y) (S754_finite s m e)
     | _ => false
     end.

(** The strings that [repr] chooses from, in the order of its
    preference: fewer digits first, and of the two strings of [n] digits
    around the value the nearer one first (the even one when the value
    is half way). *)
Definition candidates (s : bool) (m : positive) (e : Z) : list text :=
  let num := if 0 <=? e then Zpos m * 2 ^ e else Zpos m in
  let den := if 0 <=? e then 1 else 2 ^ (- e) in
  flat_map (fun n =>
              map (fun r => let '(ds, k) := digits_n r (Z.of_nat n) num den in
                            sign_text s ++ layout ds k)
                  [Nearest; Down; Up])
           (seq 1 17).

(** The shortest string that reads back as the same float, and of the
    shortest ones the nearest to it. *)
Definition repr_finite (s : bool) (m : positive) (e : Z) : text :=
  match find (reads_back s m e) (candidates s m e) with
  | Some t => t
  | None => sign_text s ++ exact_text m e
  end.

Local Close Scope Z_scope.

(** [json.dumps] writes the three non-finite floats as JavaScript does. *)
Definition float_repr (x : float) : text :=
  match Prim2SF x with
  | S754_nan => u "NaN"
  | S754_infinity s => sign_text s ++ u "Infinity"
  | S754_zero s => sign_text s ++ u "0.0"
  | S754_finite s m e => repr_finite s m e
  end.

(* ================================================================= *)
(** ** JSON ([json.dumps] and [json.loads] with their default settings) *)

Inductive json : Type :=
| JNull
| JBool (b : bool)
| JInt (z : Z)
| JFloat (f : float)
| JStr (s : text)
| JArr (items : list json)
| JObj (members : list (text * json)).

(** *** Strings *)

Definition hex_char (d : N) : N := if d <? 10 then 48 + d else 87 + d.

Definition hex_value (c : N) : option N :=
  if in_range 48 57 c then Some (c - 48)
  else if in_range 97 102 c then Some (c - 87)
  else if in_range 65 70 c then Some (c - 55)
  else None.

(** [\uXXXX], in lower-case hexadecimal. *)
Definition escape_u (c : N) : text :=
  [92; 117; hex_char (c / 4096); hex_char ((c / 256) mod 16);
   hex_char ((c / 16) mod 16); hex_char (c mod 16)].

Definition hex4 (a b c d : N) : option N :=
  obind (hex_value a) (fun x3 =>
  obind (hex_value b) (fun x2 =>
  obind (hex_value c) (fun x1 =>
  obind (hex_value d) (fun x0 =>
    Some (((x3 * 16 + x2) * 16 + x1) * 16 + x0))))).

(** The encoder with [ensure_ascii]: everything outside the printable
    ASCII range is escaped, code points beyond the basic plane as a
    surrogate pair. *)
Definition escape_char (c : N) : text :=
  if c =? 34 then [92; 34]
  else if c =? 92 then [92; 92]
  else if c =? 10 then [92; 110]
  else if c =? 13 then [92; 114]
  else if c =? 9 then [92; 116]
  else if c =? 8 then [92; 98]
  else if c =? 12 then [92; 102]
  else if in_range 32 126 c then [c]
  else if c <? 65536 then escape_u c
  else escape_u (55296 + (c - 65536) / 1024)
         ++ escape_u (56320 + (c - 65536) mod 1024).

Definition encode_string (s : text) : text :=
  34 :: flat_map escape_char s ++ [34].

Definition is_high_surrogate (c : N) : bool := in_range 55296 56319 c.
Definition is_low_surrogate (c : N) : bool := in_range 56320 57343 c.

(** The scanner, entered after the opening quote: the string's content
    and the text after the closing quote.  Control characters must be
    escaped; a high surrogate escape directly followed by a low surrogate
    escape is read as one code point. *)
Definition unescape (e : N) : option N :=
  if e =? 34 then Some 34
  else if e =? 92 then Some 92
  else if e =? 47 then Some 47
  else if e =? 98 then Some 8
  else if e =? 102 then Some 12
  else if e =? 110 then Some 10
  else if e =? 114 then Some 13
  else if e =? 116 then Some 9
  else None.

Definition push (c : N) (r : option (text * text)) : option (text * text) :=
  obind r (fun '(t, rest) => Some (c :: t, rest)).

Fixpoint scanstring (s : text) : option (text * text) :=
  match s with
  | [] => None
  | c0 :: r =>
      if c0 =? 34 then Some ([], r)
      else if c0 =? 92 then
        match r with
        | [] => None
        | e :: r1 =>
            if e =? 117 then
              match r1 with
              | h3 :: h2 :: h1 :: h0 :: r' =>
                  obind (hex4 h3 h2 h1 h0) (fun c =>
                    match r' with
                    | b :: v :: g3 :: g2 :: g1 :: g0 :: r'' =>
                        if is_high_surrogate c && (b =? 92) && (v =? 117)
                        then
                          obind (hex4 g3 g2 g1 g0) (fun c2 =>
                            if is_low_surrogate c2 then
                              push (65536 + (c - 55296) * 1024 + (c2 - 56320))
                                   (scanstring r'')
                            else push c (scanstring r'))
                        else push c (scanstring r')
                    | _ => push c (scanstring r')
                    end)
              | _ => None
              end
            else obind (unescape e) (fun c => push c (scanstring r1))
        end
      else if c0 <? 32 then None
      else push c0 (scanstring r)
  end.

(** *** Documents *)

Definition is_ws (c : N) : bool :=
  (c =? 32) || (c =? 9) || (c =? 10) || (c =? 13).

Fixpoint skip_ws (s : text) : text :=
  match s with
  | c :: r => if is_ws c then skip_ws r else s
  | [] => []
  end.

(** [strip_prefix p s] is the rest of [s] after its prefix [p]. *)
Fixpoint strip_prefix (p s : text) : option text :=
  match p, s with
  | [], _ => Some s
  | a :: p', b :: s' => if a =? b then strip_prefix p' s' else None
  | _ :: _, [] => None
  end.

Definition scan_number (s : text) : option (json * text) :=
  let '(tok, rest) := span is_num_char s in
  obind (number_of_token tok) (fun n =>
    Some (match n with NumInt z => JInt z | NumFloat f => JFloat f end,
          rest)).

(** A value that is neither a string, an object nor an array.  The
    decoder tries the number pattern on what is not a keyword; a match
    that stops short of the end of the run of number characters leaves a
    rest that no document can continue with, so the pattern is tried on
    the whole run. *)
Definition scan_atom (s : text) : option (json * text) :=
  match strip_prefix (u "null") s with
  | Some r => Some (JNull, r)
  | None =>
  match strip_prefix (u "true") s with
  | Some r => Some (JBool true, r)
  | None =>
  match strip_prefix (u "false") s with
  | Some r => Some (JBool false, r)
  | None =>
  match strip_prefix (u "NaN") s with
  | Some r => Some (JFloat nan, r)
  | None =>
  match strip_prefix (u "Infinity") s with
  | Some r => Some (JFloat infinity, r)
  | None =>
  match strip_prefix (u "-Infinity") s with
  | Some r => Some (JFloat neg_infinity, r)
  | None => scan_number s
  end end end end end end.

(** The recursive scanner; [fuel] bounds the nesting and the number of
    siblings, and the length of the document is always enough. *)
Fixpoint scan_once (fuel : nat) (s : text) {struct fuel}
  : option (json * text) :=
  match fuel with
  | O => None
  | S n =>
      match s with
      | [] => None
      | c :: r =>
          if c =? 34 then
            obind (scanstring r) (fun '(t, r') => Some (JStr t, r'))
          else if c =? 123 then
            match skip_ws r with
            | [] => None
            | d :: r' =>
                if d =? 125 then Some (JObj [], r')
                else obind (scan_members n (d :: r')) (fun '(ms, r'') =>
                       Some (JObj ms, r''))
            end
          else if c =? 91 then
            match skip_ws r with
            | [] => None
            | d :: r' =>
                if d =? 93 then Some (JArr [], r')
                else obind (scan_items n (d :: r')) (fun '(vs, r'') =>
                       Some (JArr vs, r''))
            end
          else scan_atom s
      end
  end

with scan_items (fuel : nat) (s : text) {struct fuel}
  : option (list json * text) :=
  match fuel with
  | O => None
  | S n =>
      obind (scan_once n s) (fun '(v, r) =>
        match skip_ws r with
        | [] => None
        | d :: r' =>
            if d =? 93 then Some ([v], r')
            else if d =? 44 then
              obind (scan_items n (skip_ws r')) (fun '(vs, r'') =>
                Some (v :: vs, r''))
            else None
        end)
  end

with scan_members (fuel : nat) (s : text) {struct fuel}
  : option (list (text * json) * text) :=
  match fuel with
  | O => None
  | S n =>
      match s with
      | [] => None
      | q :: r =>
          if q =? 34 then
            obind (scanstring r) (fun '(k, r1) =>
              match skip_ws r1 with
              | [] => None
              | c :: r2 =>
                  if c =? 58 then
                    obind (scan_once n (skip_ws r2)) (fun '(v, r3) =>
                      match skip_ws r3 with
                      | [] => None
                      | d :: r4 =>
                          if d =? 125 then Some ([(k, v)], r4)
                          else if d =? 44 then
                            obind (scan_members n (skip_ws r4))
                                  (fun '(ms, r5) => Some ((k, v) :: ms, r5))
                          else None
                      end)
                  else None
              end)
          else None
      end
  end.

(** [json.loads]: one value, white space around it, nothing else.  The
    scanner is CPython's; the limit that the interpreter puts on the
    nesting of a document is not part of it, and [deserialize] below
    accounts for it. *)
Definition json_loads (s : text) : option json :=
  obind (scan_once (S (length s)) (skip_ws s)) (fun '(v, r) =>
    match skip_ws r with
    | [] => Some v
    | _ :: _ => None
    end).

(** [json.dumps]: items separated by a comma and a space, keys from
    values by a colon and a space. *)
Definition int_text (z : Z) : text :=
  match z with
  | Zneg p => 45 :: nat_text (Npos p)
  | _ => nat_text (Z.to_N z)
  end.

Fixpoint join (sep : text) (parts : list text) : text :=
  match parts with
  | [] => []
  | [p] => p
  | p :: ps => p ++ sep ++ join sep ps
  end.

Fixpoint json_dumps (j : json) : text :=
  match j with
  | JNull => u "null"
  | JBool true => u "true"
  | JBool false => u "false"
  | JInt z => int_text z
  | JFloat f => float_repr f
  | JStr s => encode_string s
  | JArr items => 91 :: join (u ", ") (map json_dumps items) ++ [93]
  | JObj members =>
      123 :: join (u ", ")
               (map (fun '(k, v) => encode_string k ++ u ": " ++ json_dumps v)
                    members)
          ++ [125]
  end.

(* ================================================================= *)
(** ** [Ciphertext] *)

Record Ciphertext : Type := mkCiphertext {
  key_id : text;
  payload : list float;
  noise : float;
  created_at : float
}.

(** [Ciphertext.serialize].  The two text conversions cannot fail on what
    they are given here (ASCII); [None] stands for the exception they would
    raise otherwise. *)
Definition serialize (self : Ciphertext) : option text :=
  let blob := JObj [ (u "key_id", JStr (key_id self));
                     (u "payload", JArr (map JFloat (payload self)));
                     (u "noise", JFloat (noise self));
                     (u "created_at", JFloat (created_at self)) ] in
  obind (utf8_encode (json_dumps blob)) (fun encoded =>
  utf8_decode (b64encode encoded)).

(** [obj[k]] on a decoded document: only a dict can be indexed by a
    string, and of two members with the same name the later one stays. *)
Fixpoint dict_get (k : text) (ms : list (text * json)) : option json :=
  match ms with
  | [] => None
  | (k', v) :: r =>
      match dict_get k r with
      | Some w => Some w
      | None => if text_eqb k k' then Some v else None
      end
  end.

Definition subscript (obj : json) (k : text) : option json :=
  match obj with
  | JObj ms => dict_get k ms
  | _ => None
  end.

(** [float(int)]: the nearest float, [OverflowError] beyond the range. *)
Definition float_of_Z (z : Z) : option float :=
  match binary_normalize prec emax z 0 false with
  | S754_infinity _ => None
  | sf => Some (SF2Prim sf)
  end.

(** [float(v)] on a decoded value; [TypeError] on [None], lists and
    dicts.  Python would also read a float out of a string. *)
Definition py_float (v : json) : result float :=
  match v with
  | JFloat f => Ok f
  | JInt z => match float_of_Z z with
              | Some f => Ok f
              | None => Raise MalformedToken
              end
  | JBool b => Ok (if b then one else zero)
  | JStr _ => Raise OutsideModel
  | JNull | JArr _ | JObj _ => Raise MalformedToken
  end.

Fixpoint floats_of (vs : list json) : option (list float) :=
  match vs with
  | [] => Some []
  | JFloat f :: r => obind (floats_of r) (fun fs => Some (f :: fs))
  | _ :: _ => None
  end.

(** [list(v)] at the declared type [list[float]]; [TypeError] on what
    cannot be iterated. *)
Definition py_float_list (v : json) : result (list float) :=
  match v with
  | JArr vs => match floats_of vs with
               | Some fs => Ok fs
               | None => Raise OutsideModel
               end
  | JStr _ | JObj _ => Raise OutsideModel
  | JNull | JBool _ | JInt _ | JFloat _ => Raise MalformedToken
  end.

Definition py_str (v : json) : result text :=
  match v with
  | JStr s => Ok s
  | _ => Raise OutsideModel
  end.

(** The four field expressions of the constructor call.  An exception in
    any of them ends the call, whatever the others would give, so the
    failures are looked for first. *)
Definition ciphertext_of_json (obj : json) : result Ciphertext :=
  match subscript obj (u "key_id"), subscript obj (u "payload"),
        subscript obj (u "noise"), subscript obj (u "created_at") with
  | Some k, Some p, Some n, Some t =>
      match py_float_list p, py_float n, py_float t with
      | Raise MalformedToken, _, _
      | _, Raise MalformedToken, _
      | _, _, Raise MalformedToken => Raise MalformedToken
      | rp, rn, rt =>
          k' <- py_str k ;; p' <- rp ;; n' <- rn ;; t' <- rt ;;
          Ok (mkCiphertext k' p' n' t')
      end
  | _, _, _, _ => Raise MalformedToken
  end.

(** How deep the arrays and objects of a document are nested. *)
Fixpoint json_depth (v : json) : nat :=
  match v with
  | JArr items =>
      S (fold_right (fun item d => Nat.max (json_depth item) d) 0%nat items)
  | JObj members =>
      S (fold_right (fun member d =>
                       Nat.max (let '(_, value) := member in json_depth value)
                               d) 0%nat members)
  | _ => 0%nat
  end.

(** [json.loads] raises [RecursionError] on a document that is nested
    deeper than the interpreter allows.  How deep that is depends on the
    interpreter (its recursion limit, 1000 unless it is changed, and the
    frames already on the stack), so the embedding says nothing of the
    documents nested deeper than this, which every interpreter with the
    default limit reads. *)
Definition nesting_followed : nat := 100.

(** [Ciphertext.deserialize].  No exception is caught in it: every
    failure of a decoder, of a subscript or of a conversion escapes, and
    is [MalformedToken].  A document that is read and gives a
    ciphertext, but is nested deeper than [nesting_followed], is one on
    which Python may raise instead. *)
Definition decode_token (data : text) : option json :=
  obind (utf8_encode data) (fun raw =>
  obind (b64decode raw) (fun decoded =>
  obind (utf8_decode decoded) json_loads)).

Definition deserialize (data : text) : result Ciphertext :=
  match decode_token data with
  | Some obj =>
      match ciphertext_of_json obj with
      | Ok c => if (nesting_followed <? json_depth obj)%nat
                then Raise OutsideModel
                else Ok c
      | Raise e => Raise e
      end
  | None => Raise MalformedToken
  end.

(* ================================================================= *)
(** ** [KeyStore] ([src/server/security/key_store.py]) *)

(** The two dicts, newest binding first; the lock has no counterpart in a
    sequential embedding. *)
Record KeyStore : Type := mkKeyStore {
  _public_keys : list (text * text);
  _secret_keys : list (text * text)
}.

Fixpoint dict_find (k : text) (d : list (text * text)) : option text :=
  match d with
  | [] => None
  | (k', v) :: r => if text_eqb k k' then Some v else dict_find k r
  end.

Definition save_keys (self : KeyStore) (kid public_key secret_key : text)
  : KeyStore :=
  {| _public_keys := (kid, public_key) :: _public_keys self;
     _secret_keys := (kid, secret_key) :: _secret_keys self |}.

Definition get_public_key (self : KeyStore) (kid : text) : option text :=
  dict_find kid (_public_keys self).

Definition has_secret (self : KeyStore) (kid : text) : bool :=
  match dict_find kid (_secret_keys self) with
  | Some _ => true
  | None => false
  end.

Definition clear (self : KeyStore) : KeyStore := mkKeyStore [] [].

(* ================================================================= *)
(** ** [SimulatedFHEEngine] *)

Record SimulatedFHEEngine : Type := mkEngine {
  _public_key : option text;
  _secret_key : option text;
  _key_id : option text
}.

(** [__init__]. *)
Definition new_engine : SimulatedFHEEngine := mkEngine None None None.

(** The [key_id] property: [not self._key_id] holds of [None] and of the
    empty string. *)
Definition self_key_id (self : SimulatedFHEEngine) : result text :=
  match _key_id self with
  | Some (c :: k) => Ok (c :: k)
  | _ => Raise KeysNotInitialized
  end.

(** [generate_keys]; [kid], [public] and [secret] are the three draws
    from [secrets] (sixteen hexadecimal digits, and two URL-safe strings).
    Gives the engine, the key store and the public context. *)
Definition generate_keys (self : SimulatedFHEEngine) (store : KeyStore)
           (kid public secret : text)
  : SimulatedFHEEngine * KeyStore * (text * text) :=
  (mkEngine (Some public) (Some secret) (Some kid),
   save_keys store kid public secret,
   (kid, public)).

Definition float_of_N (n : N) : float :=
  of_uint63 (Uint63.of_Z (Z.of_N n)).

Definition isfinite (x : float) : bool := is_finite x.

(** [encrypt]; [draw] is [secrets.randbelow(100)] and [now] is
    [time.time()]. *)
Definition encrypt (self : SimulatedFHEEngine) (values : list float)
           (draw : N) (now : float) : result Ciphertext :=
  match _public_key self with
  | None => Raise KeysNotInitialized
  | Some _ =>
      match values with
      | [] => Raise InvalidInput
      | _ :: _ =>
          let numeric := values in
          if negb (forallb isfinite numeric) then Raise InvalidInput
          else
            let noise := (float_of_N draw / 10)%float in
            k <- self_key_id self ;;
            Ok (mkCiphertext k (map (fun v => (v + noise)%float) numeric)
                             noise now)
      end
  end.

(** [decrypt]. *)
Definition decrypt (self : SimulatedFHEEngine) (ciphertext : Ciphertext)
  : result (list float) :=
  match _secret_key self with
  | None => Raise KeysNotInitialized
  | Some _ =>
      Ok (map (fun value => (value - noise ciphertext)%float)
              (payload ciphertext))
  end.

(** An operand: a serialized token or a ciphertext object. *)
Inductive operand : Type :=
| Token (data : text)
| Object (c : Ciphertext).

(** [_validate_ciphertext]. *)
Definition _validate_ciphertext (self : SimulatedFHEEngine)
           (ciphertext : Ciphertext) : result unit :=
  match _key_id self with
  | None => Raise KeysNotInitialized
  | Some k =>
      if negb (text_eqb (key_id ciphertext) k) then Raise KeyMismatch
      else
        match payload ciphertext with
        | [] => Raise InvalidCiphertext
        | _ :: _ => Ok tt
        end
  end.

(** [_coerce_ciphertext]. *)
Definition _coerce_ciphertext (self : SimulatedFHEEngine) (data : operand)
  : result Ciphertext :=
  coerced <- match data with
             | Object c => Ok c
             | Token [] => Raise InvalidInput
             | Token t => deserialize t
             end ;;
  _ <- _validate_ciphertext self coerced ;;
  Ok coerced.

(** *** numpy on lists of floats

    [np.add] and [np.multiply] work element by element on operands of
    one length, and each element is one IEEE operation: these two are
    the functions of numpy.

    [np.dot] and [np.mean] are not: numpy adds in an order of its own
    (blocks of eight accumulators and pairwise halves in
    [np.add.reduce], the kernel of the BLAS library behind [np.dot],
    which may fuse the product and the sum), and that order changes with
    the length of the array, the version and the machine.  [np_sum],
    [np_dot] and [np_mean] below add from left to right; they stand for
    the float that numpy returns and are equal to it only up to the
    rounding of the sum.  The properties proved of [dot], [mean] and
    [linear_model] are therefore those that hold of every order of the
    sum (the errors, the key, the noise, the time, the one element of
    the payload, the symmetry of [dot]): none states which float the
    element is. *)
Fixpoint np_add (xs ys : list float) : list float :=
  match xs, ys with
  | x :: xs', y :: ys' => (x + y)%float :: np_add xs' ys'
  | _, _ => []
  end.

Fixpoint np_multiply (xs ys : list float) : list float :=
  match xs, ys with
  | x :: xs', y :: ys' => (x * y)%float :: np_multiply xs' ys'
  | _, _ => []
  end.

Definition np_sum (xs : list float) : float :=
  fold_left (fun acc x => (acc + x)%float) xs zero.

Definition np_dot (xs ys : list float) : float := np_sum (np_multiply xs ys).

Definition np_mean (xs : list float) : float :=
  (np_sum xs / float_of_N (N.of_nat (length xs)))%float.

(** *** The operators; [now] is [time.time()] *)

Definition add (self : SimulatedFHEEngine) (a b : operand) (now : float)
  : result Ciphertext :=
  ct_a <- _coerce_ciphertext self a ;;
  ct_b <- _coerce_ciphertext self b ;;
  if negb (length (payload ct_a) =? length (payload ct_b))%nat
  then Raise DimensionMismatch
  else
    let payload' := np_add (payload ct_a) (payload ct_b) in
    let noise' := ((noise ct_a + noise ct_b) / 2)%float in
    k <- self_key_id self ;;
    Ok (mkCiphertext k payload' noise' now).

Definition mul (self : SimulatedFHEEngine) (a b : operand) (now : float)
  : result Ciphertext :=
  ct_a <- _coerce_ciphertext self a ;;
  ct_b <- _coerce_ciphertext self b ;;
  if negb (length (payload ct_a) =? length (payload ct_b))%nat
  then Raise DimensionMismatch
  else
    let payload' := np_multiply (payload ct_a) (payload ct_b) in
    let noise' := ((noise ct_a + noise ct_b) + 1)%float in
    k <- self_key_id self ;;
    Ok (mkCiphertext k payload' noise' now).

Definition scalar_mul (self : SimulatedFHEEngine) (ciphertext : operand)
           (scalar : float) (now : float) : result Ciphertext :=
  ct <- _coerce_ciphertext self ciphertext ;;
  let payload' := map (fun value => (value * scalar)%float) (payload ct) in
  k <- self_key_id self ;;
  Ok (mkCiphertext k payload' (noise ct + 0.2)%float now).

Definition dot (self : SimulatedFHEEngine) (a b : operand) (now : float)
  : result Ciphertext :=
  ct_a <- _coerce_ciphertext self a ;;
  ct_b <- _coerce_ciphertext self b ;;
  if negb (length (payload ct_a) =? length (payload ct_b))%nat
  then Raise DimensionMismatch
  else
    let payload' := [np_dot (payload ct_a) (payload ct_b)] in
    let noise' := (noise ct_a + noise ct_b + 0.5)%float in
    k <- self_key_id self ;;
    Ok (mkCiphertext k payload' noise' now).

(** The inner loop of [polynomial]: [acc = acc * value + coeff] for each
    coefficient in turn. *)
Fixpoint horner_loop (coefficients : list float) (value acc : float)
  : float :=
  match coefficients with
  | [] => acc
  | coeff :: rest => horner_loop rest value (acc * value + coeff)%float
  end.

(** The outer loop: one [append] to [result_payload] for each value. *)
Fixpoint polynomial_loop (values coefficients result_payload : list float)
  : list float :=
  match values with
  | [] => result_payload
  | value :: rest =>
      polynomial_loop rest coefficients
        (result_payload ++ [horner_loop coefficients value zero])
  end.

Definition polynomial (self : SimulatedFHEEngine) (ciphertext : operand)
           (coefficients : list float) (now : float) : result Ciphertext :=
  ct <- _coerce_ciphertext self ciphertext ;;
  match coefficients with
  | [] => Raise InvalidInput
  | _ :: _ =>
      let result_payload := polynomial_loop (payload ct) coefficients [] in
      k <- self_key_id self ;;
      Ok (mkCiphertext k result_payload (noise ct + 0.3)%float now)
  end.

Definition mean (self : SimulatedFHEEngine) (ciphertext : operand)
           (now : float) : result Ciphertext :=
  ct <- _coerce_ciphertext self ciphertext ;;
  let avg := np_mean (payload ct) in
  k <- self_key_id self ;;
  Ok (mkCiphertext k [avg] (noise ct + 0.1)%float now).

Definition linear_model (self : SimulatedFHEEngine) (ciphertext : operand)
           (weights : list float) (bias : float) (now : float)
  : result Ciphertext :=
  ct <- _coerce_ciphertext self ciphertext ;;
  if negb (length weights =? length (payload ct))%nat
  then Raise DimensionMismatch
  else
    let result := (np_dot (payload ct) weights + bias)%float in
    k <- self_key_id self ;;
    Ok (mkCiphertext k [result] (noise ct + 0.4)%float now).

(* ================================================================= *)
(** ** Vocabulary of the specification *)

(** Keys have been generated: the three fields are set and the key
    identifier is not empty ([generate_keys] draws sixteen digits). *)
Definition keys_generated (self : SimulatedFHEEngine) : bool :=
  match _public_key self, _secret_key self, _key_id self with
  | Some _, Some _, Some (_ :: _) => true
  | _, _, _ => false
  end.

(** An operand stands for the ciphertext [c]: it is that object, or a
    token that [deserialize] turns into it. *)
Definition resolves (x : operand) (c : Ciphertext) : Prop :=
  match x with
  | Object c' => c' = c
  | Token t => t <> [] /\ deserialize t = Ok c
  end.

(** The calls of the operators with one ciphertext operand and with
    two. *)
Inductive unary_call : Type :=
| CallScalarMul (scalar now : float)
| CallPolynomial (coefficients : list float) (now : float)
| CallMean (now : float)
| CallLinearModel (weights : list float) (bias now : float).

Inductive binary_call : Type :=
| CallAdd (now : float)
| CallMul (now : float)
| CallDot (now : float).

Definition run_unary (self : SimulatedFHEEngine) (call : unary_call)
           (x : operand) : result Ciphertext :=
  match call with
  | CallScalarMul scalar now => scalar_mul self x scalar now
  | CallPolynomial coefficients now => polynomial self x coefficients now
  | CallMean now => mean self x now
  | CallLinearModel weights bias now => linear_model self x weights bias now
  end.

Definition run_binary (self : SimulatedFHEEngine) (call : binary_call)
           (x y : operand) : result Ciphertext :=
  match call with
  | CallAdd now => add self x y now
  | CallMul now => mul self x y now
  | CallDot now => dot self x y now
  end.

(** Horner's method as the specification words it: [acc = 0], then
    [acc = acc * x + c] for each coefficient [c] in order. *)
Definition horner (coeffs : list float) (x : float) : float :=
  fold_left (fun acc c => (acc * x + c)%float) coeffs zero.

(** The value of a finite float, scaled by [2^1074] so that it is an
    integer (the smallest positive double is [2^-1074]). *)
Definition SFscaled (f : spec_float) : Z :=
  match f with
  | S754_finite s m e => cond_Zopp s (Z.shiftl (Zpos m) (e + 1074))
  | _ => 0%Z
  end.

Definition scaled (x : float) : Z := SFscaled (Prim2SF x).

(** The scaled value of [1.0], that is [2^1074]. *)
Definition unit_scaled : Z := Z.shiftl 1 1074.

(** Two scaled values differ by at most [1e-6]. *)
Definition within_1e6 (a b : Z) : Prop :=
  (1000000 * Z.abs (a - b) <= unit_scaled)%Z.

Definition within_1e6b (a b : Z) : bool :=
  (1000000 * Z.abs (a - b) <=? unit_scaled)%Z.

(** [x] and [y] are finite floats that differ by at most [1e-6]. *)
Definition close (x y : float) : Prop :=
  is_finite x = true /\ is_finite y = true
  /\ within_1e6 (scaled x) (scaled y).

(** The magnitude of a finite float is at most the integer [B]. *)
Definition magnitude_le (x : float) (B : Z) : Prop :=
  (Z.abs (scaled x) <= B * unit_scaled)%Z.

(** [0 <= x] as floats compare: either zero, a positive number or
    [+Infinity]. *)
Definition nonneg (x : float) : bool := (zero <=? x)%float.

(** The ciphertext invariant of the specification. *)
Definition invariant (c : Ciphertext) : Prop :=
  payload c <> []
  /\ forallb isfinite (payload c) = true
  /\ isfinite (noise c) = true
  /\ nonneg (noise c) = true.

(** Fixtures for the examples: an engine after [generate_keys]. *)
Definition demo_engine : SimulatedFHEEngine :=
  fst (fst (generate_keys new_engine (mkKeyStore [] [])
                          (u "00112233aabbccdd") (u "pub") (u "sec"))).

Definition demo_ct (values : list float) (n : float) : Ciphertext :=
  mkCiphertext (u "00112233aabbccdd") values n zero.

(** The draws [0 .. n-1]. *)
Definition below (n : nat) : list N := map N.of_nat (seq 0 n).

(** The noise [encrypt] makes of a draw. *)
Definition noise_of_draw (draw : N) : float := (float_of_N draw / 10)%float.

(** What [decrypt] gives for one element after [add]: the two payload
    elements [v + na] and [w + nb], summed, less the averaged noise. *)
Definition sum_then_decrypt (v w : float) (da db : N) : float :=
  let na := noise_of_draw da in
  let nb := noise_of_draw db in
  ((v + na) + (w + nb) - (na + nb) / 2)%float.

Fixpoint floats_eqb (xs ys : list float) : bool :=
  match xs, ys with
  | [], [] => true
  | x :: xs', y :: ys' => Leibniz.eqb x y && floats_eqb xs' ys'
  | _, _ => false
  end.

(** The check behind the scenario of C9, for one pair of draws: each
    decrypted element is finite and within [1e-6] of the plain sum plus
    the mean of the two noises, and the plain sums come out exactly only
    when both draws are zero. *)
Definition scenario_check (da db : N) : bool :=
  let na := noise_of_draw da in
  let nb := noise_of_draw db in
  let out := [sum_then_decrypt 1 4 da db; sum_then_decrypt 2 5 da db;
              sum_then_decrypt 3 6 da db] in
  let twice_mean := (scaled na + scaled nb)%Z in
  Z.even twice_mean
  && forallb is_finite out
  && forallb (fun '(o, plain) =>
                within_1e6b (scaled o)
                            (plain * unit_scaled + twice_mean / 2)%Z)
             (combine out [5; 7; 9]%Z)
  && Bool.eqb (floats_eqb out [5; 7; 9]%float) ((da =? 0) && (db =? 0)).

(** Text within the ASCII range. *)
Definition is_ascii (t : text) : Prop := Forall (fun c => c < 128) t.

(** Text made of Unicode scalar values: what a JSON document can carry
    faithfully (the decoder joins an escaped surrogate pair into one code
    point). *)
Definition wf_text (t : text) : bool := forallb is_scalar t.

(** What may follow a number in a document: the end, or a character
    that no number contains. *)
Definition delimited (rest : text) : Prop :=
  match rest with
  | [] => True
  | c :: _ => is_num_char c = false
  end.

(** The dict [serialize] writes. *)
Definition blob_of (c : Ciphertext) : json :=
  JObj [ (u "key_id", JStr (key_id c));
         (u "payload", JArr (map JFloat (payload c)));
         (u "noise", JFloat (noise c));
         (u "created_at", JFloat (created_at c)) ].

(** The fields [deserialize] reads. *)
Definition required_fields : list text :=
  [u "key_id"; u "payload"; u "noise"; u "created_at"].

(** ** Binary64 values: classes, signs and shifts *)

Local Open Scope Z_scope.

(** The specification-level reading of [is_finite] and [nonneg]. *)
Definition SFfinite (f : spec_float) : bool :=
  match f with
  | S754_zero _ | S754_finite _ _ _ => true
  | _ => false
  end.

Definition SFnonneg (f : spec_float) : bool :=
  match f with
  | S754_zero _ | S754_infinity false | S754_finite false _ _ => true
  | _ => false
  end.

(** What [n] right shifts of [m] leave: the quotient, and in the round
    and sticky bits the place of the remainder [m - q * 2^n] with respect
    to half of [2^n]. *)
Definition shr_inv (m : Z) (h : Z) (mrs : shr_record) : Prop :=
  exists rem,
    m = shr_m mrs * h + rem /\ 0 <= rem < h /\ 0 <= shr_m mrs
    /\ (shr_r mrs = true <-> h <= 2 * rem)
    /\ (shr_s mrs = true <-> rem <> 0 /\ 2 * rem <> h).

Local Close Scope Z_scope.

(** What the round trip of one element gives: [(v + noise) - noise]. *)
Definition encrypt_then_decrypt (v : float) (draw : N) : float :=
  ((v + noise_of_draw draw) - noise_of_draw draw)%float.

(** The noise of a draw is a finite float between 0 and 10. *)
Definition noise_in_range (draw : N) : bool :=
  is_finite (noise_of_draw draw) && nonneg (noise_of_draw draw)
  && (0 <=? scaled (noise_of_draw draw))%Z
  && (scaled (noise_of_draw draw) <=? 10 * unit_scaled)%Z.

(** The value of a float of exponent at least [-64], scaled by [2^64]:
    [scaled] without the common factor [2^1010]. *)
Definition SFsmall (f : spec_float) : option Z :=
  match f with
  | S754_zero _ => Some 0%Z
  | S754_finite s m e =>
      if (-64 <=? e)%Z
      then Some (cond_Zopp s (Z.shiftl (Zpos m) (e + 64)))
      else None
  | _ => None
  end.

Definition small (x : float) : option Z := SFsmall (Prim2SF x).

(** [scenario_check] on the values scaled by [2^64]. *)
Definition scenario_check_small (da db : N) : bool :=
  let na := noise_of_draw da in
  let nb := noise_of_draw db in
  let o1 := sum_then_decrypt 1 4 da db in
  let o2 := sum_then_decrypt 2 5 da db in
  let o3 := sum_then_decrypt 3 6 da db in
  match small na, small nb, small o1, small o2, small o3 with
  | Some sa, Some sb, Some s1, Some s2, Some s3 =>
      let near (s plain : Z) :=
        (1000000 * Z.abs (s - (plain * 18446744073709551616 + (sa + sb) / 2))
         <=? 18446744073709551616)%Z in
      Z.even (sa + sb)
      && (is_finite o1 && is_finite o2 && is_finite o3)
      && (near s1 5%Z && near s2 7%Z && near s3 9%Z)
      && Bool.eqb (floats_eqb [o1; o2; o3] [5; 7; 9]%float)
                  ((da =? 0) && (db =? 0))
  | _, _, _, _, _ => false
  end.

(** The [now] argument of a call. *)
Definition unary_now (call : unary_call) : float :=
  match call with
  | CallScalarMul _ now | CallPolynomial _ now | CallMean now
  | CallLinearModel _ _ now => now
  end.

Definition binary_now (call : binary_call) : float :=
  match call with
  | CallAdd now | CallMul now | CallDot now => now
  end.

(** The payload an operator computes from the payloads of its operands. *)
Definition unary_payload (call : unary_call) (p : list float) : list float :=
  match call with
  | CallScalarMul scalar _ => map (fun value => (value * scalar)%float) p
  | CallPolynomial coefficients _ => map (horner coefficients) p
  | CallMean _ => [np_mean p]
  | CallLinearModel weights bias _ => [(np_dot p weights + bias)%float]
  end.

Definition binary_payload (call : binary_call) (p q : list float)
  : list float :=
  match call with
  | CallAdd _ => np_add p q
  | CallMul _ => np_multiply p q
  | CallDot _ => [np_dot p q]
  end.

(** A character of a token: a letter, a digit, [-], [_] or the pad [=]. *)
Definition is_token_char (c : N) : bool :=
  in_range 65 90 c || in_range 97 122 c || in_range 48 57 c
  || (c =? 45) || (c =? 95) || (c =? 61).

(** A character that the token decoder passes over: a Unicode scalar
    value that is neither a Base64 digit of either alphabet nor the
    pad. *)
Definition is_filler (c : N) : bool :=
  is_scalar c && negb (c =? b64_pad)
  && match b64_value c with Some _ => false | None => true end.

(* ================================================================= *)
(** ** The rate limiter ([src/server/main.py]) *)

(** [rate_limits: dict[str, int]], in the order of insertion. *)
Definition rate_table : Type := list (text * Z).

(** [rate_limits.get(key, 0)]. *)
Fixpoint rate_get (key : text) (rate_limits : rate_table) : Z :=
  match rate_limits with
  | [] => 0%Z
  | (k, count) :: r => if text_eqb key k then count else rate_get key r
  end.

(** [rate_limits[key] = value]: the binding of [key] is replaced where it
    is, a new key goes to the end. *)
Fixpoint rate_set (key : text) (value : Z) (rate_limits : rate_table)
  : rate_table :=
  match rate_limits with
  | [] => [(key, value)]
  | (k, count) :: r =>
      if text_eqb key k then (k, value) :: r
      else (k, count) :: rate_set key value r
  end.

(** [f"window:{window}"]. *)
Definition window_key (window : Z) : text := u "window:" ++ int_text window.

(** [rate_limiter]; [limit] is [CONFIG.rate_limit_per_minute], [now] is
    [int(time.time())].  [None] is the [HTTPException] with status 429;
    otherwise the dict after the call. *)
Definition rate_limiter (limit : Z) (now : Z) (rate_limits : rate_table)
  : option rate_table :=
  if (limit <=? 0)%Z then Some rate_limits
  else
    let window := (now / 60)%Z in
    let key := window_key window in
    let count := rate_get key rate_limits in
    if (count >=? limit)%Z then None
    else Some (rate_set key (count + 1)%Z rate_limits).

(** A run of requests at the times [times]: for each one whether the
    limiter let it pass, and the dict at the end. *)
Fixpoint serve (limit : Z) (times : list Z) (rate_limits : rate_table)
  : list bool * rate_table :=
  match times with
  | [] => ([], rate_limits)
  | now :: rest =>
      match rate_limiter limit now rate_limits with
      | None =>
          let '(passed, final) := serve limit rest rate_limits in
          (false :: passed, final)
      | Some rate_limits' =>
          let '(passed, final) := serve limit rest rate_limits' in
          (true :: passed, final)
      end
  end.

(** The number of requests of the minute [window] that passed. *)
Fixpoint passed_in (window : Z) (times : list Z) (passed : list bool) : Z :=
  match times, passed with
  | now :: times', p :: passed' =>
      ((if p && (now / 60 =? window)%Z then 1 else 0)
       + passed_in window times' passed')%Z
  | _, _ => 0%Z
  end.

(* ================================================================= *)
(** ** The HTTP handlers ([src/server/routes/keys.py],
       [src/server/routes/compute.py])

    The handlers are embedded as the Python functions they are, called
    with the request object that FastAPI has built.  What FastAPI runs
    around a handler is not part of them: the checks of pydantic before
    it, the [rate_limiter] dependency of both routers (embedded on its
    own above), the [audit_requests] middleware of [main.py], which adds
    an [http.access] record for every request, and the rendering of the
    reply. *)

(** The [detail] of an [HTTPException]. *)
Inductive detail : Type :=
| Str (e : error)       (* [str(exc)] of the exception caught *)
| DecryptDisabled.      (* "Decrypt endpoint disabled" *)

(** An exception that no handler catches. *)
Inductive uncaught : Type :=
| EngineNotInitialized  (* [RuntimeError("Engine not initialized")] *)
| Escaped (e : error).

Inductive response (A : Type) : Type :=
| Reply (body : A)
| HTTPException (status_code : N) (d : detail)
| Uncaught (e : uncaught)
| NotFollowed.          (* the embedding does not follow: [OutsideModel] *)

Arguments Reply {A} body.
Arguments HTTPException {A} status_code d.
Arguments Uncaught {A} e.
Arguments NotFollowed {A}.

(** A record of the log.  [audit.py] gives the root logger two handlers
    at level [INFO], the file at [CONFIG.audit_log_path] and the stream,
    and every logger of the service propagates to the root: the audit
    file receives the events of [log_event], the warnings of the route
    modules and the message of the engine alike. *)
Inductive log_record : Type :=
| Event (event : text) (metadata : list (text * json))
    (* [log_event(event, metadata)], logger [audit] *)
| Warning (message : text) (exc : error)
    (* [logger.warning(message, exc_info=exc)] of a route module *)
| Info (message : text) (extra : list (text * json)).
    (* [logger.info(message, extra=...)] of [he_engine.py] *)

(** What the service holds: the engine that [main.py] hands to both
    route modules, the key store, the one configuration flag the handlers
    read, and the records written to the log, oldest first. *)
Record Service : Type := mkService {
  engine : option SimulatedFHEEngine;
  KEY_STORE : KeyStore;
  enable_simulated_decrypt : bool;
  audit_log : list log_record
}.

Definition emit (record : log_record) (svc : Service) : Service :=
  mkService (engine svc) (KEY_STORE svc) (enable_simulated_decrypt svc)
            (audit_log svc ++ [record]).

(** [log_event(event, metadata)]. *)
Definition log_event (event : text) (metadata : list (text * json))
           (svc : Service) : Service :=
  emit (Event event metadata) svc.

(** A step inside [try: ... except Exception as exc:
    logger.warning(message, exc_info=exc); raise
    HTTPException(status_code=400, detail=str(exc))]. *)
Definition caught {A B : Type} (message : text) (step : result A)
           (svc : Service) (k : A -> response B * Service)
  : response B * Service :=
  match step with
  | Ok a => k a
  | Raise OutsideModel => (NotFollowed, svc)
  | Raise e => (HTTPException 400 (Str e), emit (Warning message e) svc)
  end.

(** [_get_engine()] and the rest of a handler. *)
Definition with_engine {B : Type} (svc : Service)
           (k : SimulatedFHEEngine -> response B * Service)
  : response B * Service :=
  match engine svc with
  | None => (Uncaught EngineNotInitialized, svc)
  | Some eng => k eng
  end.

(** [serialize()] on a result and the rest of a handler. *)
Definition serialized {B : Type} (c : Ciphertext) (svc : Service)
           (k : text -> response B * Service) : response B * Service :=
  match serialize c with
  | Some token => k token
  | None => (NotFollowed, svc)
  end.

(** [POST /keys/generate]; the three draws as for [generate_keys].  The
    body is the pair of [key_id] and [public_key].  The engine of the
    embedding keeps no log, so the record that [generate_keys] writes
    before it returns ([he_engine.py], line 91) is written here, before
    the event of the handler. *)
Definition generate_keys_route (svc : Service) (kid public secret : text)
  : response (text * text) * Service :=
  with_engine svc (fun eng =>
    let '(eng', store', generated) :=
      generate_keys eng (KEY_STORE svc) kid public secret in
    (Reply generated,
     log_event (u "keys.generated") [(u "key_id", JStr (fst generated))]
       (emit (Info (u "Generated new simulated keypair")
                   [(u "key_id", JStr kid)])
          (mkService (Some eng') store' (enable_simulated_decrypt svc)
                     (audit_log svc))))).

(** [GET /keys/public]. *)
Definition get_public_key_route (svc : Service)
  : response (text * text) * Service :=
  with_engine svc (fun eng =>
    match self_key_id eng with
    | Raise e => (Uncaught (Escaped e), svc)
    | Ok k =>
        let public_key :=
          match get_public_key (KEY_STORE svc) k with
          | Some (c :: p) => c :: p
          | _ => u "SIMULATED_PUBLIC"
          end in
        (Reply (k, public_key), svc)
    end).

(** [POST /encrypt]; the body is the token. *)
Definition encrypt_route (svc : Service) (values : list float)
           (draw : N) (now : float) : response text * Service :=
  with_engine svc (fun eng =>
    caught (u "Encryption failed") (encrypt eng values draw now) svc
      (fun ciphertext =>
      let svc' :=
        log_event (u "encrypt")
          [(u "key_id", JStr (key_id ciphertext));
           (u "length", JInt (Z.of_nat (length values)))] svc in
      serialized ciphertext svc' (fun token => (Reply token, svc')))).

(** [POST /decrypt]; the body is the list of values. *)
Definition decrypt_route (svc : Service) (ciphertext : text)
  : response (list float) * Service :=
  with_engine svc (fun eng =>
    if negb (enable_simulated_decrypt svc)
    then (HTTPException 403 DecryptDisabled, svc)
    else
      caught (u "Decryption failed")
             (c <- deserialize ciphertext ;; decrypt eng c) svc
        (fun decrypted =>
      caught (u "Decryption failed") (self_key_id eng) svc (fun k =>
        (Reply decrypted,
         log_event (u "decrypt")
           [(u "key_id", JStr k);
            (u "length", JInt (Z.of_nat (length decrypted)))] svc)))).

(** The end of the handlers of [compute.py]: serialize the result, log
    the event with the active key, reply with the token; [message] is
    the text of the handler's warning. *)
Definition computed (svc : Service) (eng : SimulatedFHEEngine)
           (event message : text) (more : list (text * json))
           (outcome : result Ciphertext) : response text * Service :=
  caught message outcome svc (fun c =>
  serialized c svc (fun result =>
  caught message (self_key_id eng) svc (fun k =>
    (Reply result, log_event event ((u "key_id", JStr k) :: more) svc)))).

(** [POST /compute/add], [/compute/mul], [/compute/dot]: the two tokens
    go to the engine as they are. *)
Definition add_route (svc : Service) (a b : text) (now : float)
  : response text * Service :=
  with_engine svc (fun eng =>
    computed svc eng (u "compute.add") (u "Add operation failed") []
             (add eng (Token a) (Token b) now)).

Definition multiply_route (svc : Service) (a b : text) (now : float)
  : response text * Service :=
  with_engine svc (fun eng =>
    computed svc eng (u "compute.mul") (u "Multiplication failed") []
             (mul eng (Token a) (Token b) now)).

Definition dot_route (svc : Service) (a b : text) (now : float)
  : response text * Service :=
  with_engine svc (fun eng =>
    computed svc eng (u "compute.dot") (u "Dot product failed") []
             (dot eng (Token a) (Token b) now)).

(** [POST /compute/polynomial], [/compute/mean], [/compute/linear]: the
    handler deserializes the token and hands the object to the engine. *)
Definition polynomial_route (svc : Service) (ciphertext : text)
           (coefficients : list float) (now : float)
  : response text * Service :=
  with_engine svc (fun eng =>
    computed svc eng (u "compute.polynomial")
             (u "Polynomial evaluation failed")
             [(u "degree", JInt (Z.of_nat (length coefficients) - 1))]
             (c <- deserialize ciphertext ;;
              polynomial eng (Object c) coefficients now)).

Definition mean_route (svc : Service) (ciphertext : text) (now : float)
  : response text * Service :=
  with_engine svc (fun eng =>
    computed svc eng (u "compute.mean") (u "Mean computation failed") []
             (c <- deserialize ciphertext ;; mean eng (Object c) now)).

Definition linear_model_route (svc : Service) (ciphertext : text)
           (weights : list float) (bias : float) (now : float)
  : response text * Service :=
  with_engine svc (fun eng =>
    computed svc eng (u "compute.linear")
             (u "Linear model computation failed") []
             (c <- deserialize ciphertext ;;
              linear_model eng (Object c) weights bias now)).

(** The requests that go to the engine, and the handler of each. *)
Inductive request : Type :=
| PostEncrypt (values : list float) (draw : N) (now : float)
| PostDecrypt (ciphertext : text)
| PostAdd (a b : text) (now : float)
| PostMul (a b : text) (now : float)
| PostDot (a b : text) (now : float)
| PostPolynomial (ciphertext : text) (coefficients : list float)
                 (now : float)
| PostMean (ciphertext : text) (now : float)
| PostLinear (ciphertext : text) (weights : list float) (bias now : float).

Inductive body : Type :=
| BodyCiphertext (token : text)
| BodyValues (values : list float).

Definition as_body {A : Type} (f : A -> body) (r : response A * Service)
  : response body * Service :=
  (match fst r with
   | Reply a => Reply (f a)
   | HTTPException s d => HTTPException s d
   | Uncaught e => Uncaught e
   | NotFollowed => NotFollowed
   end, snd r).

Definition handle (svc : Service) (req : request) : response body * Service :=
  match req with
  | PostEncrypt values draw now =>
      as_body BodyCiphertext (encrypt_route svc values draw now)
  | PostDecrypt ciphertext => as_body BodyValues (decrypt_route svc ciphertext)
  | PostAdd a b now => as_body BodyCiphertext (add_route svc a b now)
  | PostMul a b now => as_body BodyCiphertext (multiply_route svc a b now)
  | PostDot a b now => as_body BodyCiphertext (dot_route svc a b now)
  | PostPolynomial ciphertext coefficients now =>
      as_body BodyCiphertext
              (polynomial_route svc ciphertext coefficients now)
  | PostMean ciphertext now =>
      as_body BodyCiphertext (mean_route svc ciphertext now)
  | PostLinear ciphertext weights bias now =>
      as_body BodyCiphertext
              (linear_model_route svc ciphertext weights bias now)
  end.

(** The name of the audit event of a request. *)
Definition event_name (req : request) : text :=
  match req with
  | PostEncrypt _ _ _ => u "encrypt"
  | PostDecrypt _ => u "decrypt"
  | PostAdd _ _ _ => u "compute.add"
  | PostMul _ _ _ => u "compute.mul"
  | PostDot _ _ _ => u "compute.dot"
  | PostPolynomial _ _ _ => u "compute.polynomial"
  | PostMean _ _ => u "compute.mean"
  | PostLinear _ _ _ _ => u "compute.linear"
  end.

(** The message of the warning that the handler of a request logs when
    it catches an exception. *)
Definition failure_message (req : request) : text :=
  match req with
  | PostEncrypt _ _ _ => u "Encryption failed"
  | PostDecrypt _ => u "Decryption failed"
  | PostAdd _ _ _ => u "Add operation failed"
  | PostMul _ _ _ => u "Multiplication failed"
  | PostDot _ _ _ => u "Dot product failed"
  | PostPolynomial _ _ _ => u "Polynomial evaluation failed"
  | PostMean _ _ => u "Mean computation failed"
  | PostLinear _ _ _ _ => u "Linear model computation failed"
  end.

(** A service as [main.py] starts it: an engine with generated keys
    whose identifier is a text of Unicode scalar values. *)
Definition started (svc : Service) : Prop :=
  exists eng k,
    engine svc = Some eng /\ keys_generated eng = true
    /\ _key_id eng = Some k /\ wf_text k = true.

Definition demo_service : Service :=
  mkService (Some demo_engine) (mkKeyStore [] []) true [].

(** What a handler leaves behind.  The engine, the key store and the
    configuration stay as they are, and the log grows by exactly one
    record, or not at all: a reply adds the event of the request, with
    the active key; an exception caught (status 400, with the text of the
    exception as detail) adds the warning of the handler; the refusal of
    [/decrypt] (status 403) and a missing engine add nothing.  A request
    that the embedding does not follow is none of these. *)
Definition traced (name message : text) (svc : Service) {A}
           (r : response A * Service) : Prop :=
  engine (snd r) = engine svc
  /\ KEY_STORE (snd r) = KEY_STORE svc
  /\ enable_simulated_decrypt (snd r) = enable_simulated_decrypt svc
  /\ match fst r with
     | Reply _ =>
         exists metadata k,
           audit_log (snd r) = audit_log svc ++ [Event name metadata]
           /\ hd_error metadata = Some (u "key_id", JStr k)
           /\ (exists eng, engine svc = Some eng /\ _key_id eng = Some k)
     | HTTPException status d =>
         (status = 400
          /\ exists e, d = Str e
               /\ audit_log (snd r) = audit_log svc ++ [Warning message e])
         \/ (status = 403 /\ d = DecryptDisabled /\ name = u "decrypt"
             /\ enable_simulated_decrypt svc = false /\ snd r = svc)
     | Uncaught e => snd r = svc /\ e = EngineNotInitialized
                     /\ engine svc = None
     | NotFollowed => False
     end.

(** A Python string in which no high surrogate is directly followed by
    a low surrogate: the strings that a JSON document carries
    faithfully.  (Code points are below [0x110000]; the decoder joins an
    escaped high surrogate and the escaped low surrogate after it into
    one code point.) *)
Fixpoint pair_free (t : text) : bool :=
  match t with
  | [] => true
  | c :: r =>
      (c <? 1114112)
      && match r with
         | d :: _ => negb (is_high_surrogate c && is_low_surrogate d)
         | [] => true
         end
      && pair_free r
  end.

(** What follows a lone high surrogate: not the escape of a low
    surrogate. *)
Definition no_low_escape (r : text) : Prop :=
  forall b v g3 g2 g1 g0 r',
    r = b :: v :: g3 :: g2 :: g1 :: g0 :: r' -> b = 92 -> v = 117 ->
    exists c2, hex4 g3 g2 g1 g0 = Some c2 /\ is_low_surrogate c2 = false.

(** A Base64 digit, of the standard or of the URL-safe alphabet. *)
Definition is_b64_digit (c : N) : bool :=
  match b64_value c with Some _ => true | None => false end.

(** The number of Base64 digits in a text. *)
Definition b64_digits (t : text) : nat := length (filter is_b64_digit t).

(** No pad character in a text. *)
Definition pad_free (t : text) : bool :=
  forallb (fun c => negb (c =? b64_pad)) t.

(** The tokens that a request carries. *)
Definition tokens (req : request) : list text :=
  match req with
  | PostEncrypt _ _ _ => []
  | PostDecrypt ciphertext | PostPolynomial ciphertext _ _
  | PostMean ciphertext _ | PostLinear ciphertext _ _ _ => [ciphertext]
  | PostAdd a b _ | PostMul a b _ | PostDot a b _ => [a; b]
  end.

(** A token that the embedding reads as Python does: it is refused, or
    it gives a ciphertext of the declared types from a document of
    moderate nesting. *)
Definition followed (token : text) : Prop :=
  deserialize token <> Raise OutsideModel.

(** [traced], for the requests that the embedding follows. *)
Definition traced_if_followed (name message : text) (svc : Service) {A}
           (r : response A * Service) : Prop :=
  fst r <> NotFollowed -> traced name message svc r.

(* ================================================================= *)
(** * Properties *)

(** [lia] is to see through division and remainder. *)
Ltac Zify.zify_post_hook ::= Z.to_euclidean_division_equations.

(** ** Basic facts *)

Lemma text_eqb_eq (a b : text) : text_eqb a b = true <-> a = b.
Proof.
  revert b; induction a as [|x a IH]; intros [|y b]; simpl;
    try (split; [discriminate | discriminate]); try tauto.
  rewrite andb_true_iff, N.eqb_eq, IH.
  split; [intros [-> ->]; reflexivity | intros H; inversion H; auto].
Qed.

Lemma text_eqb_refl (a : text) : text_eqb a a = true.
Proof. apply text_eqb_eq; reflexivity. Qed.

Lemma text_eqb_neq (a b : text) : a <> b -> text_eqb a b = false.
Proof.
  intros H; destruct (text_eqb a b) eqn:E; [|reflexivity].
  apply text_eqb_eq in E; contradiction.
Qed.

Lemma generate_keys_generated self store kid public secret :
  kid <> [] ->
  keys_generated (fst (fst (generate_keys self store kid public secret)))
  = true.
Proof. destruct kid; [congruence | reflexivity]. Qed.

Lemma keys_generated_inv self :
  keys_generated self = true ->
  exists p s c k, _public_key self = Some p /\ _secret_key self = Some s
                  /\ _key_id self = Some (c :: k).
Proof.
  unfold keys_generated.
  destruct (_public_key self) as [p|]; [|discriminate].
  destruct (_secret_key self) as [s|]; [|discriminate].
  destruct (_key_id self) as [[|c k]|]; try discriminate.
  intros _; exists p, s, c, k; auto.
Qed.

(** What [_coerce_ciphertext] returns has passed validation. *)
Lemma coerce_valid self x c :
  _coerce_ciphertext self x = Ok c -> _validate_ciphertext self c = Ok tt.
Proof.
  assert (K : forall r : result Ciphertext,
             (coerced <- r ;; _ <- _validate_ciphertext self coerced ;;
              Ok coerced) = Ok c ->
             _validate_ciphertext self c = Ok tt).
  { intros [c'|e]; simpl; [|discriminate].
    destruct (_validate_ciphertext self c') as [[]|] eqn:V; simpl;
      [|discriminate].
    intros H; inversion H; subst; exact V. }
  destruct x as [[|n t]|c0]; apply K.
Qed.

Lemma validate_inv self c :
  _validate_ciphertext self c = Ok tt ->
  _key_id self = Some (key_id c) /\ payload c <> [].
Proof.
  unfold _validate_ciphertext.
  destruct (_key_id self) as [k|]; [|discriminate].
  destruct (text_eqb (key_id c) k) eqn:E; simpl; [|discriminate].
  apply text_eqb_eq in E; subst k.
  destruct (payload c); [discriminate|].
  intros _; split; [reflexivity | discriminate].
Qed.

Lemma resolves_coerce self x c :
  resolves x c ->
  _coerce_ciphertext self x
  = (_ <- _validate_ciphertext self c ;; Ok c).
Proof.
  unfold resolves, _coerce_ciphertext.
  destruct x as [[|n t]|c'].
  - intros [H _]; congruence.
  - intros [_ ->]; reflexivity.
  - intros ->; reflexivity.
Qed.

(** ** The operators on ciphertexts that passed validation *)

Lemma self_key_id_generated self :
  keys_generated self = true ->
  exists k, self_key_id self = Ok k /\ _key_id self = Some k.
Proof.
  intros G; destruct (keys_generated_inv self G) as (p & s & c & k & _ & _ & K).
  exists (c :: k); unfold self_key_id; rewrite K; auto.
Qed.

Lemma np_add_length xs ys :
  length xs = length ys -> length (np_add xs ys) = length xs.
Proof.
  revert ys; induction xs as [|x xs IH]; intros [|y ys]; simpl;
    try discriminate; auto.
Qed.

Lemma np_multiply_length xs ys :
  length xs = length ys -> length (np_multiply xs ys) = length xs.
Proof.
  revert ys; induction xs as [|x xs IH]; intros [|y ys]; simpl;
    try discriminate; auto.
Qed.

Lemma np_add_nth xs ys i :
  length xs = length ys -> (i < length xs)%nat ->
  nth i (np_add xs ys) zero = (nth i xs zero + nth i ys zero)%float.
Proof.
  revert ys i; induction xs as [|x xs IH]; intros [|y ys] i; simpl;
    try discriminate; try lia.
  intros L Hi; destruct i as [|i]; [reflexivity|].
  apply IH; [congruence | lia].
Qed.

Lemma np_multiply_nth xs ys i :
  length xs = length ys -> (i < length xs)%nat ->
  nth i (np_multiply xs ys) zero = (nth i xs zero * nth i ys zero)%float.
Proof.
  revert ys i; induction xs as [|x xs IH]; intros [|y ys] i; simpl;
    try discriminate; try lia.
  intros L Hi; destruct i as [|i]; [reflexivity|].
  apply IH; [congruence | lia].
Qed.

(** C4. For valid ciphertexts [a] and [b] of one length, [add] returns a
    ciphertext whose noise is exactly [(na + nb) / 2] and whose payload is
    the elementwise sum, and [mul] one whose noise is exactly
    [na + nb + 1.0] and whose payload is the elementwise product. *)
Theorem noise_algebra self x y a b now :
  keys_generated self = true ->
  _coerce_ciphertext self x = Ok a ->
  _coerce_ciphertext self y = Ok b ->
  length (payload a) = length (payload b) ->
  (exists s,
      add self x y now = Ok s
      /\ noise s = ((noise a + noise b) / 2)%float
      /\ length (payload s) = length (payload a)
      /\ forall i, (i < length (payload a))%nat ->
           nth i (payload s) zero
           = (nth i (payload a) zero + nth i (payload b) zero)%float)
  /\ (exists p,
         mul self x y now = Ok p
         /\ noise p = (noise a + noise b + 1)%float
         /\ length (payload p) = length (payload a)
         /\ forall i, (i < length (payload a))%nat ->
              nth i (payload p) zero
              = (nth i (payload a) zero * nth i (payload b) zero)%float).
Proof.
  intros G Ha Hb L.
  destruct (self_key_id_generated self G) as (k & K & _).
  assert (E : (length (payload a) =? length (payload b))%nat = true)
    by (apply Nat.eqb_eq; exact L).
  split.
  - eexists; unfold add; rewrite Ha, Hb; simpl; rewrite E, K; simpl.
    split; [reflexivity|]; simpl.
    repeat split; [apply np_add_length; exact L|].
    intros i Hi; apply np_add_nth; assumption.
  - eexists; unfold mul; rewrite Ha, Hb; simpl; rewrite E, K; simpl.
    split; [reflexivity|]; simpl.
    repeat split; [apply np_multiply_length; exact L|].
    intros i Hi; apply np_multiply_nth; assumption.
Qed.

Lemma noise_algebra_witness :
  exists s, add demo_engine (Object (demo_ct [1; 2]%float 0.5%float))
                (Object (demo_ct [3; 4]%float 1.5%float)) zero = Ok s
            /\ noise s = 1%float.
Proof.
  destruct (@noise_algebra demo_engine
              (Object (demo_ct [1; 2]%float 0.5%float))
              (Object (demo_ct [3; 4]%float 1.5%float))
              (demo_ct [1; 2]%float 0.5%float)
              (demo_ct [3; 4]%float 1.5%float) zero
              eq_refl eq_refl eq_refl eq_refl)
    as [(s & A & N & _) _].
  exists s; split; [exact A | rewrite N; reflexivity].
Defined.

(** C5. On valid ciphertexts whose payload lengths differ, [add], [mul]
    and [dot] each fail with [DimensionMismatch]. *)
Theorem dimension_guard self x y a b now :
  _coerce_ciphertext self x = Ok a ->
  _coerce_ciphertext self y = Ok b ->
  length (payload a) <> length (payload b) ->
  add self x y now = Raise DimensionMismatch
  /\ mul self x y now = Raise DimensionMismatch
  /\ dot self x y now = Raise DimensionMismatch.
Proof.
  intros Ha Hb L.
  assert (E : (length (payload a) =? length (payload b))%nat = false)
    by (apply Nat.eqb_neq; exact L).
  unfold add, mul, dot; rewrite Ha, Hb; simpl; rewrite E; simpl; auto.
Qed.

Lemma dimension_guard_witness :
  add demo_engine (Object (demo_ct [1; 2]%float zero))
      (Object (demo_ct [1; 2; 3]%float zero)) zero
  = Raise DimensionMismatch.
Proof.
  apply (@dimension_guard demo_engine
           (Object (demo_ct [1; 2]%float zero))
           (Object (demo_ct [1; 2; 3]%float zero))
           (demo_ct [1; 2]%float zero) (demo_ct [1; 2; 3]%float zero) zero
           eq_refl eq_refl).
  simpl; discriminate.
Defined.

(** ** [polynomial] *)

Lemma horner_loop_fold coeffs x acc :
  horner_loop coeffs x acc
  = fold_left (fun a c => (a * x + c)%float) coeffs acc.
Proof.
  revert acc; induction coeffs as [|c cs IH]; intros acc; simpl; auto.
Qed.

Lemma polynomial_loop_map values coeffs acc :
  polynomial_loop values coeffs acc = acc ++ map (horner coeffs) values.
Proof.
  revert acc; induction values as [|v vs IH]; intros acc; simpl.
  - rewrite app_nil_r; reflexivity.
  - rewrite IH, <- app_assoc; simpl.
    unfold horner at 2; rewrite horner_loop_fold; reflexivity.
Qed.

(** C10. On a valid ciphertext [a] and a non-empty coefficient list,
    [polynomial] returns a ciphertext with a payload of the length of
    [a]'s, whose i-th element is Horner's value at [a.payload[i]], and
    with noise [a.noise + 0.3]; on an empty list it fails with
    [InvalidInput]. *)
Theorem polynomial_horner self x a coeffs now :
  keys_generated self = true ->
  _coerce_ciphertext self x = Ok a ->
  (coeffs <> [] ->
   exists c,
     polynomial self x coeffs now = Ok c
     /\ length (payload c) = length (payload a)
     /\ (forall i, (i < length (payload a))%nat ->
           nth i (payload c) zero = horner coeffs (nth i (payload a) zero))
     /\ noise c = (noise a + 0.3)%float)
  /\ polynomial self x [] now = Raise InvalidInput.
Proof.
  intros G Ha.
  destruct (self_key_id_generated self G) as (k & K & _).
  split; [|unfold polynomial; rewrite Ha; reflexivity].
  intros NE; destruct coeffs as [|c0 cs]; [congruence|].
  eexists; unfold polynomial; rewrite Ha; simpl; rewrite K; simpl.
  split; [reflexivity|]; simpl.
  rewrite polynomial_loop_map; simpl.
  repeat split; [apply length_map|].
  intros i Hi.
  rewrite (nth_indep _ zero (horner (c0 :: cs) zero))
    by (rewrite length_map; exact Hi).
  apply map_nth.
Qed.

Lemma polynomial_horner_witness :
  exists c,
    polynomial demo_engine (Object (demo_ct [2]%float zero))
               [1; 0; 2]%float zero = Ok c
    /\ payload c = [6]%float.
Proof.
  destruct (@polynomial_horner demo_engine (Object (demo_ct [2]%float zero))
              (demo_ct [2]%float zero) [1; 0; 2]%float zero
              eq_refl eq_refl) as [H _].
  destruct H as (c & P & _); [discriminate|].
  exists c; split; [exact P|].
  vm_compute in P; inversion P; reflexivity.
Defined.

(** ** [decrypt] *)

(** [decrypt] looks at the secret key only; the ciphertext's key
    identifier plays no part. *)
Lemma decrypt_spec self c :
  decrypt self c
  = match _secret_key self with
    | None => Raise KeysNotInitialized
    | Some _ => Ok (map (fun v => (v - noise c)%float) (payload c))
    end.
Proof. reflexivity. Qed.

(** C6, the half that holds: without secret material [decrypt] fails
    with [KeysNotInitialized]. *)
Lemma decrypt_without_secret self c :
  _secret_key self = None -> decrypt self c = Raise KeysNotInitialized.
Proof. intros H; unfold decrypt; rewrite H; reflexivity. Qed.

(** C6. A ciphertext bound to another key than the active one is
    decrypted all the same: the engine whose active key is
    [00112233aabbccdd] decrypts a ciphertext of key [ffffffffffffffff],
    which every arithmetic operator rejects with [KeyMismatch]. *)
Theorem decrypt_accepts_foreign_key :
  let foreign := mkCiphertext (u "ffffffffffffffff") [3.5]%float 1.5 zero in
  _key_id demo_engine <> Some (key_id foreign)
  /\ decrypt demo_engine foreign = Ok [2]%float
  /\ scalar_mul demo_engine (Object foreign) 1 zero = Raise KeyMismatch.
Proof.
  simpl; split; [discriminate|]; split; reflexivity.
Qed.

(** ** The validation gate *)

Lemma validate_no_key self c :
  _key_id self = None ->
  _validate_ciphertext self c = Raise KeysNotInitialized.
Proof. intros K; unfold _validate_ciphertext; rewrite K; reflexivity. Qed.

Lemma validate_key_mismatch self c k :
  _key_id self = Some k -> key_id c <> k ->
  _validate_ciphertext self c = Raise KeyMismatch.
Proof.
  intros K D; unfold _validate_ciphertext; rewrite K.
  rewrite (text_eqb_neq _ _ D); reflexivity.
Qed.

Lemma validate_empty self c k :
  _key_id self = Some k -> key_id c = k -> payload c = [] ->
  _validate_ciphertext self c = Raise InvalidCiphertext.
Proof.
  intros K E P; unfold _validate_ciphertext; rewrite K, E, text_eqb_refl, P.
  reflexivity.
Qed.

Lemma validate_ok self c k :
  _key_id self = Some k -> key_id c = k -> payload c <> [] ->
  _validate_ciphertext self c = Ok tt.
Proof.
  intros K E P; unfold _validate_ciphertext; rewrite K, E, text_eqb_refl.
  destruct (payload c); [congruence | reflexivity].
Qed.

(** An operator stops at the first operand that fails to coerce. *)
Lemma unary_stops self call x e :
  _coerce_ciphertext self x = Raise e -> run_unary self call x = Raise e.
Proof.
  intros H; destruct call; simpl;
    unfold scalar_mul, polynomial, mean, linear_model; rewrite H; reflexivity.
Qed.

Lemma binary_stops_first self call x y e :
  _coerce_ciphertext self x = Raise e -> run_binary self call x y = Raise e.
Proof.
  intros H; destruct call; simpl; unfold add, mul, dot; rewrite H;
    reflexivity.
Qed.

Lemma binary_stops_second self call x y a e :
  _coerce_ciphertext self x = Ok a ->
  _coerce_ciphertext self y = Raise e -> run_binary self call x y = Raise e.
Proof.
  intros Ha H; destruct call; simpl; unfold add, mul, dot; rewrite Ha, H;
    reflexivity.
Qed.

Lemma coerce_raise self x c e :
  resolves x c -> _validate_ciphertext self c = Raise e ->
  _coerce_ciphertext self x = Raise e.
Proof. intros R V; rewrite (resolves_coerce self _ _ R), V; reflexivity. Qed.

Lemma coerce_ok self x c :
  resolves x c -> _validate_ciphertext self c = Ok tt ->
  _coerce_ciphertext self x = Ok c.
Proof. intros R V; rewrite (resolves_coerce self _ _ R), V; reflexivity. Qed.

Lemma unary_ok_inv self call x r :
  run_unary self call x = Ok r ->
  exists c, _coerce_ciphertext self x = Ok c.
Proof.
  destruct (_coerce_ciphertext self x) as [c|e] eqn:E; [eauto|].
  rewrite (unary_stops self call x _ E); discriminate.
Qed.

Lemma binary_ok_inv self call x y r :
  run_binary self call x y = Ok r ->
  exists a b, _coerce_ciphertext self x = Ok a
              /\ _coerce_ciphertext self y = Ok b.
Proof.
  destruct (_coerce_ciphertext self x) as [a|e] eqn:Ea.
  - destruct (_coerce_ciphertext self y) as [b|e] eqn:Eb; [eauto|].
    rewrite (binary_stops_second self call x y _ _ Ea Eb); discriminate.
  - rewrite (binary_stops_first self call x y _ Ea); discriminate.
Qed.

(** The checks are taken in order, and the first failure is the one
    reported: an operand with an empty payload and a foreign key fails
    with [KeyMismatch], the earlier check; and when the first operand has
    the active key and an empty payload, [add] fails on it before the
    foreign key of the second operand is looked at. *)
Lemma validation_order_matters :
  let hollow_foreign := mkCiphertext (u "ffffffffffffffff") [] zero zero in
  let hollow := demo_ct [] zero in
  let foreign := mkCiphertext (u "ffffffffffffffff") [1]%float zero zero in
  payload hollow_foreign = []
  /\ scalar_mul demo_engine (Object hollow_foreign) 2 zero
     <> Raise InvalidCiphertext
  /\ _key_id demo_engine <> Some (key_id foreign)
  /\ add demo_engine (Object hollow) (Object foreign) zero
     <> Raise KeyMismatch.
Proof.
  simpl; repeat split; try discriminate.
Qed.

(** C3. Every operator validates its ciphertext operands, the
    first before the second, and each by the three checks in order: no
    key generated ([KeysNotInitialized]), a key identifier other than the
    active one ([KeyMismatch]), an empty payload ([InvalidCiphertext]).
    The operator fails with the error of the first check that fails, and
    returns a ciphertext only when every operand passed every check. *)
Theorem validation_gate self ucall bcall x y cx cy :
  resolves x cx -> resolves y cy ->
  (* one operand *)
  (_key_id self = None ->
   run_unary self ucall x = Raise KeysNotInitialized)
  /\ (forall k, _key_id self = Some k -> key_id cx <> k ->
        run_unary self ucall x = Raise KeyMismatch)
  /\ (forall k, _key_id self = Some k -> key_id cx = k -> payload cx = [] ->
        run_unary self ucall x = Raise InvalidCiphertext)
  /\ (forall r, run_unary self ucall x = Ok r ->
        _validate_ciphertext self cx = Ok tt)
  (* two operands *)
  /\ (_key_id self = None ->
      run_binary self bcall x y = Raise KeysNotInitialized)
  /\ (forall k, _key_id self = Some k -> key_id cx <> k ->
        run_binary self bcall x y = Raise KeyMismatch)
  /\ (forall k, _key_id self = Some k -> key_id cx = k -> payload cx = [] ->
        run_binary self bcall x y = Raise InvalidCiphertext)
  /\ (forall k, _key_id self = Some k -> key_id cx = k -> payload cx <> [] ->
        key_id cy <> k ->
        run_binary self bcall x y = Raise KeyMismatch)
  /\ (forall k, _key_id self = Some k -> key_id cx = k -> payload cx <> [] ->
        key_id cy = k -> payload cy = [] ->
        run_binary self bcall x y = Raise InvalidCiphertext)
  /\ (forall r, run_binary self bcall x y = Ok r ->
        _validate_ciphertext self cx = Ok tt
        /\ _validate_ciphertext self cy = Ok tt).
Proof.
  intros Rx Ry.
  repeat match goal with |- _ /\ _ => split end.
  - intros K; apply unary_stops, (coerce_raise self _ _ _ Rx), validate_no_key, K.
  - intros k K D; apply unary_stops, (coerce_raise self _ _ _ Rx).
    exact (validate_key_mismatch self cx k K D).
  - intros k K E P; apply unary_stops, (coerce_raise self _ _ _ Rx).
    exact (validate_empty self cx k K E P).
  - intros r H; destruct (unary_ok_inv self ucall x r H) as (c & C).
    pose proof (coerce_valid self x c C) as V.
    rewrite (resolves_coerce self _ _ Rx) in C.
    destruct (_validate_ciphertext self cx) as [[]|]; [reflexivity|].
    discriminate C.
  - intros K; apply binary_stops_first, (coerce_raise self _ _ _ Rx),
      validate_no_key, K.
  - intros k K D; apply binary_stops_first, (coerce_raise self _ _ _ Rx).
    exact (validate_key_mismatch self cx k K D).
  - intros k K E P; apply binary_stops_first, (coerce_raise self _ _ _ Rx).
    exact (validate_empty self cx k K E P).
  - intros k K E P D.
    apply (binary_stops_second self bcall x y cx).
    + apply (coerce_ok self _ _ Rx), (validate_ok self cx k K E P).
    + apply (coerce_raise self _ _ _ Ry), (validate_key_mismatch self cy k K D).
  - intros k K E P E' P'.
    apply (binary_stops_second self bcall x y cx).
    + apply (coerce_ok self _ _ Rx), (validate_ok self cx k K E P).
    + apply (coerce_raise self _ _ _ Ry), (validate_empty self cy k K E' P').
  - intros r H; destruct (binary_ok_inv self bcall x y r H) as (a & b & A & B).
    rewrite (resolves_coerce self _ _ Rx) in A.
    rewrite (resolves_coerce self _ _ Ry) in B.
    destruct (_validate_ciphertext self cx) as [[]|]; [|discriminate A].
    destruct (_validate_ciphertext self cy) as [[]|]; [|discriminate B].
    auto.
Qed.

Lemma validation_gate_witness :
  add demo_engine (Object (demo_ct [1]%float zero))
      (Object (mkCiphertext (u "ffffffffffffffff") [1]%float zero zero)) zero
  = Raise KeyMismatch.
Proof.
  refine (proj1 (proj2 (proj2 (proj2 (proj2 (proj2 (proj2 (proj2
    (@validation_gate demo_engine (CallMean zero) (CallAdd zero)
       (Object (demo_ct [1]%float zero))
       (Object (mkCiphertext (u "ffffffffffffffff") [1]%float zero zero))
       (demo_ct [1]%float zero)
       (mkCiphertext (u "ffffffffffffffff") [1]%float zero zero)
       eq_refl eq_refl)))))))) (u "00112233aabbccdd") eq_refl eq_refl _ _);
    simpl; discriminate.
Defined.

(** ** The scenario: two encryptions, [add], [decrypt] *)

Lemma below_all n (P : N -> bool) :
  forallb P (below n) = true -> forall d, d < N.of_nat n -> P d = true.
Proof.
  unfold below; intros H d Hd.
  rewrite forallb_forall in H; apply H.
  apply in_map_iff; exists (N.to_nat d); split; [apply N2Nat.id|].
  apply in_seq; lia.
Qed.

Lemma floats_eqb_eq xs ys : floats_eqb xs ys = true <-> xs = ys.
Proof.
  revert ys; induction xs as [|x xs IH]; intros [|y ys]; simpl;
    try (split; discriminate); try tauto.
  rewrite andb_true_iff, Leibniz.eqb_spec, IH.
  split; [intros [-> ->]; reflexivity | intros H; inversion H; auto].
Qed.

Lemma unit_scaled_pow : (unit_scaled = 2 ^ 1074)%Z.
Proof. unfold unit_scaled. rewrite Z.shiftl_mul_pow2 by lia. lia. Qed.

Lemma small_scaled x z : small x = Some z -> (scaled x = z * 2 ^ 1010)%Z.
Proof.
  unfold small, scaled.
  destruct (Prim2SF x) as [s|s| |s m e]; cbn [SFsmall SFscaled];
    try discriminate.
  - intros E; injection E as <-. reflexivity.
  - destruct (Z.leb_spec (-64) e) as [L|L]; [|discriminate].
    intros E; injection E as <-.
    rewrite !Z.shiftl_mul_pow2 by lia.
    replace (e + 1074)%Z with (e + 64 + 1010)%Z by lia.
    rewrite Z.pow_add_r by lia.
    destruct s; cbn [cond_Zopp]; lia.
Qed.

Lemma near_lift s plain sa sb :
  Z.even (sa + sb) = true ->
  (1000000 * Z.abs (s - (plain * 18446744073709551616 + (sa + sb) / 2))
   <=? 18446744073709551616)%Z = true ->
  within_1e6b (s * 2 ^ 1010)
              (plain * unit_scaled + (sa * 2 ^ 1010 + sb * 2 ^ 1010) / 2)
  = true.
Proof.
  intros Ev H. apply Z.leb_le in H.
  apply Z.even_spec in Ev. destruct Ev as (h & Eh).
  unfold within_1e6b. apply Z.leb_le.
  rewrite unit_scaled_pow.
  change 1074%Z with (64 + 1010)%Z. rewrite Z.pow_add_r by lia.
  change (2 ^ 64)%Z with 18446744073709551616%Z.
  assert (K : (0 < 2 ^ 1010)%Z) by (apply Z.pow_pos_nonneg; lia).
  set (k := (2 ^ 1010)%Z) in *. clearbody k.
  replace (sa * k + sb * k)%Z with (h * k * 2)%Z by lia.
  rewrite Z.div_mul by discriminate.
  rewrite Eh in H. rewrite (Z.mul_comm 2 h), Z.div_mul in H by discriminate.
  replace (s * k - (plain * (18446744073709551616 * k) + h * k))%Z
    with ((s - (plain * 18446744073709551616 + h)) * k)%Z by ring.
  rewrite Z.abs_mul, (Z.abs_eq k) by lia.
  rewrite Z.mul_assoc. apply Z.mul_le_mono_nonneg_r; lia.
Qed.

Lemma scenario_check_lift da db :
  scenario_check_small da db = true -> scenario_check da db = true.
Proof.
  unfold scenario_check_small, scenario_check. cbv zeta.
  set (na := noise_of_draw da). set (nb := noise_of_draw db).
  set (o1 := sum_then_decrypt 1 4 da db).
  set (o2 := sum_then_decrypt 2 5 da db).
  set (o3 := sum_then_decrypt 3 6 da db).
  destruct (small na) as [sa|] eqn:Ea; [|discriminate].
  destruct (small nb) as [sb|] eqn:Eb; [|discriminate].
  destruct (small o1) as [s1|] eqn:E1; [|discriminate].
  destruct (small o2) as [s2|] eqn:E2; [|discriminate].
  destruct (small o3) as [s3|] eqn:E3; [|discriminate].
  intros H.
  apply andb_prop in H. destruct H as (H & H4).
  apply andb_prop in H. destruct H as (H & H3).
  apply andb_prop in H. destruct H as (H1 & H2).
  apply andb_prop in H3. destruct H3 as (H3 & N3).
  apply andb_prop in H3. destruct H3 as (N1 & N2).
  apply andb_prop in H2. destruct H2 as (H2 & F3).
  apply andb_prop in H2. destruct H2 as (F1 & F2).
  rewrite (small_scaled _ _ Ea), (small_scaled _ _ Eb).
  cbn [forallb combine].
  rewrite (small_scaled _ _ E1), (small_scaled _ _ E2),
    (small_scaled _ _ E3).
  rewrite F1, F2, F3, H4.
  rewrite (near_lift _ _ _ _ H1 N1), (near_lift _ _ _ _ H1 N2),
    (near_lift _ _ _ _ H1 N3).
  assert (Ev : Z.even (sa * 2 ^ 1010 + sb * 2 ^ 1010) = true).
  { rewrite <- Z.mul_add_distr_r, Z.even_mul, H1. reflexivity. }
  rewrite Ev. reflexivity.
Qed.

Lemma scenario_checked_small :
  forallb (fun da => forallb (scenario_check_small da) (below 100))
          (below 100)
  = true.
Proof. vm_cast_no_check (eq_refl true). Qed.

(** The check of the scenario, for the hundred by hundred draws. *)
Lemma scenario_checked :
  forallb (fun da => forallb (scenario_check da) (below 100)) (below 100)
  = true.
Proof.
  pose proof scenario_checked_small as H.
  rewrite forallb_forall in H |- *. intros da Ha.
  specialize (H da Ha). rewrite forallb_forall in H |- *.
  intros db Hb. apply scenario_check_lift, H, Hb.
Qed.


(** The run of the scenario on any engine with keys, in closed form. *)
Lemma scenario_run self da db ta tb ts :
  keys_generated self = true ->
  exists a b s,
    encrypt self [1; 2; 3]%float da ta = Ok a
    /\ encrypt self [4; 5; 6]%float db tb = Ok b
    /\ add self (Object a) (Object b) ts = Ok s
    /\ noise a = noise_of_draw da /\ noise b = noise_of_draw db
    /\ decrypt self s
       = Ok [sum_then_decrypt 1 4 da db; sum_then_decrypt 2 5 da db;
             sum_then_decrypt 3 6 da db].
Proof.
  intros G.
  destruct (keys_generated_inv self G) as (p & sk & c & k & P & S & K).
  do 3 eexists.
  unfold encrypt, add, decrypt, self_key_id, _coerce_ciphertext,
    _validate_ciphertext.
  rewrite P, K, S; simpl.
  split; [reflexivity|]; split; [reflexivity|]; simpl.
  rewrite N.eqb_refl, text_eqb_refl; simpl.
  repeat (split; [reflexivity|]); reflexivity.
Qed.

(** C9 as stated fails: with both draws equal to 10 (noise 1.0 on each
    operand) the scenario decrypts to [6, 8, 10]. *)
Lemma scenario_counterexample :
  (a <- encrypt demo_engine [1; 2; 3]%float 10 zero ;;
   b <- encrypt demo_engine [4; 5; 6]%float 10 zero ;;
   s <- add demo_engine (Object a) (Object b) zero ;;
   decrypt demo_engine s) = Ok [6; 8; 10]%float
  /\ [6; 8; 10]%float <> [5; 7; 9]%float.
Proof.
  split; [reflexivity|].
  intros H; apply floats_eqb_eq in H; discriminate H.
Qed.

(** C9, amended. Two encryptions of [1,2,3] and [4,5,6] under one key,
    added and decrypted, give three finite values, each within [1e-6] of
    the plain sum plus the mean of the two noises: [add] sums the two
    noises into the payload and [decrypt] takes their mean off once.  The
    result is exactly [5,7,9] when, and only when, both draws are zero. *)
Theorem scenario_mean_noise_remains self da db ta tb ts :
  keys_generated self = true -> da < 100 -> db < 100 ->
  exists a b s out,
    encrypt self [1; 2; 3]%float da ta = Ok a
    /\ encrypt self [4; 5; 6]%float db tb = Ok b
    /\ add self (Object a) (Object b) ts = Ok s
    /\ decrypt self s = Ok out
    /\ length out = 3%nat
    /\ forallb is_finite out = true
    /\ (exists mean : Z,
          (2 * mean = scaled (noise a) + scaled (noise b))%Z
          /\ within_1e6 (scaled (nth 0 out zero)) (5 * unit_scaled + mean)
          /\ within_1e6 (scaled (nth 1 out zero)) (7 * unit_scaled + mean)
          /\ within_1e6 (scaled (nth 2 out zero)) (9 * unit_scaled + mean))
    /\ (out = [5; 7; 9]%float <-> da = 0 /\ db = 0).
Proof.
  intros G Ha Hb.
  destruct (scenario_run self da db ta tb ts G)
    as (a & b & s & A & B & S & Na & Nb & D).
  exists a, b, s; eexists.
  repeat (split; [eassumption|]).
  pose proof (below_all 100
                (fun da => forallb (scenario_check da) (below 100))
                scenario_checked da Ha) as C; cbv beta in C.
  pose proof (below_all 100 _ C db Hb) as C'; clear C.
  unfold scenario_check in C'.
  rewrite !andb_true_iff in C'.
  destruct C' as [[[Ev Fin] W] Ex].
  split; [reflexivity|]. split; [exact Fin|].
  rewrite Na, Nb. split.
  - exists ((scaled (noise_of_draw da) + scaled (noise_of_draw db)) / 2)%Z.
    cbn [forallb combine] in W.
    rewrite !andb_true_iff in W. unfold within_1e6b in W.
    rewrite !Z.leb_le in W. unfold within_1e6; cbn [nth].
    apply Z.even_spec in Ev. destruct Ev as [h Ev]. rewrite Ev in *.
    rewrite (Z.mul_comm 2 h), Z.div_mul in * by discriminate.
    split; [apply Z.mul_comm | tauto].
  - apply eqb_prop in Ex.
    rewrite <- floats_eqb_eq.
    rewrite Ex, andb_true_iff, !N.eqb_eq. tauto.
Qed.

Lemma scenario_mean_noise_remains_witness :
  exists a b s out,
    encrypt demo_engine [1; 2; 3]%float 3 zero = Ok a
    /\ encrypt demo_engine [4; 5; 6]%float 7 zero = Ok b
    /\ add demo_engine (Object a) (Object b) zero = Ok s
    /\ decrypt demo_engine s = Ok out
    /\ length out = 3%nat.
Proof.
  destruct (scenario_mean_noise_remains demo_engine 3 7 zero zero zero
              eq_refl eq_refl eq_refl)
    as (a & b & s & out & A & B & S & D & L & _).
  exists a, b, s, out; repeat split; assumption.
Defined.

(** ** UTF-8 on ASCII text *)

Lemma utf8_encode_ascii t : is_ascii t -> utf8_encode t = Some t.
Proof.
  induction 1 as [|c t Hc _ IH]; simpl; [reflexivity|].
  unfold utf8_encode_char.
  apply N.ltb_lt in Hc; rewrite Hc; simpl; rewrite IH; reflexivity.
Qed.

Lemma utf8_decode_ascii t : is_ascii t -> utf8_decode t = Some t.
Proof.
  induction 1 as [|c t Hc _ IH]; simpl; [reflexivity|].
  apply N.ltb_lt in Hc; rewrite Hc, IH; reflexivity.
Qed.

(** ** Base64 *)

Ltac decide_cmp :=
  match goal with
  | |- context [?a <? ?b] =>
      first [ replace (a <? b) with true by (symmetry; apply N.ltb_lt; lia)
            | replace (a <? b) with false by (symmetry; apply N.ltb_ge; lia)
            | destruct (N.ltb_spec a b) ]
  | |- context [?a <=? ?b] =>
      first [ replace (a <=? b) with true by (symmetry; apply N.leb_le; lia)
            | replace (a <=? b) with false by (symmetry; apply N.leb_gt; lia)
            | destruct (N.leb_spec a b) ]
  | |- context [?a =? ?b] =>
      first [ replace (a =? b) with true by (symmetry; apply N.eqb_eq; lia)
            | replace (a =? b) with false by (symmetry; apply N.eqb_neq; lia)
            | destruct (N.eqb_spec a b) ]
  end; cbn [andb orb negb].

Ltac cases_N := repeat decide_cmp.

Lemma b64_value_char v :
  v < 64 -> b64_value (b64_char v) = Some v /\ b64_char v <> b64_pad
            /\ b64_char v < 128.
Proof.
  intros H; unfold b64_char, b64_pad.
  destruct (N.ltb_spec v 26); [|destruct (N.ltb_spec v 52);
    [|destruct (N.ltb_spec v 62); [|destruct (N.eqb_spec v 62)]]];
    unfold b64_value, in_range; cases_N;
    repeat split; try (f_equal; lia); try lia; try discriminate.
Qed.

Lemma b64_step a b c tail :
  a < 256 -> b < 256 -> c < 256 ->
  a2b_base64 (b64_char (a / 4) :: b64_char ((a mod 4) * 16 + b / 16)
                :: b64_char ((b mod 16) * 4 + c / 64) :: b64_char (c mod 64)
                :: tail) 0 0 0
  = obind (a2b_base64 tail 0 0 0) (fun out => Some (a :: b :: c :: out)).
Proof.
  intros Ha Hb Hc.
  assert (V0 : a / 4 < 64) by lia.
  assert (V1 : (a mod 4) * 16 + b / 16 < 64) by lia.
  assert (V2 : (b mod 16) * 4 + c / 64 < 64) by lia.
  assert (V3 : c mod 64 < 64) by lia.
  destruct (b64_value_char _ V0) as (E0 & P0 & _).
  destruct (b64_value_char _ V1) as (E1 & P1 & _).
  destruct (b64_value_char _ V2) as (E2 & P2 & _).
  destruct (b64_value_char _ V3) as (E3 & P3 & _).
  apply N.eqb_neq in P0, P1, P2, P3.
  cbn [a2b_base64]. rewrite P0, E0. cbn [N.eqb].
  rewrite P1, E1. cbn [N.eqb Pos.eqb]. rewrite P2, E2. cbn [N.eqb Pos.eqb].
  rewrite P3, E3. cbn [N.eqb Pos.eqb].
  destruct (a2b_base64 tail 0 0 0) as [out|]; simpl; [|reflexivity].
  f_equal. f_equal; [lia|]. f_equal; [lia|]. f_equal. lia.
Qed.

Lemma b64_roundtrip_bounded n :
  forall bs, (length bs <= n)%nat -> Forall (fun b => b < 256) bs ->
             b64decode (b64encode bs) = Some bs.
Proof.
  unfold b64decode.
  induction n as [|n IH]; intros bs L B.
  - destruct bs; [reflexivity | simpl in L; lia].
  - destruct bs as [|a [|b [|c rest]]]; [reflexivity| | |].
    + (* one octet: two characters and two pads *)
      inversion B as [|? ? Ha _]; subst.
      assert (V0 : a / 4 < 64) by lia.
      assert (V1 : (a mod 4) * 16 < 64) by lia.
      destruct (b64_value_char _ V0) as (E0 & P0 & _).
      destruct (b64_value_char _ V1) as (E1 & P1 & _).
      apply N.eqb_neq in P0, P1.
      cbn [b64encode a2b_base64]. rewrite P0, E0. cbn [N.eqb].
      rewrite P1, E1. cbn [N.eqb Pos.eqb]. unfold b64_pad; simpl.
      f_equal; f_equal; lia.
    + (* two octets: three characters and one pad *)
      inversion B as [|? ? Ha B']; subst.
      inversion B' as [|? ? Hb _]; subst.
      assert (V0 : a / 4 < 64) by lia.
      assert (V1 : (a mod 4) * 16 + b / 16 < 64) by lia.
      assert (V2 : (b mod 16) * 4 < 64) by lia.
      destruct (b64_value_char _ V0) as (E0 & P0 & _).
      destruct (b64_value_char _ V1) as (E1 & P1 & _).
      destruct (b64_value_char _ V2) as (E2 & P2 & _).
      apply N.eqb_neq in P0, P1, P2.
      cbn [b64encode a2b_base64]. rewrite P0, E0. cbn [N.eqb].
      rewrite P1, E1. cbn [N.eqb Pos.eqb]. rewrite P2, E2.
      cbn [N.eqb Pos.eqb]. unfold b64_pad; simpl.
      f_equal; f_equal; [lia|]. f_equal; lia.
    + inversion B as [|? ? Ha B']; subst.
      inversion B' as [|? ? Hb B'']; subst.
      inversion B'' as [|? ? Hc B3]; subst.
      cbn [b64encode]. rewrite b64_step by assumption.
      rewrite IH; [reflexivity | simpl in L; lia | assumption].
Qed.

Lemma b64_roundtrip bs :
  Forall (fun b => b < 256) bs -> b64decode (b64encode bs) = Some bs.
Proof. apply (b64_roundtrip_bounded (length bs)); lia. Qed.

Lemma b64encode_ascii_bounded n :
  forall bs, (length bs <= n)%nat -> Forall (fun b => b < 256) bs ->
             is_ascii (b64encode bs).
Proof.
  assert (C : forall v, v < 64 -> b64_char v < 128)
    by (intros v Hv; apply (b64_value_char v Hv)).
  induction n as [|n IH]; intros bs L B.
  - destruct bs; [constructor | simpl in L; lia].
  - destruct bs as [|a [|b [|c rest]]]; [constructor| | |];
      inversion B as [|? ? Ha B']; subst.
    + repeat constructor; try (apply C; lia); unfold b64_pad; lia.
    + inversion B' as [|? ? Hb _]; subst.
      repeat constructor; try (apply C; lia); unfold b64_pad; lia.
    + inversion B' as [|? ? Hb B'']; subst.
      inversion B'' as [|? ? Hc B3]; subst.
      cbn [b64encode]. repeat (constructor; [apply C; lia|]).
      apply IH; [simpl in L; lia | assumption].
Qed.

Lemma b64encode_ascii bs :
  Forall (fun b => b < 256) bs -> is_ascii (b64encode bs).
Proof. apply (b64encode_ascii_bounded (length bs)); lia. Qed.

Lemma is_ascii_octets t : is_ascii t -> Forall (fun b => b < 256) t.
Proof. apply Forall_impl; intros; lia. Qed.

Lemma is_ascii_app a b : is_ascii a -> is_ascii b -> is_ascii (a ++ b).
Proof. intros; apply Forall_app; auto. Qed.

(** ** JSON strings *)

Lemma hex_value_char d :
  d < 16 -> hex_value (hex_char d) = Some d /\ hex_char d < 128.
Proof.
  intros H; unfold hex_char.
  destruct (N.ltb_spec d 10); unfold hex_value, in_range; cases_N;
    split; try (f_equal; lia); lia.
Qed.

Lemma hex4_escape c :
  c < 65536 ->
  hex4 (hex_char (c / 4096)) (hex_char ((c / 256) mod 16))
       (hex_char ((c / 16) mod 16)) (hex_char (c mod 16)) = Some c.
Proof.
  intros H; unfold hex4.
  rewrite (proj1 (hex_value_char (c / 4096) ltac:(lia))).
  rewrite (proj1 (hex_value_char ((c / 256) mod 16) ltac:(lia))).
  rewrite (proj1 (hex_value_char ((c / 16) mod 16) ltac:(lia))).
  rewrite (proj1 (hex_value_char (c mod 16) ltac:(lia))).
  simpl; f_equal; lia.
Qed.

Lemma escape_u_ascii c : c < 65536 -> is_ascii (escape_u c).
Proof.
  intros H; unfold escape_u.
  repeat constructor; try lia; apply hex_value_char; lia.
Qed.

Lemma scanstring_plain c r :
  c <> 34 -> c <> 92 -> 32 <= c ->
  scanstring (c :: r) = push c (scanstring r).
Proof.
  intros; cbn [scanstring]; cases_N; reflexivity.
Qed.

Lemma scanstring_short_escape e c r :
  e <> 117 -> unescape e = Some c ->
  scanstring (92 :: e :: r) = push c (scanstring r).
Proof.
  intros H U; cbn [scanstring]; cases_N; rewrite U; reflexivity.
Qed.

Lemma scanstring_long_escape h3 h2 h1 h0 r :
  scanstring (92 :: 117 :: h3 :: h2 :: h1 :: h0 :: r)
  = obind (hex4 h3 h2 h1 h0) (fun c =>
      match r with
      | b :: v :: g3 :: g2 :: g1 :: g0 :: r' =>
          if is_high_surrogate c && (b =? 92) && (v =? 117)
          then
            obind (hex4 g3 g2 g1 g0) (fun c2 =>
              if is_low_surrogate c2 then
                push (65536 + (c - 55296) * 1024 + (c2 - 56320))
                     (scanstring r')
              else push c (scanstring r))
          else push c (scanstring r)
      | _ => push c (scanstring r)
      end).
Proof. reflexivity. Qed.

Lemma scanstring_escape_u c r :
  c < 65536 -> is_high_surrogate c = false ->
  scanstring (escape_u c ++ r) = push c (scanstring r).
Proof.
  intros H S; unfold escape_u; cbn [app].
  rewrite scanstring_long_escape, hex4_escape by assumption; cbn [obind].
  rewrite S.
  destruct r as [|b [|v [|g3 [|g2 [|g1 [|g0 r'']]]]]]; reflexivity.
Qed.

Lemma scanstring_escape_pair c r :
  65536 <= c -> c < 1114112 ->
  scanstring (escape_u (55296 + (c - 65536) / 1024)
                ++ escape_u (56320 + (c - 65536) mod 1024) ++ r)
  = push c (scanstring r).
Proof.
  intros L H.
  pose proof (N.div_mod' (c - 65536) 1024) as D.
  pose proof (N.mod_lt (c - 65536) 1024 ltac:(discriminate)) as M.
  assert (Q : (c - 65536) / 1024 < 1024)
    by (apply N.Div0.div_lt_upper_bound; lia).
  set (q := (c - 65536) / 1024) in *.
  set (m := (c - 65536) mod 1024) in *.
  clearbody q m.
  assert (Hhi : 55296 + q < 65536) by lia.
  assert (Hlo : 56320 + m < 65536) by lia.
  unfold escape_u at 1; cbn [app].
  rewrite scanstring_long_escape, hex4_escape by assumption; cbn [obind].
  unfold escape_u; cbn [app]. cbv beta iota.
  replace (is_high_surrogate (55296 + q)) with true
    by (symmetry; unfold is_high_surrogate, in_range; cases_N; reflexivity).
  rewrite !N.eqb_refl; cbn [andb].
  rewrite hex4_escape by assumption; cbn [obind].
  replace (is_low_surrogate (56320 + m)) with true
    by (symmetry; unfold is_low_surrogate, in_range; cases_N; reflexivity).
  f_equal; lia.
Qed.

Lemma scanstring_escape_char c r :
  is_scalar c = true ->
  scanstring (escape_char c ++ r) = push c (scanstring r).
Proof.
  unfold is_scalar, is_surrogate; intros S.
  apply andb_true_iff in S; destruct S as [S1 S2].
  apply N.ltb_lt in S1. apply negb_true_iff, andb_false_iff in S2.
  assert (S3 : c < 55296 \/ 57343 < c)
    by (destruct S2 as [S2|S2];
        [apply N.leb_gt in S2 | apply N.leb_gt in S2]; lia).
  clear S2. unfold escape_char.
  destruct (N.eqb_spec c 34) as [->|]; [reflexivity|].
  destruct (N.eqb_spec c 92) as [->|]; [reflexivity|].
  destruct (N.eqb_spec c 10) as [->|]; [reflexivity|].
  destruct (N.eqb_spec c 13) as [->|]; [reflexivity|].
  destruct (N.eqb_spec c 9) as [->|]; [reflexivity|].
  destruct (N.eqb_spec c 8) as [->|]; [reflexivity|].
  destruct (N.eqb_spec c 12) as [->|]; [reflexivity|].
  unfold in_range.
  destruct (N.leb_spec 32 c); cbn [andb].
  - destruct (N.leb_spec c 126).
    + apply scanstring_plain; assumption.
    + destruct (N.ltb_spec c 65536).
      * apply scanstring_escape_u; [assumption|].
        unfold is_high_surrogate, in_range; cases_N; reflexivity.
      * rewrite <- app_assoc; apply scanstring_escape_pair; assumption.
  - destruct (N.ltb_spec c 65536); [|lia].
    apply scanstring_escape_u; [assumption|].
    unfold is_high_surrogate, in_range; cases_N; reflexivity.
Qed.

Lemma scanstring_roundtrip s rest :
  wf_text s = true ->
  scanstring (flat_map escape_char s ++ 34 :: rest) = Some (s, rest).
Proof.
  unfold wf_text; induction s as [|c s IH]; intros W; simpl in W.
  - reflexivity.
  - apply andb_true_iff in W; destruct W as [Wc Ws].
    cbn [flat_map]; rewrite <- app_assoc.
    rewrite scanstring_escape_char by assumption.
    rewrite IH by assumption; reflexivity.
Qed.

Lemma escape_char_ascii c : is_scalar c = true -> is_ascii (escape_char c).
Proof.
  unfold is_scalar; intros S.
  apply andb_true_iff in S; destruct S as [S1 _]; apply N.ltb_lt in S1.
  unfold escape_char, in_range.
  repeat match goal with
         | |- context [if ?a =? ?b then _ else _] =>
             destruct (N.eqb_spec a b); [repeat constructor; lia|]
         end.
  destruct (N.leb_spec 32 c); cbn [andb].
  - destruct (N.leb_spec c 126); [repeat constructor; lia|].
    destruct (N.ltb_spec c 65536); [apply escape_u_ascii; assumption|].
    apply is_ascii_app; apply escape_u_ascii; lia.
  - destruct (N.ltb_spec c 65536); [|lia].
    apply escape_u_ascii; assumption.
Qed.

Lemma encode_string_ascii s : wf_text s = true -> is_ascii (encode_string s).
Proof.
  unfold wf_text, encode_string; intros W.
  constructor; [lia|]. apply is_ascii_app; [|repeat constructor; lia].
  induction s as [|c s IH]; simpl in *; [constructor|].
  apply andb_true_iff in W; destruct W as [Wc Ws].
  apply is_ascii_app; [apply escape_char_ascii; assumption | auto].
Qed.

(** The same for every Python string without a surrogate pair. *)

Lemma wf_text_pair_free s : wf_text s = true -> pair_free s = true.
Proof.
  unfold wf_text. induction s as [|c s IH]; [reflexivity|].
  cbn [forallb pair_free]. intros W.
  apply andb_true_iff in W. destruct W as (Wc & Ws).
  rewrite (IH Ws), andb_true_r.
  unfold is_scalar, is_surrogate in Wc.
  apply andb_true_iff in Wc. destruct Wc as (W1 & W2).
  rewrite W1. cbn [andb]. destruct s as [|d s']; [reflexivity|].
  apply negb_true_iff, andb_false_iff. left.
  apply negb_true_iff in W2. unfold is_high_surrogate, in_range.
  apply andb_false_iff in W2. destruct W2 as [W2|W2].
  - rewrite W2. reflexivity.
  - apply N.leb_gt in W2. apply andb_false_iff. right.
    apply N.leb_gt. lia.
Qed.


Lemma scanstring_lone_high c r :
  c < 65536 -> no_low_escape r ->
  scanstring (escape_u c ++ r) = push c (scanstring r).
Proof.
  intros H NL. unfold escape_u. cbn [app].
  rewrite scanstring_long_escape, hex4_escape by assumption. cbn [obind].
  destruct r as [|b [|v [|g3 [|g2 [|g1 [|g0 r']]]]]]; try reflexivity.
  destruct (is_high_surrogate c); cbn [andb]; [|reflexivity].
  destruct (N.eqb_spec b 92) as [Eb|]; cbn [andb]; [|reflexivity].
  destruct (N.eqb_spec v 117) as [Ev|]; [|reflexivity].
  destruct (NL b v g3 g2 g1 g0 r' eq_refl Eb Ev) as (c2 & E2 & L2).
  rewrite E2. cbn [obind]. rewrite L2. reflexivity.
Qed.

Lemma no_low_escape_quote rest : no_low_escape (34 :: rest).
Proof. intros b v g3 g2 g1 g0 r' E Eb. injection E as <-. discriminate. Qed.

Lemma no_low_escape_u d tail :
  d < 65536 -> is_low_surrogate d = false ->
  no_low_escape (escape_u d ++ tail).
Proof.
  intros H L b v g3 g2 g1 g0 r' E _ _. unfold escape_u in E. cbn [app] in E.
  injection E as <- <- <- <- <- <- _.
  exists d. split; [apply hex4_escape; exact H|exact L].
Qed.

Lemma no_low_escape_char d tail :
  d < 1114112 -> is_low_surrogate d = false ->
  no_low_escape (escape_char d ++ tail).
Proof.
  intros H L. unfold escape_char.
  repeat match goal with
         | |- context [if ?a =? ?b then _ else _] =>
             destruct (N.eqb_spec a b);
             [intros b' v g3 g2 g1 g0 r' E Eb Ev; cbn [app] in E;
              injection E as <- <-; discriminate|]
         end.
  unfold in_range.
  destruct (N.leb_spec 32 d); cbn [andb].
  - destruct (N.leb_spec d 126).
    + intros b' v g3 g2 g1 g0 r' E Eb Ev. cbn [app] in E.
      injection E as <-. congruence.
    + destruct (N.ltb_spec d 65536); [apply no_low_escape_u; assumption|].
      rewrite <- app_assoc. apply no_low_escape_u; [lia|].
      unfold is_low_surrogate, in_range.
      pose proof (N.div_mod' (d - 65536) 1024).
      pose proof (N.mod_lt (d - 65536) 1024 ltac:(discriminate)).
      assert ((d - 65536) / 1024 < 1024)
        by (apply N.Div0.div_lt_upper_bound; lia).
      set (q := (d - 65536) / 1024) in *. clearbody q.
      apply andb_false_iff. left. apply N.leb_gt. lia.
  - destruct (N.ltb_spec d 65536); [|lia].
    apply no_low_escape_u; assumption.
Qed.

Lemma scanstring_escape_any c r :
  c < 1114112 -> (is_high_surrogate c = true -> no_low_escape r) ->
  scanstring (escape_char c ++ r) = push c (scanstring r).
Proof.
  intros H NL.
  destruct (is_scalar c) eqn:Sc; [apply scanstring_escape_char; exact Sc|].
  (* a surrogate *)
  unfold is_scalar, is_surrogate in Sc.
  replace (c <? 1114112) with true in Sc by (symmetry; apply N.ltb_lt; lia).
  cbn [andb] in Sc. apply negb_false_iff, andb_true_iff in Sc.
  destruct Sc as (S1 & S2). apply N.leb_le in S1, S2.
  assert (E : escape_char c = escape_u c).
  { unfold escape_char, in_range. cases_N. reflexivity. }
  rewrite E.
  destruct (is_high_surrogate c) eqn:Hh.
  - apply scanstring_lone_high; [lia|apply NL; reflexivity].
  - apply scanstring_escape_u; [lia|exact Hh].
Qed.

Lemma scanstring_roundtrip_any s rest :
  pair_free s = true ->
  scanstring (flat_map escape_char s ++ 34 :: rest) = Some (s, rest).
Proof.
  induction s as [|c s IH]; intros W; [reflexivity|].
  cbn [pair_free] in W.
  apply andb_true_iff in W. destruct W as (W & Ws).
  apply andb_true_iff in W. destruct W as (Wc & Wn).
  apply N.ltb_lt in Wc.
  cbn [flat_map]. rewrite <- app_assoc.
  rewrite scanstring_escape_any; [rewrite (IH Ws); reflexivity|exact Wc|].
  intros Hh. destruct s as [|d s']; [apply no_low_escape_quote|].
  cbn [flat_map]. rewrite <- app_assoc.
  rewrite Hh in Wn. cbn [andb] in Wn. apply negb_true_iff in Wn.
  cbn [pair_free] in Ws.
  apply andb_true_iff in Ws. destruct Ws as (Wd & _).
  apply andb_true_iff in Wd. destruct Wd as (Wd & _).
  apply N.ltb_lt in Wd.
  apply no_low_escape_char; assumption.
Qed.

Lemma escape_char_ascii_any c : c < 1114112 -> is_ascii (escape_char c).
Proof.
  intros S1. unfold escape_char, in_range.
  repeat match goal with
         | |- context [if ?a =? ?b then _ else _] =>
             destruct (N.eqb_spec a b); [repeat constructor; lia|]
         end.
  destruct (N.leb_spec 32 c); cbn [andb].
  - destruct (N.leb_spec c 126); [repeat constructor; lia|].
    destruct (N.ltb_spec c 65536); [apply escape_u_ascii; assumption|].
    apply is_ascii_app; apply escape_u_ascii; lia.
  - destruct (N.ltb_spec c 65536); [|lia].
    apply escape_u_ascii; assumption.
Qed.

Lemma encode_string_ascii_any s :
  pair_free s = true -> is_ascii (encode_string s).
Proof.
  unfold encode_string; intros W.
  constructor; [lia|]. apply is_ascii_app; [|repeat constructor; lia].
  induction s as [|c s IH]; [constructor|].
  cbn [pair_free] in W.
  apply andb_true_iff in W. destruct W as (W & Ws).
  apply andb_true_iff in W. destruct W as (Wc & _).
  apply N.ltb_lt in Wc. cbn [flat_map].
  apply is_ascii_app; [apply escape_char_ascii_any; exact Wc | auto].
Qed.

(** ** Binary64 rounding: the exact case *)

Local Open Scope Z_scope.

Lemma digits2_pos_bounds p :
  2 ^ (Zpos (digits2_pos p) - 1) <= Zpos p < 2 ^ Zpos (digits2_pos p).
Proof.
  induction p as [p IH|p IH|]; cbn [digits2_pos].
  - rewrite Pos2Z.inj_succ, (Pos2Z.inj_xI p).
    replace (Z.succ (Zpos (digits2_pos p)) - 1)
      with (Z.succ (Zpos (digits2_pos p) - 1)) by lia.
    rewrite !Z.pow_succ_r by lia. lia.
  - rewrite Pos2Z.inj_succ, (Pos2Z.inj_xO p).
    replace (Z.succ (Zpos (digits2_pos p)) - 1)
      with (Z.succ (Zpos (digits2_pos p) - 1)) by lia.
    rewrite !Z.pow_succ_r by lia. lia.
  - simpl; lia.
Qed.

Lemma Zdigits2_log2 p : Zdigits2 (Zpos p) = Z.log2 (Zpos p) + 1.
Proof.
  cbn [Zdigits2]. pose proof (digits2_pos_bounds p) as B.
  assert (Z.log2 (Zpos p) = Zpos (digits2_pos p) - 1); [|lia].
  apply Z.log2_unique; [lia|].
  replace (Z.succ (Zpos (digits2_pos p) - 1)) with (Zpos (digits2_pos p))
    by lia.
  exact B.
Qed.

Lemma Zdigits2_log2_pos n : 0 < n -> Zdigits2 n = Z.log2 n + 1.
Proof. destruct n; try lia; intros _; apply Zdigits2_log2. Qed.

Lemma Zdigits2_shift p j :
  0 <= j -> Zdigits2 (Zpos p * 2 ^ j) = Zdigits2 (Zpos p) + j.
Proof.
  intros J.
  assert (P : 0 < Zpos p * 2 ^ j) by (apply Z.mul_pos_pos; [|apply Z.pow_pos_nonneg]; lia).
  destruct (Zpos p * 2 ^ j) as [|q|q] eqn:E; try lia.
  rewrite !Zdigits2_log2, <- E, Z.log2_mul_pow2 by lia. lia.
Qed.

Lemma iter_pos_nat {A} (f : A -> A) p x :
  iter_pos f p x = Nat.iter (Pos.to_nat p) f x.
Proof.
  revert x; induction p as [p IH|p IH|]; intros x; cbn [iter_pos].
  - rewrite !IH, Pos2Nat.inj_xI.
    replace (S (2 * Pos.to_nat p)) with (Pos.to_nat p + Pos.to_nat p + 1)%nat
      by lia.
    rewrite !Nat.iter_add; reflexivity.
  - rewrite !IH, Pos2Nat.inj_xO.
    replace (2 * Pos.to_nat p)%nat with (Pos.to_nat p + Pos.to_nat p)%nat
      by lia.
    rewrite Nat.iter_add; reflexivity.
  - reflexivity.
Qed.

(** Shifting out zeros loses nothing. *)
Lemma shr_1_even k :
  shr_1 (Build_shr_record (Zpos k~0) false false)
  = Build_shr_record (Zpos k) false false.
Proof. reflexivity. Qed.

Lemma shr_zeros n m :
  Nat.iter n shr_1 (Build_shr_record (Zpos m * 2 ^ Z.of_nat n) false false)
  = Build_shr_record (Zpos m) false false.
Proof.
  induction n as [|n IH].
  - simpl; f_equal; lia.
  - rewrite Nat.iter_succ_r.
    assert (P : 0 < Zpos m * 2 ^ Z.of_nat n)
      by (apply Z.mul_pos_pos; [|apply Z.pow_pos_nonneg]; lia).
    destruct (Zpos m * 2 ^ Z.of_nat n) as [|q|q] eqn:E; try lia.
    replace (Zpos m * 2 ^ Z.of_nat (S n)) with (Zpos q~0)
      by (rewrite Nat2Z.inj_succ, Z.pow_succ_r, (Pos2Z.inj_xO q) by lia; lia).
    rewrite shr_1_even. exact IH.
Qed.

Lemma bounded_inv m e :
  bounded prec emax m e = true ->
  fexp prec emax (Zdigits2 (Zpos m) + e) = e /\ e <= 971
  /\ -1074 <= e /\ Zdigits2 (Zpos m) <= 53.
Proof.
  unfold bounded, canonical_mantissa; intros B.
  apply andb_true_iff in B; destruct B as [C E].
  apply Z.eqb_eq in C; apply Z.leb_le in E.
  cbn [Zdigits2]. split; [exact C|].
  unfold fexp, SpecFloat.emin, prec, emax in *. lia.
Qed.

(** Rounding a mantissa that carries a binary64 number shifted left by
    [j] places gives that number. *)
Lemma binary_round_aux_exact s m e j :
  bounded prec emax m e = true -> 0 <= j ->
  binary_round_aux prec emax s (Zpos m * 2 ^ j) (e - j) loc_Exact
  = S754_finite s m e.
Proof.
  intros B J. destruct (bounded_inv m e B) as (C & E1 & E2 & D).
  unfold binary_round_aux.
  assert (Sh : shr_fexp prec emax (Zpos m * 2 ^ j) (e - j) loc_Exact
               = (Build_shr_record (Zpos m) false false, e)).
  { unfold shr_fexp. rewrite Zdigits2_shift by assumption.
    replace (Zdigits2 (Zpos m) + j + (e - j)) with (Zdigits2 (Zpos m) + e)
      by lia.
    rewrite C. replace (e - (e - j)) with j by lia.
    cbn [shr_record_of_loc]. unfold shr.
    destruct j as [|p|p]; [|..|lia].
    - f_equal; [f_equal; simpl; lia | lia].
    - rewrite iter_pos_nat.
      replace (Zpos p) with (Z.of_nat (Pos.to_nat p)) at 1
        by apply positive_nat_Z.
      rewrite shr_zeros. f_equal. lia. }
  rewrite Sh. cbn [shr_m loc_of_shr_record round_nearest_even].
  assert (Sh' : shr_fexp prec emax (Zpos m) e loc_Exact
                = (Build_shr_record (Zpos m) false false, e)).
  { unfold shr_fexp. rewrite C, Z.sub_diag. reflexivity. }
  rewrite Sh'. cbn [shr_m].
  replace (e <=? emax - prec) with true
    by (symmetry; apply Z.leb_le; unfold emax, prec; lia).
  reflexivity.
Qed.

Lemma fexp_mono a b : a <= b -> fexp prec emax a <= fexp prec emax b.
Proof. unfold fexp, SpecFloat.emin, prec, emax; lia. Qed.

Lemma div_eucl_exact q b : 0 < b -> Z.div_eucl (q * b) b = (q, 0).
Proof.
  intros H.
  pose proof (Z.div_mul q b ltac:(lia)) as D.
  pose proof (Z.mod_mul q b ltac:(lia)) as M.
  unfold Z.div, Z.modulo in D, M.
  destruct (Z.div_eucl (q * b) b) as [x y]; simpl in *; congruence.
Qed.

Lemma new_location_zero n : new_location n 0 = loc_Exact.
Proof.
  unfold new_location, new_location_even, new_location_odd.
  destruct (Z.even n); reflexivity.
Qed.

Lemma pow_pos_pos a b : 0 < a -> 0 <= b -> 0 < a ^ b.
Proof. intros; apply Z.pow_pos_nonneg; assumption. Qed.

(** A binary64 number with a negative exponent, written exactly as
    [m * 5^k] times [10^-k], is read back as itself. *)
Lemma dec_to_SF_exact_neg s m k :
  bounded prec emax m (Zneg k) = true ->
  dec_to_SF s (m * 5 ^ k) (Zneg k) = S754_finite s m (Zneg k).
Proof.
  intros B. destruct (bounded_inv m _ B) as (C & _ & E2 & D).
  set (K := Zpos k) in *.
  assert (HK : 0 < K <= 1074) by (unfold K; lia).
  replace (Zneg k) with (- K) in * by reflexivity.
  assert (HM : Zpos (m * 5 ^ k) = Zpos m * 5 ^ K)
    by (rewrite Pos2Z.inj_mul, Pos2Z.inj_pow; reflexivity).
  pose proof (digits2_pos_bounds m) as Bm.
  change (Zpos (digits2_pos m)) with (Zdigits2 (Zpos m)) in Bm.
  set (dm := Zdigits2 (Zpos m)) in *.
  assert (Hdm : 1 <= dm) by (unfold dm; cbn [Zdigits2]; lia).
  pose proof (pow_pos_pos 5 K ltac:(lia) ltac:(lia)) as P5.
  pose proof (pow_pos_pos 2 K ltac:(lia) ltac:(lia)) as P2.
  assert (H10 : 10 ^ K = 2 ^ K * 5 ^ K)
    by (rewrite <- Z.pow_mul_l; reflexivity).
  assert (L45 : 2 ^ (2 * K) <= 5 ^ K).
  { rewrite Z.pow_mul_r by lia. apply Z.pow_le_mono_l; simpl; lia. }
  assert (L58 : 5 ^ K < 2 ^ (3 * K)).
  { rewrite Z.pow_mul_r by lia. apply Z.pow_lt_mono_l; simpl; lia. }
  (* the size of the decimal mantissa *)
  set (b := Z.log2 (Zpos m * 5 ^ K)).
  assert (Pm : 0 < Zpos m * 5 ^ K) by lia.
  assert (Hb1 : b < dm + 3 * K).
  { apply Z.log2_lt_pow2; [exact Pm|].
    rewrite Z.pow_add_r by lia.
    apply Z.mul_lt_mono_nonneg; lia. }
  assert (Hb2 : dm - 1 + 2 * K <= b).
  { apply Z.log2_le_pow2; [exact Pm|].
    rewrite Z.pow_add_r by lia.
    apply Z.mul_le_mono_nonneg; lia. }
  unfold dec_to_SF. rewrite HM. fold b.
  replace (0 <=? - K) with false by (symmetry; apply Z.leb_gt; lia).
  replace (b + 1 + 3 * - K <=? -1076) with false
    by (symmetry; apply Z.leb_gt; lia).
  rewrite andb_false_r. cbn [andb].
  cbv beta iota. change (Z.neg k) with (- K). cbv beta iota.
  replace (- K) with (Zneg k) by reflexivity. cbv beta iota.
  change (Zpos k) with K.
  (* the quotient *)
  assert (P10 : 0 < 10 ^ K) by lia.
  pose proof (Zdigits2_log2_pos (10 ^ K) P10) as D2.
  set (d2 := Z.log2 (10 ^ K) + 1) in *.
  assert (D1 : Zdigits2 (Zpos m * 5 ^ K) = b + 1)
    by (apply Zdigits2_log2_pos; exact Pm).
  assert (Hd2 : 10 ^ K < 2 ^ d2).
  { unfold d2. apply Z.log2_spec. lia. }
  assert (Hd1 : 2 ^ b <= Zpos m * 5 ^ K)
    by (apply Z.log2_spec; exact Pm).
  assert (Hrel : b + 1 - d2 <= dm - K).
  { assert (0 <= b) by (apply Z.log2_nonneg).
    assert (0 <= d2) by (unfold d2; pose proof (Z.log2_nonneg (10 ^ K)); lia).
    assert (X : 2 ^ (b + K) < 2 ^ (dm + d2)).
    { rewrite !Z.pow_add_r by lia.
      pose proof (pow_pos_pos 2 dm ltac:(lia) ltac:(lia)).
      pose proof (pow_pos_pos 2 b ltac:(lia) ltac:(lia)).
      rewrite H10 in Hd2. nia. }
    apply Z.pow_lt_mono_r_iff in X; lia. }
  unfold SFdiv_core_binary.
  rewrite D1, D2.
  replace (b + 1 + 0 - (d2 + 0)) with (b + 1 - d2) by lia.
  set (g := fexp prec emax (b + 1 - d2)).
  assert (Hg : g <= - K).
  { unfold g. rewrite <- C. apply fexp_mono. lia. }
  replace (Z.min g (0 - 0)) with g by lia.
  destruct (0 - 0 - g) as [|sh|sh] eqn:Es; try lia.
  rewrite <- Es. clear sh Es.
  rewrite Z.shiftl_mul_pow2 by lia.
  replace (Zpos m * 5 ^ K * 2 ^ (0 - 0 - g))
    with ((Zpos m * 2 ^ (- K - g)) * 10 ^ K).
  2:{ rewrite H10.
      replace (0 - 0 - g) with ((- K - g) + K) by lia.
      rewrite Z.pow_add_r by lia. ring. }
  rewrite div_eucl_exact by exact P10.
  rewrite new_location_zero.
  replace g with (- K - (- K - g)) at 2 by lia.
  apply binary_round_aux_exact; [exact B | lia].
Qed.

(** The same for an exponent that is not negative: the number is an
    integer, written as such. *)
Lemma dec_to_SF_exact_nonneg s m e :
  bounded prec emax m e = true -> 0 <= e ->
  dec_to_SF s (Z.to_pos (Zpos m * 2 ^ e)) 0 = S754_finite s m e.
Proof.
  intros B E. destruct (bounded_inv m _ B) as (C & E1 & E2 & D).
  assert (P : 0 < Zpos m * 2 ^ e)
    by (apply Z.mul_pos_pos; [lia | apply pow_pos_pos; lia]).
  assert (HM : Zpos (Z.to_pos (Zpos m * 2 ^ e)) = Zpos m * 2 ^ e)
    by (apply Z2Pos.id; exact P).
  assert (Hd : Zdigits2 (Zpos m * 2 ^ e) = Zdigits2 (Zpos m) + e)
    by (apply Zdigits2_shift; exact E).
  assert (Hb : Z.log2 (Zpos m * 2 ^ e) = Zdigits2 (Zpos m) + e - 1).
  { rewrite <- Hd, <- HM, Zdigits2_log2; lia. }
  unfold dec_to_SF. rewrite HM, Hb.
  replace (1025 <=? Zdigits2 (Zpos m) + e - 1 + 3 * 0) with false
    by (symmetry; apply Z.leb_gt; lia).
  change (0 <? 0) with false. cbn [andb Z.leb Z.compare].
  cbv beta iota.
  change (Z.to_pos (10 ^ 0)) with 1%positive. rewrite Pos.mul_1_r.
  unfold binary_round.
  change (Zpos (digits2_pos (Z.to_pos (Zpos m * 2 ^ e))))
    with (Zdigits2 (Zpos (Z.to_pos (Zpos m * 2 ^ e)))).
  rewrite HM, Hd, Z.add_0_r, C.
  unfold shl_align.
  destruct (e - 0) as [|q|q] eqn:Eq; try lia;
    rewrite HM; replace 0 with (e - e) at 1 by lia;
    apply binary_round_aux_exact; assumption.
Qed.

Local Close Scope Z_scope.

(** ** Floats as JSON values *)

Lemma span_app (p : N -> bool) a rest :
  forallb p a = true ->
  match rest with [] => True | c :: _ => p c = false end ->
  span p (a ++ rest) = (a, rest).
Proof.
  intros A R; induction a as [|c a IH]; simpl in *.
  - destruct rest as [|d rest]; [reflexivity|]. simpl; rewrite R; reflexivity.
  - apply andb_true_iff in A; destruct A as [Pc A].
    rewrite Pc, IH by assumption; reflexivity.
Qed.

Lemma is_num_char_spec c :
  is_num_char c = true ->
  (48 <= c <= 57) \/ c = 43 \/ c = 45 \/ c = 46 \/ c = 69 \/ c = 101.
Proof.
  unfold is_num_char, is_digit, in_range.
  rewrite !orb_true_iff, andb_true_iff, !N.eqb_eq, !N.leb_le; tauto.
Qed.

Lemma is_num_char_ascii t : forallb is_num_char t = true -> is_ascii t.
Proof.
  intros H; apply Forall_forall; intros c Hc.
  rewrite forallb_forall in H.
  destruct (is_num_char_spec c (H c Hc)) as [?|[?|[?|[?|[?|?]]]]]; lia.
Qed.

Lemma SF_eqb_eq x y : SF_eqb x y = true -> x = y.
Proof.
  destruct x, y; simpl; try discriminate; try reflexivity.
  - intros H; apply eqb_prop in H; congruence.
  - intros H; apply eqb_prop in H; congruence.
  - rewrite !andb_true_iff, Pos.eqb_eq, Z.eqb_eq.
    intros [[H ?] ?]; apply eqb_prop in H; congruence.
Qed.


(** ** Decimal digits *)

Lemma uint_text_digits d : forallb is_digit (uint_text d) = true.
Proof. induction d; simpl; auto. Qed.

Lemma text_uint_text d : text_uint (uint_text d) = Some d.
Proof. induction d; simpl; try rewrite IHd; reflexivity. Qed.

Lemma text_nat_text n : text_nat (nat_text n) = Some n.
Proof.
  unfold text_nat, nat_text; rewrite text_uint_text; simpl.
  rewrite DecimalN.Unsigned.of_to; reflexivity.
Qed.

Lemma pos_to_uint_head p : forall d, Pos.to_uint p <> Decimal.D0 d.
Proof.
  intros d E.
  assert (U : Decimal.unorm (Pos.to_uint p) = Pos.to_uint p).
  { rewrite <- DecimalPos.Unsigned.to_of, DecimalPos.Unsigned.of_to.
    reflexivity. }
  rewrite E in U. unfold Decimal.unorm in U. cbn [Decimal.nzhead] in U.
  destruct (Decimal.nzhead d) eqn:Z;
    try (apply (DecimalFacts.nzhead_nonzero d d); congruence).
  inversion U; subst d.
  apply (DecimalPos.Unsigned.to_uint_nonzero p); exact E.
Qed.

Lemma nat_text_pos p :
  exists c t, nat_text (Npos p) = c :: t /\ c <> 48 /\ is_digit c = true.
Proof.
  unfold nat_text; cbn [N.to_uint].
  pose proof (pos_to_uint_head p) as H.
  pose proof (DecimalPos.Unsigned.to_uint_nonnil p) as NN.
  destruct (Pos.to_uint p) as [|d|d|d|d|d|d|d|d|d|d]; cbn [uint_text];
    try congruence;
    try (eexists; eexists; split; [reflexivity|]; split;
         [discriminate | reflexivity]).
Qed.

Lemma is_digit_num_char t :
  forallb is_digit t = true -> forallb is_num_char t = true.
Proof.
  intros H; rewrite forallb_forall in *; intros c Hc.
  unfold is_num_char; rewrite (H c Hc); reflexivity.
Qed.

(** A token made of a sign, an integer part and an exponent. *)
Lemma number_of_token_exponent neg ip sg x xs :
  forallb is_digit ip = true -> int_part_ok ip = true ->
  forallb is_digit (x :: xs) = true ->
  number_of_token (sign_text neg ++ ip ++ 101 :: sign_text sg
                     ++ x :: xs)
  = obind (text_nat ip) (fun M =>
    obind (text_nat (x :: xs)) (fun n =>
      Some (NumFloat (dec_to_float neg M
                        ((if sg then - Z.of_N n else Z.of_N n) - 0)%Z)))).
Proof.
  intros Dip Okip Dxs.
  assert (Hx : is_digit x = true)
    by (simpl in Dxs; apply andb_true_iff in Dxs; tauto).
  assert (Rx : 48 <= x <= 57)
    by (unfold is_digit, in_range in Hx; apply andb_true_iff in Hx;
        rewrite !N.leb_le in Hx; exact Hx).
  set (tail := 101 :: sign_text sg ++ x :: xs).
  assert (Body : forall body, body = ip ++ tail ->
            (let '(ipart, r1) := span is_digit body in
             if negb (int_part_ok ipart) then None else
             let '(frac, r2) :=
               match r1 with
               | c :: r =>
                   if c =? 46
                   then let '(f, r') := span is_digit r in (Some f, r')
                   else (None, r1)
               | [] => (None, r1)
               end in
             let '(ex, r3) :=
               match r2 with
               | c :: r =>
                   if (c =? 69) || (c =? 101) then
                     let '(sg, r') :=
                       match r with
                       | d :: t => if d =? 43 then (false, t)
                                   else if d =? 45 then (true, t)
                                   else (false, r)
                       | [] => (false, r)
                       end in
                     let '(x, r'') := span is_digit r' in (Some (sg, x), r'')
                   else (None, r2)
               | [] => (None, r2)
               end in
             match r3, frac, ex with
             | _ :: _, _, _ => None
             | [], Some [], _ => None
             | [], _, Some (_, []) => None
             | [], None, None =>
                 if (max_str_digits <? length ipart)%nat then None else
                 obind (text_nat ipart) (fun n =>
                   Some (NumInt (if neg then - Z.of_N n else Z.of_N n)%Z))
             | [], _, _ =>
                 let f := match frac with Some f => f | None => [] end in
                 let e := match ex with
                          | Some (sg, x) =>
                              obind (text_nat x) (fun n =>
                                Some (if sg then - Z.of_N n else Z.of_N n)%Z)
                          | None => Some 0%Z
                          end in
                 obind (text_nat (ipart ++ f)) (fun M =>
                 obind e (fun E =>
                   Some (NumFloat
                           (dec_to_float neg M
                              (E - Z.of_nat (length f))%Z))))
             end)
            = obind (text_nat ip) (fun M =>
              obind (text_nat (x :: xs)) (fun n =>
                Some (NumFloat (dec_to_float neg M
                        ((if sg then - Z.of_N n else Z.of_N n) - 0)%Z))))).
  { intros body ->.
    rewrite (span_app is_digit ip tail Dip) by reflexivity.
    rewrite Okip. cbn [negb]. unfold tail. cbv beta iota.
    change (101 =? 46) with false. cbv beta iota.
    change ((101 =? 69) || (101 =? 101)) with true. cbv beta iota.
    assert (Sp : span is_digit (x :: xs) = (x :: xs, []))
      by (rewrite <- (app_nil_r (x :: xs)) at 1;
          apply span_app; [exact Dxs | exact I]).
    destruct sg; cbn [sign_text app].
    - change (45 =? 43) with false. change (45 =? 45) with true.
      cbv beta iota. rewrite Sp. cbv beta iota. rewrite app_nil_r.
      destruct (text_nat ip); [|reflexivity]. cbn [obind].
      destruct (text_nat (x :: xs)); reflexivity.
    - replace (x =? 43) with false by (symmetry; apply N.eqb_neq; lia).
      replace (x =? 45) with false by (symmetry; apply N.eqb_neq; lia).
      cbv beta iota. rewrite Sp. cbv beta iota. rewrite app_nil_r.
      destruct (text_nat ip); [|reflexivity]. cbn [obind].
      destruct (text_nat (x :: xs)); reflexivity. }
  unfold number_of_token.
  destruct neg; cbn [sign_text app].
  - rewrite N.eqb_refl. apply Body; reflexivity.
  - destruct ip as [|c ip']; [discriminate Okip|].
    assert (Hc : is_digit c = true)
      by (simpl in Dip; apply andb_true_iff in Dip; tauto).
    assert (Rc : 48 <= c <= 57)
      by (unfold is_digit, in_range in Hc; apply andb_true_iff in Hc;
          rewrite !N.leb_le in Hc; exact Hc).
    cbn [app].
    replace (c =? 45) with false by (symmetry; apply N.eqb_neq; lia).
    apply Body; reflexivity.
Qed.

Lemma SF_eqb_refl x : SF_eqb x x = true.
Proof.
  destruct x; simpl; try reflexivity; try apply eqb_reflx.
  rewrite eqb_reflx, Pos.eqb_refl, Z.eqb_refl; reflexivity.
Qed.

Lemma forallb_app' (p : N -> bool) a b :
  forallb p a = true -> forallb p b = true -> forallb p (a ++ b) = true.
Proof. intros A B; rewrite forallb_app, A, B; reflexivity. Qed.

Lemma sign_text_num s : forallb is_num_char (sign_text s) = true.
Proof. destruct s; reflexivity. Qed.

(** The exact decimal text of a binary64 number reads back as it. *)
Lemma exact_text_reads_back s m e :
  bounded prec emax m e = true ->
  reads_back s m e (sign_text s ++ exact_text m e) = true.
Proof.
  intros B. unfold reads_back.
  assert (V : valid_binary (S754_finite s m e) = true) by exact B.
  destruct e as [|e|k].
  - (* exponent zero *)
    unfold exact_text.
    assert (P : (0 < Zpos m * 2 ^ 0)%Z) by (simpl; lia).
    destruct (Zpos m * 2 ^ 0)%Z as [|q|q] eqn:E; try lia.
    cbn [Z.to_N].
    destruct (nat_text_pos q) as (c & t & T & C0 & Cd).
    pose proof (uint_text_digits (N.to_uint (Npos q))) as Dg.
    fold (nat_text (Npos q)) in Dg.
    apply andb_true_iff; split.
    + apply forallb_app'; [apply sign_text_num|].
      apply forallb_app'; [apply is_digit_num_char; exact Dg | reflexivity].
    + change (u "e0") with (101 :: sign_text false ++ [48]).
      rewrite number_of_token_exponent;
        [| exact Dg
         | rewrite T; destruct t; [reflexivity|];
           cbn [int_part_ok]; apply negb_true_iff, N.eqb_neq; exact C0
         | reflexivity].
      rewrite text_nat_text. cbn [obind].
      change (text_nat [48]) with (Some 0). cbn [obind].
      change (Z.of_N 0 - 0)%Z with 0%Z.
      unfold dec_to_float.
      replace q with (Z.to_pos (Zpos m * 2 ^ 0)) by (rewrite E; reflexivity).
      rewrite dec_to_SF_exact_nonneg by (assumption || lia).
      rewrite Prim2SF_SF2Prim by exact V. apply SF_eqb_refl.
  - (* positive exponent *)
    unfold exact_text.
    assert (P : (0 < Zpos m * 2 ^ Zpos e)%Z)
      by (apply Z.mul_pos_pos; [lia | apply pow_pos_pos; lia]).
    destruct (Zpos m * 2 ^ Zpos e)%Z as [|q|q] eqn:E; try lia.
    cbn [Z.to_N].
    destruct (nat_text_pos q) as (c & t & T & C0 & Cd).
    pose proof (uint_text_digits (N.to_uint (Npos q))) as Dg.
    fold (nat_text (Npos q)) in Dg.
    apply andb_true_iff; split.
    + apply forallb_app'; [apply sign_text_num|].
      apply forallb_app'; [apply is_digit_num_char; exact Dg | reflexivity].
    + change (u "e0") with (101 :: sign_text false ++ [48]).
      rewrite number_of_token_exponent;
        [| exact Dg
         | rewrite T; destruct t; [reflexivity|];
           cbn [int_part_ok]; apply negb_true_iff, N.eqb_neq; exact C0
         | reflexivity].
      rewrite text_nat_text. cbn [obind].
      change (text_nat [48]) with (Some 0). cbn [obind].
      change (Z.of_N 0 - 0)%Z with 0%Z.
      unfold dec_to_float.
      replace q with (Z.to_pos (Zpos m * 2 ^ Zpos e))
        by (rewrite E; reflexivity).
      rewrite dec_to_SF_exact_nonneg by (assumption || lia).
      rewrite Prim2SF_SF2Prim by exact V. apply SF_eqb_refl.
  - (* negative exponent *)
    unfold exact_text.
    destruct (nat_text_pos (m * 5 ^ k)) as (c & t & T & C0 & Cd).
    destruct (nat_text_pos k) as (x & xs & X & _ & _).
    pose proof (uint_text_digits (N.to_uint (Npos (m * 5 ^ k)))) as Dg.
    fold (nat_text (Npos (m * 5 ^ k))) in Dg.
    pose proof (uint_text_digits (N.to_uint (Npos k))) as Dk.
    fold (nat_text (Npos k)) in Dk.
    apply andb_true_iff; split.
    + apply forallb_app'; [apply sign_text_num|].
      apply forallb_app'; [apply is_digit_num_char; exact Dg|].
      apply forallb_app'; [reflexivity|].
      apply is_digit_num_char; exact Dk.
    + change (u "e-" ++ nat_text (Npos k))
        with (101 :: sign_text true ++ nat_text (Npos k)).
      rewrite X in *.
      rewrite number_of_token_exponent;
        [| exact Dg
         | rewrite T; destruct t; [reflexivity|];
           cbn [int_part_ok]; apply negb_true_iff, N.eqb_neq; exact C0
         | exact Dk].
      rewrite text_nat_text. cbn [obind].
      rewrite <- X, text_nat_text. cbn [obind].
      change (- Z.of_N (Npos k) - 0)%Z with (Zneg k).
      unfold dec_to_float.
      rewrite dec_to_SF_exact_neg by assumption.
      rewrite Prim2SF_SF2Prim by exact V. apply SF_eqb_refl.
Qed.

Lemma repr_finite_reads_back s m e :
  bounded prec emax m e = true ->
  reads_back s m e (repr_finite s m e) = true.
Proof.
  intros B; unfold repr_finite.
  destruct (find (reads_back s m e) (candidates s m e)) as [t|] eqn:F.
  - apply find_some in F; tauto.
  - apply exact_text_reads_back; exact B.
Qed.

Lemma strip_prefix_head a p c s :
  a <> c -> strip_prefix (a :: p) (c :: s) = None.
Proof. intros H; simpl; apply N.eqb_neq in H; rewrite H; reflexivity. Qed.

(** A number token in front of a delimiter is scanned as that number. *)
Lemma scan_once_number t y n rest :
  forallb is_num_char t = true ->
  number_of_token t = Some (NumFloat y) ->
  delimited rest ->
  scan_once (S n) (t ++ rest) = Some (JFloat y, rest).
Proof.
  intros A T D.
  destruct t as [|c t]; [discriminate T|].
  pose proof A as A'; simpl in A'.
  apply andb_true_iff in A'; destruct A' as [Pc A'].
  pose proof (is_num_char_spec c Pc) as Sc.
  assert (Atom : scan_atom ((c :: t) ++ rest) = scan_number ((c :: t) ++ rest)).
  { unfold scan_atom; cbn [app].
    change (u "null") with (110 :: u "ull").
    change (u "true") with (116 :: u "rue").
    change (u "false") with (102 :: u "alse").
    change (u "NaN") with (78 :: u "aN").
    change (u "Infinity") with (73 :: u "nfinity").
    rewrite !strip_prefix_head by lia.
    destruct (N.eq_dec c 45) as [->|Nc].
    - change (u "-Infinity") with (45 :: 73 :: u "nfinity").
      destruct t as [|c2 t]; [discriminate T|].
      simpl in A'; apply andb_true_iff in A'; destruct A' as [Pc2 _].
      pose proof (is_num_char_spec c2 Pc2).
      cbn [app strip_prefix]; rewrite N.eqb_refl.
      replace (73 =? c2) with false by (symmetry; apply N.eqb_neq; lia).
      reflexivity.
    - change (u "-Infinity") with (45 :: u "Infinity").
      rewrite strip_prefix_head by congruence; reflexivity. }
  cbn [scan_once].
  change ((c :: t) ++ rest) with (c :: (t ++ rest)) in *.
  cbv beta iota. cases_N. rewrite Atom.
  unfold scan_number.
  change (c :: t ++ rest) with ((c :: t) ++ rest).
  rewrite (span_app is_num_char (c :: t) rest A D), T; reflexivity.
Qed.

Lemma skip_ws_start c t : is_ws c = false -> skip_ws (c :: t) = c :: t.
Proof. intros H; simpl; rewrite H; reflexivity. Qed.

(** Every float is written as a non-empty ASCII text that starts like a
    number or like [Infinity] or [NaN], and that is read back, in front
    of a delimiter, as the same float. *)
Lemma float_repr_scan x :
  exists c t,
    float_repr x = c :: t
    /\ (is_num_char c = true \/ c = 73 \/ c = 78)
    /\ is_ascii (c :: t)
    /\ forall n rest, delimited rest ->
         scan_once (S n) (float_repr x ++ rest) = Some (JFloat x, rest).
Proof.
  unfold float_repr.
  pose proof (SF2Prim_Prim2SF x) as R.
  pose proof (Prim2SF_valid x) as V.
  destruct (Prim2SF x) as [s|s| |s m e] eqn:E.
  - (* zero *)
    destruct s; simpl in R; subst x.
    + exists 45, (u "0.0"); split; [reflexivity|]; split; [auto|].
      split; [repeat constructor; lia|].
      intros n rest D.
      apply (scan_once_number (u "-0.0") neg_zero n rest); auto.
    + exists 48, (u ".0"); split; [reflexivity|]; split; [auto|].
      split; [repeat constructor; lia|].
      intros n rest D.
      apply (scan_once_number (u "0.0") zero n rest); auto.
  - (* infinity *)
    destruct s; simpl in R; subst x.
    + exists 45, (u "Infinity"); split; [reflexivity|]; split; [auto|].
      split; [repeat constructor; lia | reflexivity].
    + exists 73, (u "nfinity"); split; [reflexivity|]; split; [auto|].
      split; [repeat constructor; lia | reflexivity].
  - (* nan *)
    simpl in R; subst x.
    exists 78, (u "aN"); split; [reflexivity|]; split; [auto|].
    split; [repeat constructor; lia | reflexivity].
  - (* finite *)
    pose proof (repr_finite_reads_back s m e V) as RB.
    unfold reads_back in RB.
    apply andb_true_iff in RB; destruct RB as [A T].
    destruct (number_of_token (repr_finite s m e)) as [[z|y]|] eqn:Tok;
      try discriminate T.
    apply SF_eqb_eq in T. rewrite <- E in T. apply Prim2SF_inj in T. subst y.
    destruct (repr_finite s m e) as [|c t] eqn:Rp; [discriminate Tok|].
    exists c, t; split; [reflexivity|].
    pose proof A as A'; simpl in A'.
    apply andb_true_iff in A'; destruct A' as [Pc _].
    split; [left; exact Pc|].
    split; [apply is_num_char_ascii; exact A|].
    intros n rest D; apply scan_once_number; assumption.
Qed.

(** ** JSON documents of the shape [serialize] writes *)

Lemma head_not_ws c :
  is_num_char c = true \/ c = 73 \/ c = 78 -> is_ws c = false.
Proof.
  intros [H|[->| ->]]; [|reflexivity..].
  destruct (is_num_char_spec c H) as [?|[?|[?|[?|[?|?]]]]];
    unfold is_ws; cases_N; reflexivity.
Qed.

Lemma head_not_bracket c :
  is_num_char c = true \/ c = 73 \/ c = 78 -> (c =? 93) = false.
Proof.
  intros [H|[->| ->]]; [|reflexivity..].
  destruct (is_num_char_spec c H) as [?|[?|[?|[?|[?|?]]]]];
    apply N.eqb_neq; lia.
Qed.

Lemma delimited_comma r : delimited (44 :: r).
Proof. reflexivity. Qed.

Lemma delimited_bracket r : delimited (93 :: r).
Proof. reflexivity. Qed.

Lemma delimited_brace r : delimited (125 :: r).
Proof. reflexivity. Qed.

Lemma scan_items_S n s :
  scan_items (S n) s
  = obind (scan_once n s) (fun '(v, r) =>
      match skip_ws r with
      | [] => None
      | d :: r' =>
          if d =? 93 then Some ([v], r')
          else if d =? 44 then
            obind (scan_items n (skip_ws r')) (fun '(vs, r'') =>
              Some (v :: vs, r''))
          else None
      end).
Proof. reflexivity. Qed.

(** The items of a non-empty array of floats. *)
Lemma scan_items_floats fs :
  forall x n rest, (length fs + 2 <= n)%nat ->
    scan_items n (join (u ", ") (map float_repr (x :: fs)) ++ 93 :: rest)
    = Some (map JFloat (x :: fs), rest).
Proof.
  induction fs as [|y fs IH]; intros x n rest L.
  - destruct n as [|[|n]]; try (simpl in L; lia).
    destruct (float_repr_scan x) as (c & t & _ & _ & _ & Sc).
    cbn [map join]. rewrite scan_items_S.
    rewrite (Sc n (93 :: rest) (delimited_bracket rest)).
    reflexivity.
  - destruct n as [|[|n]]; try (simpl in L; lia).
    destruct (float_repr_scan x) as (c & t & _ & _ & _ & Sc).
    destruct (float_repr_scan y) as (d & v & Ry & Hd & _ & _).
    change (join (u ", ") (map float_repr (x :: y :: fs)))
      with (float_repr x ++ u ", "
              ++ join (u ", ") (map float_repr (y :: fs))).
    rewrite <- !app_assoc.
    change (u ", " ++ join (u ", ") (map float_repr (y :: fs)) ++ 93 :: rest)
      with (44 :: 32 :: join (u ", ") (map float_repr (y :: fs))
               ++ 93 :: rest).
    rewrite scan_items_S.
    rewrite (Sc n _ (delimited_comma _)). cbn [obind].
    cbv beta iota. cbn [skip_ws is_ws N.eqb Pos.eqb orb].
    cbv beta iota.
    assert (Sk : skip_ws (join (u ", ") (map float_repr (y :: fs))
                            ++ 93 :: rest)
                 = join (u ", ") (map float_repr (y :: fs)) ++ 93 :: rest).
    { cbn [map]. destruct fs; cbn [join map]; rewrite Ry; cbn [app];
        apply skip_ws_start, head_not_ws, Hd. }
    cbn [skip_ws is_ws N.eqb Pos.eqb orb] in Sk |- *.
    rewrite Sk.
    rewrite (IH y (S n) rest) by (simpl in L |- *; lia).
    reflexivity.
Qed.

Lemma scan_array_floats fs n rest :
  (length fs + 2 <= n)%nat ->
  scan_once (S n) (json_dumps (JArr (map JFloat fs)) ++ rest)
  = Some (JArr (map JFloat fs), rest).
Proof.
  intros L. destruct fs as [|x fs].
  - reflexivity.
  - cbn [json_dumps]. rewrite map_map.
    change (map (fun f => json_dumps (JFloat f)) (x :: fs))
      with (map float_repr (x :: fs)).
    cbn [app]. rewrite <- app_assoc. cbn [app].
    destruct (float_repr_scan x) as (c & t & Rx & Hc & _ & _).
    assert (J : exists t', join (u ", ") (map float_repr (x :: fs)) = c :: t').
    { cbn [map]. destruct fs; cbn [join map]; rewrite Rx; cbn [app];
        eexists; reflexivity. }
    destruct J as (t' & J).
    cbn [scan_once]. cbv beta iota.
    change (91 =? 34) with false. change (91 =? 123) with false.
    change (91 =? 91) with true. cbv beta iota.
    rewrite J. cbn [app].
    rewrite (skip_ws_start c _ (head_not_ws c Hc)).
    rewrite (head_not_bracket c Hc).
    change (c :: t' ++ 93 :: rest) with ((c :: t') ++ 93 :: rest).
    rewrite <- J.
    rewrite scan_items_floats by (simpl in L |- *; lia).
    reflexivity.
Qed.

Lemma scan_members_S n q r :
  scan_members (S n) (q :: r)
  = if q =? 34 then
      obind (scanstring r) (fun '(k, r1) =>
        match skip_ws r1 with
        | [] => None
        | c :: r2 =>
            if c =? 58 then
              obind (scan_once n (skip_ws r2)) (fun '(v, r3) =>
                match skip_ws r3 with
                | [] => None
                | d :: r4 =>
                    if d =? 125 then Some ([(k, v)], r4)
                    else if d =? 44 then
                      obind (scan_members n (skip_ws r4))
                            (fun '(ms, r5) => Some ((k, v) :: ms, r5))
                    else None
                end)
            else None
        end)
    else None.
Proof. reflexivity. Qed.

Lemma encode_string_app k rest :
  encode_string k ++ rest = 34 :: flat_map escape_char k ++ 34 :: rest.
Proof. unfold encode_string; cbn [app]; rewrite <- app_assoc; reflexivity. Qed.

(** The last member of an object. *)
Lemma scan_members_last n k v c t rest :
  pair_free k = true -> is_ws c = false ->
  scan_once n ((c :: t) ++ 125 :: rest) = Some (v, 125 :: rest) ->
  scan_members (S n) (encode_string k ++ u ": " ++ (c :: t) ++ 125 :: rest)
  = Some ([(k, v)], rest).
Proof.
  intros W Hc Sv.
  rewrite encode_string_app, scan_members_S, N.eqb_refl.
  rewrite scanstring_roundtrip_any by exact W. cbn [obind].
  change (u ": " ++ (c :: t) ++ 125 :: rest)
    with (58 :: 32 :: (c :: t) ++ 125 :: rest).
  change (skip_ws (58 :: 32 :: (c :: t) ++ 125 :: rest))
    with (58 :: 32 :: (c :: t) ++ 125 :: rest).
  cbv beta iota. rewrite N.eqb_refl.
  change (skip_ws (32 :: (c :: t) ++ 125 :: rest))
    with (skip_ws ((c :: t) ++ 125 :: rest)).
  cbn [app] in *. rewrite (skip_ws_start c _ Hc), Sv.
  reflexivity.
Qed.

(** A member followed by another one. *)
Lemma scan_members_more n k v c t more :
  pair_free k = true -> is_ws c = false ->
  scan_once n ((c :: t) ++ 44 :: 32 :: 34 :: more)
  = Some (v, 44 :: 32 :: 34 :: more) ->
  scan_members (S n)
    (encode_string k ++ u ": " ++ (c :: t) ++ u ", " ++ 34 :: more)
  = obind (scan_members n (34 :: more))
          (fun '(ms, r) => Some ((k, v) :: ms, r)).
Proof.
  intros W Hc Sv.
  rewrite encode_string_app, scan_members_S, N.eqb_refl.
  rewrite scanstring_roundtrip_any by exact W. cbn [obind].
  change (u ": " ++ (c :: t) ++ u ", " ++ 34 :: more)
    with (58 :: 32 :: (c :: t) ++ 44 :: 32 :: 34 :: more).
  change (skip_ws (58 :: 32 :: (c :: t) ++ 44 :: 32 :: 34 :: more))
    with (58 :: 32 :: (c :: t) ++ 44 :: 32 :: 34 :: more).
  cbv beta iota. rewrite N.eqb_refl.
  change (skip_ws (32 :: (c :: t) ++ 44 :: 32 :: 34 :: more))
    with (skip_ws ((c :: t) ++ 44 :: 32 :: 34 :: more)).
  cbn [app] in *. rewrite (skip_ws_start c _ Hc), Sv.
  reflexivity.
Qed.

Lemma scan_once_string n s rest :
  pair_free s = true ->
  scan_once (S n) (encode_string s ++ rest) = Some (JStr s, rest).
Proof.
  intros W. rewrite encode_string_app. cbn [scan_once].
  rewrite N.eqb_refl, scanstring_roundtrip_any by exact W. reflexivity.
Qed.

Lemma floats_of_map fs : floats_of (map JFloat fs) = Some fs.
Proof. induction fs as [|f fs IH]; simpl; [|rewrite IH]; reflexivity. Qed.

Lemma float_repr_length x : (1 <= length (float_repr x))%nat.
Proof.
  destruct (float_repr_scan x) as (c & t & R & _); rewrite R; simpl; lia.
Qed.

Lemma join_floats_length fs :
  (length fs <= length (join (u ", ") (map float_repr fs)))%nat.
Proof.
  induction fs as [|x [|y fs] IH].
  - simpl; lia.
  - pose proof (float_repr_length x); simpl in *; lia.
  - change (join (u ", ") (map float_repr (x :: y :: fs)))
      with (float_repr x ++ u ", " ++ join (u ", ") (map float_repr (y :: fs))).
    rewrite !length_app. pose proof (float_repr_length x).
    simpl in *; lia.
Qed.

(** ** The token codec *)

Lemma blob_text c :
  json_dumps (blob_of c)
  = 123 :: (encode_string (u "key_id") ++ u ": "
              ++ encode_string (key_id c) ++ u ", "
              ++ 34 :: (tl (encode_string (u "payload")) ++ u ": "
              ++ json_dumps (JArr (map JFloat (payload c))) ++ u ", "
              ++ 34 :: (tl (encode_string (u "noise")) ++ u ": "
              ++ float_repr (noise c) ++ u ", "
              ++ 34 :: (tl (encode_string (u "created_at")) ++ u ": "
              ++ float_repr (created_at c) ++ [125]))))%list.
Proof.
  unfold blob_of. cbn [json_dumps map join].
  repeat rewrite <- app_assoc. reflexivity.
Qed.

Lemma scan_blob c n :
  pair_free (key_id c) = true ->
  (length (payload c) + 3 <= n)%nat ->
  scan_once (S (S (S (S (S n))))) (json_dumps (blob_of c))
  = Some (blob_of c, []).
Proof.
  intros W L. rewrite blob_text.
  destruct (float_repr_scan (noise c)) as (c3 & t3 & R3 & H3 & _ & S3).
  destruct (float_repr_scan (created_at c)) as (c4 & t4 & R4 & H4 & _ & S4).
  destruct n as [|n]; [lia|].
  (* the values, each in front of what follows it *)
  pose proof (fun rest => scan_once_string (S (S (S n))) (key_id c) rest W)
    as V1.
  pose proof (fun rest => scan_array_floats (payload c) (S (S n)) rest
                            ltac:(lia)) as V2.
  pose proof (fun rest => S3 (S n) (44 :: rest) (delimited_comma rest)) as V3.
  pose proof (S4 n [125] (delimited_brace [])) as V4.
  assert (A2 : exists c2 t2,
             json_dumps (JArr (map JFloat (payload c))) = c2 :: t2
             /\ is_ws c2 = false)
    by (exists 91; eexists; split; reflexivity).
  destruct A2 as (c2 & t2 & R2 & H2).
  rewrite R2 in *. rewrite R3 in *. rewrite R4 in *.
  set (k1 := encode_string (key_id c)) in *.
  assert (A1 : exists t1, k1 = 34 :: t1) by (eexists; reflexivity).
  destruct A1 as (t1 & R1). rewrite R1 in *. clearbody k1.
  (* the opening brace *)
  cbn [scan_once]. cbv beta iota.
  change (123 =? 34) with false. change (123 =? 123) with true.
  cbv beta iota.
  change (encode_string (u "key_id")) with (34 :: tl (encode_string (u "key_id"))).
  cbn [app skip_ws is_ws N.eqb Pos.eqb orb]. cbv beta iota.
  change (34 =? 125) with false. cbv beta iota.
  (* the four members *)
  match goal with
  | |- context [34 :: t1 ++ u ", " ++ 34 :: ?m] => set (more1 := m)
  end.
  match goal with
  | |- context [scan_members _ ?txt] =>
      change txt with (encode_string (u "key_id") ++ u ": " ++ (34 :: t1)
                         ++ u ", " ++ 34 :: more1)
  end.
  rewrite (scan_members_more (S (S (S (S n)))) (u "key_id")
             (JStr (key_id c)) 34 t1 more1 eq_refl eq_refl (V1 _)).
  unfold more1; clear more1.
  match goal with
  | |- context [c2 :: t2 ++ u ", " ++ 34 :: ?m] => set (more2 := m)
  end.
  match goal with
  | |- context [scan_members _ ?txt] =>
      change txt with (encode_string (u "payload") ++ u ": " ++ (c2 :: t2)
                         ++ u ", " ++ 34 :: more2)
  end.
  rewrite (scan_members_more (S (S (S n))) (u "payload")
             (JArr (map JFloat (payload c))) c2 t2 more2 eq_refl H2 (V2 _)).
  unfold more2; clear more2.
  match goal with
  | |- context [c3 :: t3 ++ u ", " ++ 34 :: ?m] => set (more3 := m)
  end.
  match goal with
  | |- context [scan_members _ ?txt] =>
      change txt with (encode_string (u "noise") ++ u ": " ++ (c3 :: t3)
                         ++ u ", " ++ 34 :: more3)
  end.
  rewrite (scan_members_more (S (S n)) (u "noise")
             (JFloat (noise c)) c3 t3 more3 eq_refl (head_not_ws c3 H3)
             (V3 _)).
  unfold more3; clear more3.
  match goal with
  | |- context [scan_members _ ?txt] =>
      change txt with (encode_string (u "created_at") ++ u ": "
                         ++ (c4 :: t4) ++ 125 :: [])
  end.
  rewrite (scan_members_last (S n) (u "created_at")
             (JFloat (created_at c)) c4 t4 [] eq_refl (head_not_ws c4 H4) V4).
  reflexivity.
Qed.

Lemma floats_ascii fs : is_ascii (join (u ", ") (map float_repr fs)).
Proof.
  assert (F : forall x, is_ascii (float_repr x)).
  { intros x; destruct (float_repr_scan x) as (c & t & R & _ & A & _).
    rewrite R; exact A. }
  induction fs as [|x [|y fs] IH].
  - constructor.
  - apply F.
  - change (join (u ", ") (map float_repr (x :: y :: fs)))
      with (float_repr x ++ u ", " ++ join (u ", ") (map float_repr (y :: fs))).
    apply is_ascii_app; [apply F|].
    apply is_ascii_app; [repeat constructor; lia | exact IH].
Qed.

Lemma blob_ascii c :
  pair_free (key_id c) = true -> is_ascii (json_dumps (blob_of c)).
Proof.
  intros W. rewrite blob_text.
  assert (F : forall x, is_ascii (float_repr x)).
  { intros x; destruct (float_repr_scan x) as (d & t & R & _ & A & _).
    rewrite R; exact A. }
  assert (K : forall k, pair_free k = true -> is_ascii (tl (encode_string k))).
  { intros k Wk. pose proof (encode_string_ascii_any k Wk) as E.
    unfold encode_string in *; cbn [tl]. inversion E; assumption. }
  assert (Sep : is_ascii (u ", ")) by (repeat constructor; lia).
  assert (Col : is_ascii (u ": ")) by (repeat constructor; lia).
  assert (Arr : is_ascii (json_dumps (JArr (map JFloat (payload c))))).
  { cbn [json_dumps]. rewrite map_map.
    constructor; [lia|]. apply is_ascii_app; [|repeat constructor; lia].
    apply (floats_ascii (payload c)). }
  constructor; [lia|].
  apply is_ascii_app; [apply encode_string_ascii_any; reflexivity|].
  apply is_ascii_app; [exact Col|].
  apply is_ascii_app; [apply encode_string_ascii_any; exact W|].
  apply is_ascii_app; [exact Sep|].
  constructor; [lia|].
  apply is_ascii_app; [apply K; reflexivity|].
  apply is_ascii_app; [exact Col|].
  apply is_ascii_app; [exact Arr|].
  apply is_ascii_app; [exact Sep|].
  constructor; [lia|].
  apply is_ascii_app; [apply K; reflexivity|].
  apply is_ascii_app; [exact Col|].
  apply is_ascii_app; [apply F|].
  apply is_ascii_app; [exact Sep|].
  constructor; [lia|].
  apply is_ascii_app; [apply K; reflexivity|].
  apply is_ascii_app; [exact Col|].
  apply is_ascii_app; [apply F|].
  repeat constructor; lia.
Qed.

Lemma blob_length c :
  (length (payload c) + 8 <= length (json_dumps (blob_of c)))%nat.
Proof.
  rewrite blob_text. cbn [length]. rewrite !length_app. cbn [length].
  rewrite !length_app.
  assert (A : (length (payload c) + 2
               <= length (json_dumps (JArr (map JFloat (payload c)))))%nat).
  { cbn [json_dumps length]. rewrite length_app, map_map.
    change (map (fun x : float => json_dumps (JFloat x)) (payload c))
      with (map float_repr (payload c)).
    pose proof (join_floats_length (payload c)). simpl; lia. }
  change (length (tl (encode_string (u "payload")))) with 8%nat.
  change (length (u ": ")) with 2%nat.
  lia.
Qed.

Lemma json_loads_blob c :
  pair_free (key_id c) = true ->
  json_loads (json_dumps (blob_of c)) = Some (blob_of c).
Proof.
  intros W. unfold json_loads.
  assert (Sk : skip_ws (json_dumps (blob_of c)) = json_dumps (blob_of c))
    by (rewrite blob_text; reflexivity).
  rewrite Sk.
  pose proof (blob_length c) as L.
  destruct (length (json_dumps (blob_of c))) as [|[|[|[|n]]]]; try lia.
  rewrite (scan_blob c n W) by lia.
  reflexivity.
Qed.

Lemma ciphertext_of_blob c : ciphertext_of_json (blob_of c) = Ok c.
Proof.
  unfold ciphertext_of_json, blob_of.
  change (subscript _ (u "key_id")) with (Some (JStr (key_id c))).
  change (subscript _ (u "payload"))
    with (Some (JArr (map JFloat (payload c)))).
  change (subscript _ (u "noise")) with (Some (JFloat (noise c))).
  change (subscript _ (u "created_at")) with (Some (JFloat (created_at c))).
  cbn [py_float_list py_float py_str]. rewrite floats_of_map.
  destruct c; reflexivity.
Qed.

Lemma blob_depth c : (json_depth (blob_of c) <= 2)%nat.
Proof.
  unfold blob_of. cbn [json_depth fold_right].
  assert (D : (fold_right (fun item d => Nat.max (json_depth item) d) 0
                          (map JFloat (payload c)) = 0)%nat).
  { induction (payload c) as [|x p IH]; cbn [map fold_right json_depth];
      [reflexivity|exact IH]. }
  rewrite D. cbn. lia.
Qed.

Lemma serialize_blob c :
  serialize c
  = obind (utf8_encode (json_dumps (blob_of c)))
          (fun encoded => utf8_decode (b64encode encoded)).
Proof. reflexivity. Qed.

(** Serializing and deserializing, for any floats whatever. *)
Lemma serialize_deserialize c :
  pair_free (key_id c) = true ->
  serialize c = Some (b64encode (json_dumps (blob_of c)))
  /\ deserialize (b64encode (json_dumps (blob_of c))) = Ok c.
Proof.
  intros W.
  pose proof (blob_ascii c W) as A.
  pose proof (is_ascii_octets _ A) as O.
  pose proof (b64encode_ascii _ O) as B.
  split.
  - rewrite serialize_blob, (utf8_encode_ascii _ A); cbn [obind].
    apply utf8_decode_ascii; exact B.
  - unfold deserialize, decode_token.
    rewrite (utf8_encode_ascii _ B); cbn [obind].
    rewrite (b64_roundtrip _ O); cbn [obind].
    rewrite (utf8_decode_ascii _ A); cbn [obind].
    rewrite (json_loads_blob c W), ciphertext_of_blob.
    pose proof (blob_depth c) as D.
    destruct (Nat.ltb_spec nesting_followed (json_depth (blob_of c)))
      as [L|L]; [|reflexivity].
    unfold nesting_followed in L. lia.
Qed.

(** The condition on the key identifier is what the embedding needs for
    the ciphertexts that no run of the program makes.  A record built by
    hand with a high surrogate directly followed by a low surrogate
    ([U+D83D], [U+DE00]) does not come back: [json.dumps] writes the two
    escapes and [json.loads] reads them as the one character
    [U+1F600]. *)
Lemma surrogate_pair_is_joined :
  let c := mkCiphertext [55357; 56832] [1%float] zero zero in
  exists token,
    serialize c = Some token
    /\ deserialize token = Ok (mkCiphertext [128512] [1%float] zero zero)
    /\ key_id c <> [128512].
Proof.
  eexists. split; [vm_compute; reflexivity|].
  split; [vm_compute; reflexivity|discriminate].
Qed.



(** C7 as stated fails: the token of the document
    [{"key_id": "k", "payload": [NaN], "noise": Infinity,
      "created_at": 0.0}] is deserialized. *)
Lemma nonfinite_token_counterexample :
  deserialize
    (u "eyJrZXlfaWQiOiAiayIsICJwYXlsb2FkIjogW05hTl0sICJub2lzZSI6IEluZmluaXR5LCAiY3JlYXRlZF9hdCI6IDAuMH0=")
  = Ok (mkCiphertext (u "k") [nan] infinity zero)
  /\ isfinite nan = false /\ isfinite infinity = false.
Proof. vm_compute; repeat split; reflexivity. Qed.

Lemma dict_get_none_raises obj field :
  In field required_fields -> subscript obj field = None ->
  ciphertext_of_json obj = Raise MalformedToken.
Proof.
  unfold required_fields, ciphertext_of_json.
  intros [<-|[<-|[<-|[<-|[]]]]] ->; try reflexivity.
  - destruct (subscript obj (u "key_id")); reflexivity.
  - destruct (subscript obj (u "key_id")); [|reflexivity].
    destruct (subscript obj (u "payload")); reflexivity.
  - destruct (subscript obj (u "key_id")); [|reflexivity].
    destruct (subscript obj (u "payload")); [|reflexivity].
    destruct (subscript obj (u "noise")); reflexivity.
Qed.

Lemma high_octet_skipped b :
  128 <= b -> b <> b64_pad /\ b64_value b = None.
Proof.
  intros H. unfold b64_pad, b64_value, in_range. split; [lia|].
  cases_N. reflexivity.
Qed.

(** ** Tokens that are cut short *)

(** Without a pad, the decoder ends inside a quad, and fails, unless
    the digits fill whole quads. *)
Lemma a2b_pad_free bs :
  pad_free bs = true ->
  forall q l p,
    q < 4 -> ((N.to_nat q + b64_digits bs) mod 4 <> 0)%nat ->
    a2b_base64 bs q l p = None.
Proof.
  unfold pad_free, b64_digits.
  induction bs as [|c bs IH]; intros P q l p Hq D.
  - cbn [filter length] in D. cbn [a2b_base64].
    destruct (N.eqb_spec q 0) as [->|]; [|reflexivity].
    cbn in D. congruence.
  - cbn [forallb] in P. apply andb_true_iff in P. destruct P as (Pc & Pbs).
    apply negb_true_iff in Pc.
    assert (Hd : is_b64_digit c
                 = match b64_value c with Some _ => true | None => false end)
      by reflexivity.
    cbn [a2b_base64 filter] in *. rewrite Pc. rewrite Hd in D. clear Hd.
    destruct (b64_value c) as [v|].
    + cbn [length] in D.
      destruct (N.eqb_spec q 0) as [->|N0].
      { apply (IH Pbs); [lia|]. cbn [N.to_nat] in *.
        replace (Pos.to_nat 1 + length (filter is_b64_digit bs))%nat
          with (0 + S (length (filter is_b64_digit bs)))%nat by lia.
        exact D. }
      destruct (N.eqb_spec q 1) as [->|N1].
      { rewrite (IH Pbs 2 (v mod 16) 0); [reflexivity|lia|].
        replace (N.to_nat 2 + length (filter is_b64_digit bs))%nat
          with (N.to_nat 1 + S (length (filter is_b64_digit bs)))%nat by lia.
        exact D. }
      destruct (N.eqb_spec q 2) as [->|N2].
      { rewrite (IH Pbs 3 (v mod 4) 0); [reflexivity|lia|].
        replace (N.to_nat 3 + length (filter is_b64_digit bs))%nat
          with (N.to_nat 2 + S (length (filter is_b64_digit bs)))%nat by lia.
        exact D. }
      assert (q = 3) by lia. subst q.
      rewrite (IH Pbs 0 0 0); [reflexivity|lia|].
      intros E. apply D.
      change (N.to_nat 3) with 3%nat in *. change (N.to_nat 0) with 0%nat in *.
      set (n := length (filter is_b64_digit bs)) in *. clearbody n.
      replace (3 + S n)%nat with (n + 1 * 4)%nat by (clear; lia).
      rewrite (Nat.Div0.mod_add n 1 4). exact E.
    + apply (IH Pbs); assumption.
Qed.

(** The octets of a character above ASCII are neither digits nor pads. *)
Lemma utf8_encode_char_high c bs :
  128 <= c -> utf8_encode_char c = Some bs -> Forall (fun b => 128 <= b) bs.
Proof.
  intros H. unfold utf8_encode_char.
  replace (c <? 128) with false by (symmetry; apply N.ltb_ge; lia).
  assert (Done : forall l, Forall (fun b => 128 <= b) l ->
                           Some l = Some bs -> Forall (fun b => 128 <= b) bs).
  { intros l F E. injection E as <-. exact F. }
  destruct (c <? 2048).
  { apply Done. repeat (apply Forall_cons; [lia|]). apply Forall_nil. }
  destruct (is_surrogate c); [discriminate|].
  destruct (c <? 65536).
  { apply Done. repeat (apply Forall_cons; [lia|]). apply Forall_nil. }
  destruct (c <? 1114112); [|discriminate].
  apply Done. repeat (apply Forall_cons; [lia|]). apply Forall_nil.
Qed.

Lemma high_octets_plain bs :
  Forall (fun b => 128 <= b) bs ->
  pad_free bs = true /\ filter is_b64_digit bs = [].
Proof.
  induction 1 as [|b bs Hb _ (IH1 & IH2)]; [split; reflexivity|].
  destruct (high_octet_skipped b Hb) as (P & V).
  unfold pad_free in *. cbn [forallb filter]. unfold is_b64_digit at 1.
  rewrite V, IH1, IH2. apply N.eqb_neq in P. rewrite P. split; reflexivity.
Qed.

Lemma pad_free_app a b :
  pad_free (a ++ b) = pad_free a && pad_free b.
Proof. apply forallb_app. Qed.

Lemma utf8_encode_digits data raw :
  utf8_encode data = Some raw ->
  pad_free raw = pad_free data /\ b64_digits raw = b64_digits data.
Proof.
  unfold b64_digits. revert raw.
  induction data as [|c data IH]; intros raw E; cbn [utf8_encode] in E.
  - injection E as <-. split; reflexivity.
  - destruct (utf8_encode_char c) as [bs|] eqn:Ec; cbn [obind] in E;
      [|discriminate].
    destruct (utf8_encode data) as [rest|]; cbn [obind] in E; [|discriminate].
    injection E as <-. destruct (IH rest eq_refl) as (IH1 & IH2).
    rewrite pad_free_app, filter_app, length_app, IH1, IH2.
    destruct (N.ltb_spec c 128) as [L|L].
    + unfold utf8_encode_char in Ec.
      replace (c <? 128) with true in Ec by (symmetry; apply N.ltb_lt; lia).
      injection Ec as <-. unfold pad_free. cbn [forallb filter].
      rewrite andb_true_r. split; [reflexivity|].
      destruct (is_b64_digit c); reflexivity.
    + destruct (high_octets_plain bs (utf8_encode_char_high c bs L Ec))
        as (Pb & Fb).
      destruct (high_octet_skipped c L) as (Pc & Vc).
      rewrite Pb, Fb. unfold pad_free. cbn [forallb filter length].
      unfold is_b64_digit at 2. rewrite Vc.
      apply N.eqb_neq in Pc. rewrite Pc. split; reflexivity.
Qed.

Lemma truncated_token data :
  pad_free data = true -> (b64_digits data mod 4 <> 0)%nat ->
  deserialize data = Raise MalformedToken.
Proof.
  intros P D. unfold deserialize, decode_token.
  destruct (utf8_encode data) as [raw|] eqn:E; cbn [obind]; [|reflexivity].
  destruct (utf8_encode_digits data raw E) as (P' & D').
  unfold b64decode.
  rewrite (a2b_pad_free raw); [reflexivity|congruence|lia|].
  rewrite D'. exact D.
Qed.

(** C7, as the code has it.  [deserialize] fails with [MalformedToken]
    on every token that does not decode, and the decoding has four
    stages: the characters of the token are encoded in UTF-8 (a
    surrogate cannot be); the lenient Base64 decoder reads the octets,
    passing over what is not a Base64 digit and stopping at a complete
    pad, and fails when the digits end inside a quad, as they do in a
    token without pads whose number of digits is not a multiple of four;
    the octets it returns are decoded as UTF-8; the text is read as one
    JSON document.  It fails too on every token whose document is not an
    object with the four fields.  It does not look at the numbers: the
    token of a ciphertext is deserialized to that ciphertext whatever
    its floats are, [NaN] and the infinities included
    ([nonfinite_token_counterexample]). *)
Theorem deserialize_gate data :
  (utf8_encode data = None -> deserialize data = Raise MalformedToken)
  /\ (forall raw,
        utf8_encode data = Some raw -> b64decode raw = None ->
        deserialize data = Raise MalformedToken)
  /\ (pad_free data = true -> (b64_digits data mod 4 <> 0)%nat ->
      deserialize data = Raise MalformedToken)
  /\ (forall raw decoded,
        utf8_encode data = Some raw -> b64decode raw = Some decoded ->
        utf8_decode decoded = None ->
        deserialize data = Raise MalformedToken)
  /\ (forall raw decoded document,
        utf8_encode data = Some raw -> b64decode raw = Some decoded ->
        utf8_decode decoded = Some document -> json_loads document = None ->
        deserialize data = Raise MalformedToken)
  /\ (forall raw decoded document obj field,
        utf8_encode data = Some raw -> b64decode raw = Some decoded ->
        utf8_decode decoded = Some document ->
        json_loads document = Some obj ->
        In field required_fields -> subscript obj field = None ->
        deserialize data = Raise MalformedToken)
  /\ (forall c,
        pair_free (key_id c) = true -> serialize c = Some data ->
        deserialize data = Ok c).
Proof.
  unfold deserialize, decode_token.
  repeat match goal with |- _ /\ _ => split end.
  - intros ->. reflexivity.
  - intros raw E1 E2. rewrite E1. cbn [obind]. rewrite E2. reflexivity.
  - apply truncated_token.
  - intros raw decoded E1 E2 E3.
    rewrite E1. cbn [obind]. rewrite E2. cbn [obind]. rewrite E3.
    reflexivity.
  - intros raw decoded document E1 E2 E3 E4.
    rewrite E1. cbn [obind]. rewrite E2. cbn [obind]. rewrite E3.
    cbn [obind]. rewrite E4. reflexivity.
  - intros raw decoded document obj field E1 E2 E3 E4 F N.
    rewrite E1. cbn [obind]. rewrite E2. cbn [obind]. rewrite E3.
    cbn [obind]. rewrite E4.
    rewrite (dict_get_none_raises obj field F N). reflexivity.
  - intros c W S. destruct (serialize_deserialize c W) as (S' & D).
    rewrite S' in S. injection S as <-. exact D.
Qed.

Lemma deserialize_gate_witness :
  deserialize (u "e30") = Raise MalformedToken
  /\ deserialize (u "e30=") = Raise MalformedToken.
Proof.
  split.
  - refine (proj1 (proj2 (proj2 (deserialize_gate (u "e30")))) eq_refl _).
    vm_compute. discriminate.
  - exact (proj1 (proj2 (proj2 (proj2 (proj2 (proj2
             (deserialize_gate (u "e30=")))))))
             _ _ _ (JObj []) (u "noise") eq_refl eq_refl eq_refl eq_refl
             (or_intror (or_intror (or_introl eq_refl))) eq_refl).
Defined.

(** ** Binary64 arithmetic: classes and signs *)

Local Open Scope Z_scope.



Lemma compare_cont_refl m : Pos.compare_cont Eq m m = Eq.
Proof. apply Pos.compare_cont_refl. Qed.

Lemma is_finite_spec x : is_finite x = SFfinite (Prim2SF x).
Proof.
  unfold is_finite, is_nan, is_infinity.
  rewrite !eqb_spec, abs_spec.
  change (Prim2SF infinity) with (S754_infinity false).
  destruct (Prim2SF x) as [s|s| |s m e]; try destruct s; cbn;
    try reflexivity;
    rewrite ?Z.compare_refl, ?compare_cont_refl; reflexivity.
Qed.

Lemma nonneg_spec x : nonneg x = SFnonneg (Prim2SF x).
Proof.
  unfold nonneg. rewrite leb_spec.
  change (Prim2SF zero) with (S754_zero false).
  destruct (Prim2SF x) as [s|s| |s m e]; try destruct s; reflexivity.
Qed.

Lemma shr_1_nonneg mrs : 0 <= shr_m mrs -> 0 <= shr_m (shr_1 mrs).
Proof.
  destruct mrs as [m r s]; cbn [shr_m].
  destruct m as [|[p|p|]|p]; cbn; lia.
Qed.

Lemma iter_shr_nonneg n mrs :
  0 <= shr_m mrs -> 0 <= shr_m (Nat.iter n shr_1 mrs).
Proof.
  induction n as [|n IH]; intros H; cbn [Nat.iter nat_rect];
    [exact H | apply shr_1_nonneg, IH, H].
Qed.

Lemma shr_fexp_nonneg m e l :
  0 <= m -> 0 <= shr_m (fst (shr_fexp prec emax m e l)).
Proof.
  intros H. unfold shr_fexp, shr.
  assert (R : 0 <= shr_m (shr_record_of_loc m l))
    by (destruct l as [|[]]; exact H).
  destruct (fexp prec emax (Zdigits2 m + e) - e) as [|p|p]; cbn [fst];
    try exact R.
  rewrite iter_pos_nat. apply iter_shr_nonneg, R.
Qed.

Lemma round_nearest_even_nonneg m l : 0 <= m -> 0 <= round_nearest_even m l.
Proof.
  intros H; destruct l as [|[]]; cbn [round_nearest_even];
    try destruct (Z.even m); lia.
Qed.

(** Rounding a mantissa that is not negative gives a zero, a finite
    number or an infinity of the sign asked for, never [NaN]. *)
Lemma binary_round_aux_class s m e l :
  0 <= m ->
  match binary_round_aux prec emax s m e l with
  | S754_zero s' | S754_infinity s' | S754_finite s' _ _ => s' = s
  | S754_nan => False
  end.
Proof.
  intros H. unfold binary_round_aux.
  pose proof (shr_fexp_nonneg m e l H) as H1.
  destruct (shr_fexp prec emax m e l) as [mrs' e'] eqn:E1. cbn [fst] in H1.
  pose proof (round_nearest_even_nonneg _ (loc_of_shr_record mrs') H1) as H2.
  pose proof (shr_fexp_nonneg _ e' loc_Exact H2) as H3.
  destruct (shr_fexp prec emax
              (round_nearest_even (shr_m mrs') (loc_of_shr_record mrs'))
              e' loc_Exact) as [mrs'' e''] eqn:E2.
  cbn [fst] in H3.
  destruct (shr_m mrs'') as [|p|p]; [reflexivity| |lia].
  destruct (e'' <=? emax - prec); reflexivity.
Qed.

Lemma binary_round_class s m e :
  match binary_round prec emax s m e with
  | S754_zero s' | S754_infinity s' | S754_finite s' _ _ => s' = s
  | S754_nan => False
  end.
Proof.
  unfold binary_round.
  destruct (shl_align m e (fexp prec emax (Zpos (digits2_pos m) + e)))
    as [mz ez].
  apply binary_round_aux_class; lia.
Qed.

Lemma SFnonneg_of_class f :
  match f with
  | S754_zero s' | S754_infinity s' | S754_finite s' _ _ => s' = false
  | S754_nan => False
  end -> SFnonneg f = true.
Proof. destruct f as [s|s| |s m e]; intros H; try subst s; tauto. Qed.

Lemma SFadd_nonneg x y :
  SFnonneg x = true -> SFnonneg y = true -> SFnonneg (SF64add x y) = true.
Proof.
  destruct x as [sx|sx| |sx mx ex], y as [sy|sy| |sy my ey];
    try destruct sx; try destruct sy; cbn [SFnonneg];
    try discriminate; try reflexivity; intros _ _.
  unfold SF64add, SFadd. cbn [cond_Zopp]. cbn [Z.add binary_normalize].
  apply SFnonneg_of_class, binary_round_class.
Qed.

Lemma SFdiv_nonneg x my ey :
  SFnonneg x = true ->
  SFnonneg (SF64div x (S754_finite false my ey)) = true.
Proof.
  destruct x as [sx|sx| |sx mx ex]; try destruct sx; cbn [SFnonneg];
    try discriminate; try reflexivity; intros _.
  unfold SF64div, SFdiv.
  destruct (SFdiv_core_binary prec emax (Zpos mx) ex (Zpos my) ey)
    as [[mz ez] lz] eqn:E.
  apply SFnonneg_of_class. cbn [xorb].
  apply binary_round_aux_class.
  unfold SFdiv_core_binary in E.
  set (a := match _ - _ - _ with Zpos _ => _ | Z0 => _ | Zneg _ => _ end) in E.
  assert (Ha : 0 <= a).
  { unfold a. destruct (ex - ey - _); try lia.
    apply Z.shiftl_nonneg; lia. }
  pose proof (Z.div_pos a (Zpos my) Ha ltac:(lia)) as Q.
  unfold Z.div in Q.
  destruct (Z.div_eucl a (Zpos my)) as [q r]. cbn [fst] in Q.
  inversion E; subst; exact Q.
Qed.

Lemma add_nonneg x y :
  nonneg x = true -> nonneg y = true -> nonneg (x + y)%float = true.
Proof.
  rewrite !nonneg_spec, add_spec. apply SFadd_nonneg.
Qed.

Lemma div2_nonneg x : nonneg x = true -> nonneg (x / 2)%float = true.
Proof.
  rewrite !nonneg_spec, div_spec.
  change (Prim2SF 2) with (S754_finite false 4503599627370496 (-51)).
  apply SFdiv_nonneg.
Qed.

Local Close Scope Z_scope.

(** ** Binary64 rounding: the error *)

Local Open Scope Z_scope.


Lemma shr_inv_step m h mrs :
  0 < h -> shr_inv m h mrs -> shr_inv m (2 * h) (shr_1 mrs).
Proof.
  intros Hh (rem & Em & Hr & Hq & R & S).
  destruct mrs as [q r s]; cbn [shr_m shr_r shr_s] in *.
  assert (RS : r || s = true <-> rem <> 0).
  { rewrite orb_true_iff, R, S. lia. }
  destruct q as [|[p|p|]|p]; try lia; cbn [shr_1 shr_m shr_r shr_s].
  - exists rem; cbn [shr_m shr_r shr_s]; rewrite RS.
    repeat split; intros; try lia; try discriminate.
  - exists (h + rem); cbn [shr_m shr_r shr_s].
    rewrite RS, (Pos2Z.inj_xI p) in *.
    repeat split; intros; try lia.
  - exists rem; cbn [shr_m shr_r shr_s].
    rewrite RS, (Pos2Z.inj_xO p) in *.
    repeat split; intros; try lia; try discriminate.
  - exists (h + rem); cbn [shr_m shr_r shr_s]; rewrite RS.
    repeat split; intros; try lia.
Qed.

Lemma shr_inv_iter m n :
  0 <= m ->
  shr_inv m (2 ^ Z.of_nat n)
          (Nat.iter n shr_1 (Build_shr_record m false false)).
Proof.
  intros Hm; induction n as [|n IH].
  - exists 0; cbn; repeat split; intros; try lia; try discriminate.
  - rewrite Nat2Z.inj_succ, Z.pow_succ_r by lia.
    cbn [Nat.iter nat_rect]. apply shr_inv_step; [|exact IH].
    apply Z.pow_pos_nonneg; lia.
Qed.

(** Rounding to nearest after the shifts: off by at most half of
    [2^n]. *)
Lemma round_after_shr m h mrs :
  0 < h -> shr_inv m h mrs ->
  let m2 := round_nearest_even (shr_m mrs) (loc_of_shr_record mrs) in
  (m2 = shr_m mrs \/ m2 = shr_m mrs + 1)
  /\ 2 * Z.abs (m2 * h - m) <= h.
Proof.
  intros Hh (rem & Em & Hr & Hq & R & S).
  destruct mrs as [q r s]; cbn [shr_m shr_r shr_s loc_of_shr_record] in *.
  destruct r, s; cbn [round_nearest_even].
  - assert (h <= 2 * rem) by (apply R; reflexivity). split; [auto|]. nia.
  - assert (h <= 2 * rem) by (apply R; reflexivity).
    assert (2 * rem = h).
    { destruct (Z.eq_dec (2 * rem) h); [assumption|].
      assert (false = true) by (apply S; lia). discriminate. }
    destruct (Z.even q); split; auto; nia.
  - assert (~ h <= 2 * rem) by (rewrite <- R; discriminate).
    split; [auto|]. nia.
  - assert (~ h <= 2 * rem) by (rewrite <- R; discriminate).
    assert (rem = 0).
    { destruct (Z.eq_dec rem 0); [assumption|].
      assert (false = true) by (apply S; lia). discriminate. }
    split; [auto|]. nia.
Qed.

Lemma Zdigits2_unique n k :
  0 < k -> 2 ^ (k - 1) <= n < 2 ^ k -> Zdigits2 n = k.
Proof.
  intros K B.
  assert (0 < n) by (pose proof (pow_pos_pos 2 (k - 1)); lia).
  rewrite Zdigits2_log2_pos by assumption.
  rewrite (Z.log2_unique n (k - 1)); try lia.
  replace (Z.succ (k - 1)) with k by lia. exact B.
Qed.

Lemma iter_xO m p : Zpos (Pos.iter xO m p) = Zpos m * 2 ^ Zpos p.
Proof.
  induction p as [|p IH] using Pos.peano_ind.
  - cbn [Pos.iter]. rewrite (Pos2Z.inj_xO m). change (2 ^ 1) with 2. lia.
  - rewrite Pos.iter_succ, (Pos2Z.inj_xO (Pos.iter xO m p)), IH.
    rewrite Pos2Z.inj_succ, Z.pow_succ_r by lia. lia.
Qed.

Lemma fexp_eq a : fexp prec emax a = Z.max (a - 53) (-1074).
Proof. reflexivity. Qed.

(** A mantissa that already has its exponent is kept. *)
Lemma binary_round_aux_canonical s m e :
  fexp prec emax (Zdigits2 (Zpos m) + e) = e ->
  binary_round_aux prec emax s (Zpos m) e loc_Exact
  = if e <=? 971 then S754_finite s m e else S754_infinity s.
Proof.
  intros C. unfold binary_round_aux.
  assert (Sh : shr_fexp prec emax (Zpos m) e loc_Exact
               = (Build_shr_record (Zpos m) false false, e)).
  { unfold shr_fexp. rewrite C, Z.sub_diag. reflexivity. }
  rewrite Sh. cbn [shr_m loc_of_shr_record round_nearest_even].
  rewrite Sh. cbn [shr_m]. reflexivity.
Qed.

(** A mantissa with too many digits is shifted and rounded to 53
    digits; a carry out of the rounding costs one more shift. *)
Lemma binary_round_aux_round s m e :
  -1074 <= e ->
  let f := fexp prec emax (Zdigits2 (Zpos m) + e) in
  e < f ->
  exists m2 : positive,
    2 * Z.abs (Zpos m2 * 2 ^ (f - e) - Zpos m) <= 2 ^ (f - e)
    /\ 2 ^ 52 <= Zpos m2 <= 2 ^ 53
    /\ binary_round_aux prec emax s (Zpos m) e loc_Exact
       = if Zpos m2 <? 2 ^ 53
         then if f <=? 971 then S754_finite s m2 f else S754_infinity s
         else if f + 1 <=? 971 then S754_finite s 4503599627370496 (f + 1)
              else S754_infinity s.
Proof.
  intros E f F.
  pose proof (digits2_pos_bounds m) as D.
  change (Zpos (digits2_pos m)) with (Zdigits2 (Zpos m)) in D.
  set (d := Zdigits2 (Zpos m)) in *.
  assert (Ef : f = d + e - 53) by (unfold f in *; rewrite fexp_eq in *; lia).
  assert (P : 0 < f - e) by lia.
  destruct (f - e) as [|p|p] eqn:Ep; try lia.
  pose proof (shr_inv_iter (Zpos m) (Pos.to_nat p) ltac:(lia)) as I.
  rewrite positive_nat_Z in I.
  assert (Hh : 0 < 2 ^ Zpos p) by (apply pow_pos_pos; lia).
  pose proof (round_after_shr _ _ _ Hh I) as R. cbv zeta in R.
  destruct I as (rem & Em & Hr & Hq & _).
  set (mrs := Nat.iter (Pos.to_nat p) shr_1
                       (Build_shr_record (Zpos m) false false)) in *.
  set (m2 := round_nearest_even (shr_m mrs) (loc_of_shr_record mrs)) in *.
  assert (Dd : 2 ^ d = 2 ^ 53 * 2 ^ Zpos p).
  { rewrite <- Z.pow_add_r by lia. f_equal. lia. }
  assert (Dd' : 2 ^ (d - 1) = 2 ^ 52 * 2 ^ Zpos p).
  { rewrite <- Z.pow_add_r by lia. f_equal. lia. }
  rewrite Dd, Dd' in D.
  change (2 ^ 53) with 9007199254740992 in *.
  change (2 ^ 52) with 4503599627370496 in *.
  set (h := 2 ^ Zpos p) in *. clearbody h.
  assert (Q : 4503599627370496 <= shr_m mrs < 9007199254740992) by nia.
  assert (M2 : 4503599627370496 <= m2 <= 9007199254740992) by lia.
  destruct m2 as [|k|k] eqn:Em2; try lia.
  exists k. split; [exact (proj2 R)|]. split; [exact M2|].
  unfold binary_round_aux.
  assert (Sh : shr_fexp prec emax (Zpos m) e loc_Exact = (mrs, f)).
  { unfold shr_fexp. fold d. fold f. rewrite Ep.
    cbn [shr_record_of_loc shr]. rewrite iter_pos_nat. fold mrs.
    f_equal. lia. }
  rewrite Sh. fold m2. rewrite Em2.
  destruct (Z.ltb_spec (Zpos k) 9007199254740992) as [L|L].
  - assert (Dk : Zdigits2 (Zpos k) = 53).
    { apply Zdigits2_unique; [lia|].
      change (2 ^ (53 - 1)) with 4503599627370496.
      change (2 ^ 53) with 9007199254740992. lia. }
    assert (Sh2 : shr_fexp prec emax (Zpos k) f loc_Exact
                  = (Build_shr_record (Zpos k) false false, f)).
    { unfold shr_fexp. rewrite Dk, fexp_eq.
      replace (Z.max (53 + f - 53) (-1074) - f) with 0 by lia.
      reflexivity. }
    rewrite Sh2. cbn [shr_m]. reflexivity.
  - assert (Ek : Zpos k = 9007199254740992) by lia.
    injection Ek as Ek. subst k.
    assert (Sh2 : shr_fexp prec emax 9007199254740992 f loc_Exact
                  = (Build_shr_record 4503599627370496 false false, f + 1)).
    { unfold shr_fexp.
      change (Zdigits2 9007199254740992) with 54. rewrite fexp_eq.
      replace (Z.max (54 + f - 53) (-1074) - f) with 1 by lia.
      reflexivity. }
    rewrite Sh2. cbn [shr_m]. reflexivity.
Qed.

(** [binary_round] on [m * 2^e]: the nearest double, within half a unit
    of the last place of [m * 2^e]; the result is infinite only from
    [2^1024 - 2^970] on.  Values are scaled by [2^1074]. *)
Lemma binary_round_sharp s m e :
  -1074 <= e ->
  let v := Zpos m * 2 ^ (e + 1074) in
  let f := fexp prec emax (Zdigits2 (Zpos m) + e) in
  (exists m' e',
      binary_round prec emax s m e = S754_finite s m' e'
      /\ -1074 <= e'
      /\ 2 * Z.abs (Zpos m' * 2 ^ (e' + 1074) - v) <= 2 ^ (f + 1074))
  \/ (binary_round prec emax s m e = S754_infinity s
      /\ 2 ^ 2099 - 2 ^ 2045 <= 2 * v).
Proof.
  intros E v f.
  pose proof (digits2_pos_bounds m) as D.
  change (Zpos (digits2_pos m)) with (Zdigits2 (Zpos m)) in D.
  assert (Ff : -1074 <= f) by (unfold f; rewrite fexp_eq; lia).
  assert (Pf : 0 < 2 ^ (f + 1074)) by (apply pow_pos_pos; lia).
  assert (Pe : 0 < 2 ^ (e + 1074)) by (apply pow_pos_pos; lia).
  assert (P45 : 0 < 2 ^ 2045) by (apply pow_pos_pos; lia).
  (* the value is at least [2^(d + e + 1073)] *)
  assert (Low : 2 ^ (Zdigits2 (Zpos m) + e + 1073) <= v).
  { replace (Zdigits2 (Zpos m) + e + 1073)
      with (Zdigits2 (Zpos m) - 1 + (e + 1074)) by lia.
    pose proof (Zdigits2_log2 m). pose proof (Z.log2_nonneg (Zpos m)).
    rewrite Z.pow_add_r by lia. unfold v.
    apply Z.mul_le_mono_nonneg_r; lia. }
  assert (Big : 971 < f -> 2 ^ 2099 - 2 ^ 2045 <= 2 * v).
  { intros L.
    assert (f = Zdigits2 (Zpos m) + e - 53)
      by (unfold f in *; rewrite fexp_eq in *; lia).
    assert (2 ^ 2098 <= 2 ^ (Zdigits2 (Zpos m) + e + 1073))
      by (apply Z.pow_le_mono_r; lia).
    replace 2099 with (Z.succ 2098) by lia.
    rewrite Z.pow_succ_r by lia. lia. }
  assert (Canon : forall mz : positive,
             fexp prec emax (Zdigits2 (Zpos mz) + f) = f ->
             Zpos mz * 2 ^ (f + 1074) = v ->
             (exists m' e',
                 binary_round_aux prec emax s (Zpos mz) f loc_Exact
                 = S754_finite s m' e'
                 /\ -1074 <= e'
                 /\ 2 * Z.abs (Zpos m' * 2 ^ (e' + 1074) - v)
                    <= 2 ^ (f + 1074))
             \/ (binary_round_aux prec emax s (Zpos mz) f loc_Exact
                 = S754_infinity s
                 /\ 2 ^ 2099 - 2 ^ 2045 <= 2 * v)).
  { intros mz C V. rewrite (binary_round_aux_canonical s mz f C).
    destruct (Z.leb_spec f 971) as [L|L].
    - left. exists mz, f. split; [reflexivity|]. split; [exact Ff|].
      rewrite V, Z.sub_diag. cbn [Z.abs]. lia.
    - right. split; [reflexivity|]. apply Big; exact L. }
  unfold binary_round, shl_align.
  change (Zpos (digits2_pos m)) with (Zdigits2 (Zpos m)). fold f.
  destruct (f - e) as [|p|p] eqn:Ep.
  - assert (Hfe : f = e) by lia. pose proof Hfe as Hfe'. unfold f in Hfe'.
    rewrite <- Hfe. apply Canon; rewrite Hfe; [exact Hfe'|reflexivity].
  - destruct (binary_round_aux_round s m e E) as (m2 & R & M2 & ->).
    { fold f; lia. }
    fold f in R |- *. rewrite Ep in R.
    assert (HE : 2 ^ Zpos p * 2 ^ (e + 1074) = 2 ^ (f + 1074)).
    { rewrite <- Z.pow_add_r by lia. f_equal. lia. }
    assert (Hh : 0 < 2 ^ Zpos p) by (apply pow_pos_pos; lia).
    (* the error, scaled *)
    assert (Err : 2 * Z.abs (Zpos m2 * 2 ^ (f + 1074) - v) <= 2 ^ (f + 1074)).
    { rewrite <- HE. unfold v.
      replace (Zpos m2 * (2 ^ Zpos p * 2 ^ (e + 1074))
               - Zpos m * 2 ^ (e + 1074))
        with ((Zpos m2 * 2 ^ Zpos p - Zpos m) * 2 ^ (e + 1074)) by ring.
      rewrite Z.abs_mul, (Z.abs_eq (2 ^ (e + 1074))) by lia.
      rewrite Z.mul_assoc. apply Z.mul_le_mono_nonneg_r; lia. }
    destruct (Z.ltb_spec (Zpos m2) (2 ^ 53)) as [L|L].
    + destruct (Z.leb_spec f 971) as [L1|L1].
      * left. exists m2, f. split; [reflexivity|]. split; [exact Ff|].
        exact Err.
      * right. split; [reflexivity|]. apply Big; exact L1.
    + assert (Em2 : Zpos m2 = 2 ^ 53) by lia.
      destruct (Z.leb_spec (f + 1) 971) as [L1|L1].
      * left. exists 4503599627370496%positive, (f + 1).
        split; [reflexivity|]. split; [lia|].
        replace (f + 1 + 1074) with (Z.succ (f + 1074)) by lia.
        rewrite Z.pow_succ_r by lia. rewrite Em2 in Err.
        change (2 ^ 53) with (4503599627370496 * 2) in Err.
        replace (4503599627370496 * (2 * 2 ^ (f + 1074)))
          with (4503599627370496 * 2 * 2 ^ (f + 1074)) by ring.
        exact Err.
      * right. split; [reflexivity|].
        assert (T : 2 ^ 2045 <= 2 ^ (f + 1074))
          by (apply Z.pow_le_mono_r; lia).
        rewrite Em2 in Err.
        change (2 ^ 2099) with (2 ^ (54 + 2045)).
        rewrite Z.pow_add_r by lia.
        change (2 ^ 54) with 18014398509481984.
        change (2 ^ 53) with 9007199254740992 in Err.
        set (T0 := 2 ^ 2045) in *. set (F := 2 ^ (f + 1074)) in *.
        clearbody T0 F. lia.
  - apply Canon.
    + rewrite iter_xO, Zdigits2_shift by lia.
      replace (Zdigits2 (Zpos m) + Zpos p + f)
        with (Zdigits2 (Zpos m) + e) by lia.
      reflexivity.
    + rewrite iter_xO. unfold v. rewrite <- Z.mul_assoc.
      rewrite <- Z.pow_add_r by lia. do 2 f_equal. lia.
Qed.

(** The unit of the last place under a bound on the value. *)
Lemma fexp_bound m e k :
  -1021 <= k -> -1074 <= e ->
  Zpos m * 2 ^ (e + 1074) < 2 ^ (k + 1074) ->
  fexp prec emax (Zdigits2 (Zpos m) + e) <= k - 53.
Proof.
  intros K E V.
  pose proof (digits2_pos_bounds m) as D.
  change (Zpos (digits2_pos m)) with (Zdigits2 (Zpos m)) in D.
  pose proof (Zdigits2_log2 m). pose proof (Z.log2_nonneg (Zpos m)).
  assert (Pe : 0 < 2 ^ (e + 1074)) by (apply pow_pos_pos; lia).
  assert (L : 2 ^ (Zdigits2 (Zpos m) - 1 + (e + 1074)) < 2 ^ (k + 1074)).
  { rewrite Z.pow_add_r by lia.
    eapply Z.le_lt_trans; [|exact V].
    apply Z.mul_le_mono_nonneg_r; lia. }
  apply Z.pow_lt_mono_r_iff in L; try lia.
  rewrite fexp_eq. lia.
Qed.

(** ** Binary64 addition and subtraction: the error *)

Lemma SFscaled_finite s m e :
  -1074 <= e ->
  SFscaled (S754_finite s m e) = cond_Zopp s (Zpos m * 2 ^ (e + 1074)).
Proof.
  intros E. cbn [SFscaled]. rewrite Z.shiftl_mul_pow2 by lia. reflexivity.
Qed.

Lemma shl_align_scaled m e ez :
  ez <= e -> -1074 <= ez ->
  Zpos (fst (shl_align m e ez)) * 2 ^ (ez + 1074) = Zpos m * 2 ^ (e + 1074).
Proof.
  intros L E. unfold shl_align.
  destruct (ez - e) as [|p|p] eqn:Ep; cbn [fst].
  - do 2 f_equal. lia.
  - lia.
  - rewrite iter_xO, <- Z.mul_assoc, <- Z.pow_add_r by lia.
    do 2 f_equal. lia.
Qed.

Lemma cond_Zopp_mul s a b : cond_Zopp s a * b = cond_Zopp s (a * b).
Proof. destruct s; cbn [cond_Zopp]; lia. Qed.

Lemma pow_le_bound f k :
  -1021 <= k -> -1074 <= f -> f <= k - 53 -> 2 ^ (f + 1074) <= 2 ^ (k + 1021).
Proof. intros. apply Z.pow_le_mono_r; lia. Qed.

(** The sum of two finite doubles is the nearest double to the exact
    sum [S]: within half a unit of the last place of [S], and infinite
    only when [|S|] reaches [2^1024 - 2^970]. *)
Lemma SFadd_sharp x y :
  valid_binary x = true -> valid_binary y = true ->
  SFfinite x = true -> SFfinite y = true ->
  let S := SFscaled x + SFscaled y in
  (SFfinite (SF64add x y) = true
   /\ forall k, -1021 <= k -> Z.abs S < 2 ^ (k + 1074) ->
                2 * Z.abs (SFscaled (SF64add x y) - S) <= 2 ^ (k + 1021))
  \/ (SFfinite (SF64add x y) = false
      /\ 2 ^ 2099 - 2 ^ 2045 <= 2 * Z.abs S).
Proof.
  intros Vx Vy Fx Fy S.
  assert (Exact : forall r, SFfinite r = true -> SFscaled r = S ->
            SFfinite r = true
            /\ forall k, -1021 <= k -> Z.abs S < 2 ^ (k + 1074) ->
                         2 * Z.abs (SFscaled r - S) <= 2 ^ (k + 1021)).
  { intros r Fr Er. split; [exact Fr|]. intros k K _.
    rewrite Er, Z.sub_diag. cbn [Z.abs].
    pose proof (pow_pos_pos 2 (k + 1021)). lia. }
  destruct x as [sx|sx| |sx mx ex]; try discriminate;
    destruct y as [sy|sy| |sy my ey]; try discriminate.
  - left. apply Exact; [destruct sx, sy; reflexivity|].
    unfold S. destruct sx, sy; reflexivity.
  - left. apply Exact; [reflexivity|].
    unfold S, SF64add. cbn [SFadd SFscaled]. lia.
  - left. apply Exact; [reflexivity|].
    unfold S, SF64add. cbn [SFadd SFscaled]. lia.
  - cbn [valid_binary] in Vx, Vy.
    destruct (bounded_inv mx ex Vx) as (_ & _ & Ex & _).
    destruct (bounded_inv my ey Vy) as (_ & _ & Ey & _).
    unfold SF64add, SFadd.
    set (ez := Z.min ex ey).
    set (z := cond_Zopp sx (Zpos (fst (shl_align mx ex ez)))
              + cond_Zopp sy (Zpos (fst (shl_align my ey ez)))).
    assert (Ez : -1074 <= ez) by (unfold ez; lia).
    assert (Sz : S = z * 2 ^ (ez + 1074)).
    { unfold S, z. rewrite !SFscaled_finite by assumption.
      rewrite Z.mul_add_distr_r, !cond_Zopp_mul.
      rewrite !shl_align_scaled by (unfold ez; lia). reflexivity. }
    clearbody z. unfold binary_normalize.
    destruct z as [|m|m].
    + left. apply Exact; [reflexivity|]. rewrite Sz. reflexivity.
    + destruct (binary_round_sharp false m ez Ez)
        as [(m' & e' & -> & E' & R)|(-> & R)]; cbv zeta in R.
      * left. split; [reflexivity|]. intros k K B.
        rewrite SFscaled_finite by assumption. cbn [cond_Zopp].
        rewrite Sz in B |- *. rewrite Z.abs_eq in B by lia.
        eapply Z.le_trans; [exact R|].
        apply pow_le_bound; [exact K| rewrite fexp_eq; lia |].
        apply fexp_bound; assumption.
      * right. split; [reflexivity|]. rewrite Sz, Z.abs_eq by lia. exact R.
    + destruct (binary_round_sharp true m ez Ez)
        as [(m' & e' & -> & E' & R)|(-> & R)]; cbv zeta in R.
      * left. split; [reflexivity|]. intros k K B.
        rewrite SFscaled_finite by assumption. cbn [cond_Zopp].
        rewrite Sz in B |- *.
        assert (Pe : 0 < 2 ^ (ez + 1074)) by (apply pow_pos_pos; lia).
        replace (Z.abs (Zneg m * 2 ^ (ez + 1074)))
          with (Zpos m * 2 ^ (ez + 1074)) in B by lia.
        replace (Z.abs (- (Zpos m' * 2 ^ (e' + 1074))
                        - Zneg m * 2 ^ (ez + 1074)))
          with (Z.abs (Zpos m' * 2 ^ (e' + 1074) - Zpos m * 2 ^ (ez + 1074)))
          by lia.
        eapply Z.le_trans; [exact R|].
        apply pow_le_bound; [exact K| rewrite fexp_eq; lia |].
        apply fexp_bound; assumption.
      * right. split; [reflexivity|]. rewrite Sz.
        assert (Pe : 0 < 2 ^ (ez + 1074)) by (apply pow_pos_pos; lia).
        replace (Z.abs (Zneg m * 2 ^ (ez + 1074)))
          with (Zpos m * 2 ^ (ez + 1074)) by lia.
        exact R.
Qed.

Lemma SFsub_add_opp x y : SF64sub x y = SF64add x (SFopp y).
Proof.
  destruct x as [sx|sx| |sx mx ex], y as [sy|sy| |sy my ey];
    try reflexivity;
    destruct sx, sy; reflexivity.
Qed.

Lemma SFscaled_opp y : SFscaled (SFopp y) = - SFscaled y.
Proof.
  destruct y as [s|s| |s m e]; try reflexivity.
  cbn [SFopp SFscaled]. destruct s; cbn [negb cond_Zopp]; lia.
Qed.

Lemma SFopp_valid y :
  valid_binary (SFopp y) = valid_binary y.
Proof. destruct y; reflexivity. Qed.

Lemma SFopp_finite y : SFfinite (SFopp y) = SFfinite y.
Proof. destruct y; reflexivity. Qed.

(** The same on floats.  Below [2^1024 - 2^970] the sum is finite. *)
Lemma add_sharp x y :
  is_finite x = true -> is_finite y = true ->
  let S := scaled x + scaled y in
  (2 * Z.abs S < 2 ^ 2099 - 2 ^ 2045 -> is_finite (x + y) = true)
  /\ (is_finite (x + y) = true ->
      forall k, -1021 <= k -> Z.abs S < 2 ^ (k + 1074) ->
                2 * Z.abs (scaled (x + y) - S) <= 2 ^ (k + 1021)).
Proof.
  intros Fx Fy S. rewrite is_finite_spec in *. unfold scaled in *.
  rewrite add_spec.
  destruct (SFadd_sharp (Prim2SF x) (Prim2SF y) (Prim2SF_valid x)
                        (Prim2SF_valid y) Fx Fy) as [(F & B)|(F & B)];
    fold S in B.
  - split; [intros _; exact F|intros _; exact B].
  - rewrite F. split; [lia|discriminate].
Qed.

Lemma sub_sharp x y :
  is_finite x = true -> is_finite y = true ->
  let S := scaled x - scaled y in
  (2 * Z.abs S < 2 ^ 2099 - 2 ^ 2045 -> is_finite (x - y) = true)
  /\ (is_finite (x - y) = true ->
      forall k, -1021 <= k -> Z.abs S < 2 ^ (k + 1074) ->
                2 * Z.abs (scaled (x - y) - S) <= 2 ^ (k + 1021)).
Proof.
  intros Fx Fy S. rewrite is_finite_spec in *. unfold scaled in *.
  rewrite sub_spec, SFsub_add_opp.
  assert (Vy : valid_binary (SFopp (Prim2SF y)) = true)
    by (rewrite SFopp_valid; apply Prim2SF_valid).
  assert (Fy' : SFfinite (SFopp (Prim2SF y)) = true)
    by (rewrite SFopp_finite; exact Fy).
  destruct (SFadd_sharp (Prim2SF x) (SFopp (Prim2SF y)) (Prim2SF_valid x)
                        Vy Fx Fy') as [(F & B)|(F & B)];
    rewrite SFscaled_opp in B;
    change (SFscaled (Prim2SF x) + - SFscaled (Prim2SF y)) with S in B.
  - split; [intros _; exact F|intros _; exact B].
  - rewrite F. split; [lia|discriminate].
Qed.

Local Close Scope Z_scope.

(** ** The round trip of [encrypt] and [decrypt] *)

Lemma noise_range d :
  d < 100 -> noise_in_range d = true.
Proof.
  apply (below_all 100 noise_in_range).
  vm_cast_no_check (eq_refl true).
Qed.

Local Open Scope Z_scope.

Lemma below_overflow S k :
  k <= 1023 -> Z.abs S < 2 ^ (k + 1074) ->
  2 * Z.abs S < 2 ^ 2099 - 2 ^ 2045.
Proof.
  intros K B.
  assert (L : 2 ^ (k + 1074) <= 2 ^ 2097) by (apply Z.pow_le_mono_r; lia).
  change (2 ^ 2099) with (2 ^ (2 + 2097)).
  change (2 ^ 2045) with (2 ^ (2097 - 52)) .
  assert (M : 2 ^ (2097 - 52) <= 2 ^ 2097) by (apply Z.pow_le_mono_r; lia).
  rewrite Z.pow_add_r by lia. change (2 ^ 2) with 4.
  set (T := 2 ^ 2097) in *. set (T' := 2 ^ (2097 - 52)) in *.
  clearbody T T'. lia.
Qed.

Lemma add_bounded x y k :
  is_finite x = true -> is_finite y = true -> -1021 <= k <= 1023 ->
  Z.abs (scaled x + scaled y) < 2 ^ (k + 1074) ->
  is_finite (x + y) = true
  /\ 2 * Z.abs (scaled (x + y) - (scaled x + scaled y)) <= 2 ^ (k + 1021).
Proof.
  intros Fx Fy K B. destruct (add_sharp x y Fx Fy) as (F & E).
  cbv zeta in F, E.
  assert (Fin : is_finite (x + y) = true)
    by (apply F; apply (below_overflow _ k); [lia|exact B]).
  split; [exact Fin|]. apply E; [exact Fin|lia|exact B].
Qed.

Lemma sub_bounded x y k :
  is_finite x = true -> is_finite y = true -> -1021 <= k <= 1023 ->
  Z.abs (scaled x - scaled y) < 2 ^ (k + 1074) ->
  is_finite (x - y) = true
  /\ 2 * Z.abs (scaled (x - y) - (scaled x - scaled y)) <= 2 ^ (k + 1021).
Proof.
  intros Fx Fy K B. destruct (sub_sharp x y Fx Fy) as (F & E).
  cbv zeta in F, E.
  assert (Fin : is_finite (x - y) = true)
    by (apply F; apply (below_overflow _ k); [lia|exact B]).
  split; [exact Fin|]. apply E; [exact Fin|lia|exact B].
Qed.

(** One element: below [2^32] each of the two roundings is off by at
    most [2^-21], and [2 * 2^-21 <= 1e-6]. *)
Lemma element_roundtrip v d :
  is_finite v = true -> magnitude_le v 4294967296 -> (d < 100)%N ->
  close (encrypt_then_decrypt v d) v.
Proof.
  intros Fv Mv Hd. unfold encrypt_then_decrypt.
  pose proof (noise_range d Hd) as R. unfold noise_in_range in R.
  apply andb_prop in R. destruct R as (R & R4).
  apply andb_prop in R. destruct R as (R & R3).
  apply andb_prop in R. destruct R as (R1 & _).
  apply Z.leb_le in R3, R4.
  set (n := noise_of_draw d) in *. clearbody n.
  unfold magnitude_le in Mv. rewrite unit_scaled_pow in *.
  assert (Hp : 2 ^ 1074 = 2097152 * 2 ^ 1053).
  { change 1074 with (21 + 1053). rewrite Z.pow_add_r by lia. reflexivity. }
  assert (H33 : 2 ^ (33 + 1074) = 18014398509481984 * 2 ^ 1053).
  { change (33 + 1074) with (54 + 1053). rewrite Z.pow_add_r by lia.
    reflexivity. }
  assert (H54 : 2 ^ (33 + 1021) = 2 * 2 ^ 1053).
  { change (33 + 1021) with (1 + 1053). rewrite Z.pow_add_r by lia.
    reflexivity. }
  assert (Pp : 0 < 2 ^ 1053) by (apply pow_pos_pos; lia).
  destruct (add_bounded v n 33 Fv R1 ltac:(lia)) as (F1 & E1).
  { rewrite H33. rewrite Hp in *. set (P := 2 ^ 1053) in *. clearbody P.
    lia. }
  destruct (sub_bounded (v + n) n 33 F1 R1 ltac:(lia)) as (F2 & E2).
  { rewrite H33. rewrite H54 in E1. rewrite Hp in *.
    set (P := 2 ^ 1053) in *. clearbody P. lia. }
  split; [exact F2|]. split; [exact Fv|].
  unfold within_1e6. rewrite unit_scaled_pow.
  rewrite H54 in E1, E2. rewrite Hp in *.
  set (P := 2 ^ 1053) in *. clearbody P. lia.
Qed.

Local Close Scope Z_scope.

Lemma roundtrip_elements v d :
  forallb isfinite v = true ->
  Forall (fun x => magnitude_le x 4294967296) v -> d < 100 ->
  Forall2 close
    (map (fun value => (value - noise_of_draw d)%float)
         (map (fun x => (x + noise_of_draw d)%float) v)) v.
Proof.
  intros F M Hd. induction v as [|x v IH]; [constructor|].
  cbn [forallb] in F. apply andb_prop in F. destruct F as (Fx & Fv).
  inversion M as [|? ? Mx Mv]; subst.
  cbn [map]. constructor; [|apply IH; assumption].
  apply (element_roundtrip x d); assumption.
Qed.

(** C1, as the code has it.  The claim as worded, for every finite
    value, does not hold: [roundtrip_counterexample].  It holds for
    values of magnitude at most [2^32]: on an engine whose keys have
    been generated, for a non-empty sequence [v] of finite floats of
    magnitude at most 4294967296 and a noise draw below 100, [encrypt]
    returns a ciphertext, [decrypt] of it returns a sequence of the same
    length as [v], and its i-th element is within 1e-6 of [v[i]]. *)
Theorem roundtrip_bounded self v draw now :
  keys_generated self = true ->
  v <> [] ->
  forallb isfinite v = true ->
  Forall (fun x => magnitude_le x 4294967296) v ->
  draw < 100 ->
  exists c out,
    encrypt self v draw now = Ok c
    /\ decrypt self c = Ok out
    /\ length out = length v
    /\ Forall2 close out v.
Proof.
  intros K Hv F M Hd.
  destruct (keys_generated_inv self K) as (p & s & c0 & k0 & Hp & Hs & Hk).
  destruct (self_key_id_generated self K) as (k & Ek & _).
  unfold encrypt. rewrite Hp.
  destruct v as [|x v']; [congruence|].
  rewrite F. cbn [negb]. rewrite Ek. cbn [bind].
  eexists. eexists. split; [reflexivity|].
  unfold decrypt. rewrite Hs. cbn [payload noise].
  split; [reflexivity|]. split.
  - rewrite !length_map. reflexivity.
  - apply (roundtrip_elements (x :: v') draw); assumption.
Qed.

Lemma roundtrip_bounded_witness :
  exists c out,
    encrypt demo_engine [1.5; -2; 4294967296]%float 7 zero = Ok c
    /\ decrypt demo_engine c = Ok out
    /\ length out = 3%nat
    /\ Forall2 close out [1.5; -2; 4294967296]%float.
Proof.
  apply (roundtrip_bounded demo_engine [1.5; -2; 4294967296]%float 7 zero).
  - reflexivity.
  - discriminate.
  - reflexivity.
  - repeat constructor; unfold magnitude_le; vm_compute; discriminate.
  - reflexivity.
Defined.

(** C1 as worded fails on a large value: with the draw 5 the noise is
    0.5, and [2^52 + 1] comes back as [2^52 + 2]. *)
Lemma roundtrip_counterexample :
  keys_generated demo_engine = true
  /\ isfinite 4503599627370497 = true
  /\ (c <- encrypt demo_engine [4503599627370497%float] 5 zero ;;
      decrypt demo_engine c) = Ok [4503599627370498%float]
  /\ within_1e6b (scaled 4503599627370498) (scaled 4503599627370497) = false.
Proof.
  vm_compute. repeat split.
Qed.

(** ** The ciphertext invariant *)

Local Open Scope Z_scope.

(** The largest double is [(2^53 - 1) * 2^971]. *)
Lemma scaled_max x : Z.abs (scaled x) <= 2 ^ 2098 - 2 ^ 2045.
Proof.
  unfold scaled. pose proof (Prim2SF_valid x) as V.
  assert (P45 : 0 < 2 ^ 2045) by (apply pow_pos_pos; lia).
  assert (H98 : 2 ^ 2098 = 9007199254740992 * 2 ^ 2045).
  { change 2098 with (53 + 2045). rewrite Z.pow_add_r by lia. reflexivity. }
  destruct (Prim2SF x) as [s|s| |s m e]; cbn [SFscaled Z.abs]; try lia.
  cbn [valid_binary] in V.
  destruct (bounded_inv m e V) as (_ & E1 & E2 & D).
  rewrite Z.shiftl_mul_pow2 by lia.
  pose proof (digits2_pos_bounds m) as B.
  change (Zpos (digits2_pos m)) with (Zdigits2 (Zpos m)) in B.
  assert (Zpos m < 2 ^ 53).
  { eapply Z.lt_le_trans; [exact (proj2 B)|].
    apply Z.pow_le_mono_r; lia. }
  assert (2 ^ (e + 1074) <= 2 ^ 2045) by (apply Z.pow_le_mono_r; lia).
  assert (0 < 2 ^ (e + 1074)) by (apply pow_pos_pos; lia).
  change (2 ^ 53) with 9007199254740992 in *.
  rewrite H98.
  replace (Z.abs (cond_Zopp s (Zpos m * 2 ^ (e + 1074))))
    with (Zpos m * 2 ^ (e + 1074)) by (destruct s; cbn [cond_Zopp]; lia).
  set (T := 2 ^ 2045) in *. set (P := 2 ^ (e + 1074)) in *.
  clearbody T P. nia.
Qed.

(** Adding a float of magnitude at most 10 to a finite float does not
    overflow. *)
Lemma add_small_finite x c :
  is_finite x = true -> is_finite c = true ->
  Z.abs (scaled c) <= 10 * unit_scaled ->
  is_finite (x + c) = true /\ is_finite (c + x) = true.
Proof.
  intros Fx Fc C. rewrite unit_scaled_pow in C.
  pose proof (scaled_max x) as M.
  assert (H98 : 2 ^ 2098 = 9007199254740992 * 2 ^ 2045).
  { change 2098 with (53 + 2045). rewrite Z.pow_add_r by lia. reflexivity. }
  assert (H99 : 2 ^ 2099 = 18014398509481984 * 2 ^ 2045).
  { change 2099 with (54 + 2045). rewrite Z.pow_add_r by lia. reflexivity. }
  assert (H45 : 2 ^ 2045 = 2 ^ 971 * 2 ^ 1074).
  { change 2045 with (971 + 1074). rewrite Z.pow_add_r by lia. reflexivity. }
  assert (P : 32 <= 2 ^ 971).
  { change 32 with (2 ^ 5). apply Z.pow_le_mono_r; lia. }
  assert (U : 0 < 2 ^ 1074) by (apply pow_pos_pos; lia).
  assert (S : 2 * (Z.abs (scaled x) + Z.abs (scaled c))
              < 2 ^ 2099 - 2 ^ 2045).
  { rewrite H99. rewrite H98 in M. rewrite H45 in *.
    set (A := 2 ^ 971) in *. set (B := 2 ^ 1074) in *. clearbody A B. nia. }
  split.
  - apply (proj1 (add_sharp x c Fx Fc)). lia.
  - apply (proj1 (add_sharp c x Fc Fx)). lia.
Qed.

Local Close Scope Z_scope.

Lemma noise_step n c :
  is_finite c = true -> nonneg c = true ->
  (Z.abs (scaled c) <=? 10 * unit_scaled)%Z = true ->
  isfinite n = true -> nonneg n = true ->
  isfinite (n + c) = true /\ nonneg (n + c) = true.
Proof.
  intros Fc Nc C Fn Nn. apply Z.leb_le in C. split.
  - apply (add_small_finite n c); assumption.
  - apply add_nonneg; assumption.
Qed.

Lemma encrypt_payload_finite v d :
  forallb isfinite v = true -> d < 100 ->
  forallb isfinite (map (fun x => (x + noise_of_draw d)%float) v) = true.
Proof.
  intros F Hd.
  pose proof (noise_range d Hd) as R. unfold noise_in_range in R.
  apply andb_prop in R. destruct R as (R & R4).
  apply andb_prop in R. destruct R as (R & R3).
  apply andb_prop in R. destruct R as (R1 & _).
  apply Z.leb_le in R3, R4.
  induction v as [|x v IH]; [reflexivity|].
  cbn [forallb] in F. apply andb_prop in F. destruct F as (Fx & Fv).
  cbn [map forallb]. rewrite (IH Fv), andb_true_r.
  apply (add_small_finite x (noise_of_draw d)); [assumption..|lia].
Qed.

Lemma encrypt_invariant self values draw now c :
  draw < 100 -> encrypt self values draw now = Ok c -> invariant c.
Proof.
  intros Hd. unfold encrypt.
  destruct (_public_key self); [|discriminate].
  destruct values as [|x v]; [discriminate|].
  destruct (forallb isfinite (x :: v)) eqn:F; cbn [negb]; [|discriminate].
  destruct (self_key_id self) as [k|e]; cbn [bind]; [|discriminate].
  intros E. injection E as <-.
  pose proof (noise_range draw Hd) as R. unfold noise_in_range in R.
  apply andb_prop in R. destruct R as (R & _).
  apply andb_prop in R. destruct R as (R & _).
  apply andb_prop in R. destruct R as (R1 & R2).
  unfold invariant. cbn [payload noise]. repeat split.
  - discriminate.
  - apply (encrypt_payload_finite (x :: v) draw); assumption.
  - exact R1.
  - exact R2.
Qed.

Lemma unary_invariant self call x c0 c :
  resolves x c0 -> invariant c0 -> run_unary self call x = Ok c ->
  payload c <> [] /\ isfinite (noise c) = true /\ nonneg (noise c) = true.
Proof.
  intros Rx (P0 & _ & Fn & Nn) Run.
  destruct (unary_ok_inv self call x c Run) as (c0' & Ec).
  pose proof Ec as Ec'. rewrite (resolves_coerce self x c0 Rx) in Ec'.
  destruct (_validate_ciphertext self c0) as [[]|e]; [|discriminate].
  cbn [bind] in Ec'. injection Ec' as <-.
  destruct call as [scalar now|coefficients now|now|weights bias now];
    cbn [run_unary] in Run.
  - unfold scalar_mul in Run. rewrite Ec in Run. cbn [bind] in Run.
    destruct (self_key_id self); [|discriminate]. cbn [bind] in Run.
    injection Run as <-. cbn [payload noise]. split.
    + destruct (payload c0); [congruence|discriminate].
    + apply noise_step; try assumption; reflexivity.
  - unfold polynomial in Run. rewrite Ec in Run. cbn [bind] in Run.
    destruct coefficients as [|c1 cs]; [discriminate|].
    destruct (self_key_id self); [|discriminate]. cbn [bind] in Run.
    injection Run as <-. cbn [payload noise]. split.
    + rewrite polynomial_loop_map.
      destruct (payload c0); [congruence|discriminate].
    + apply noise_step; try assumption; reflexivity.
  - unfold mean in Run. rewrite Ec in Run. cbn [bind] in Run.
    destruct (self_key_id self); [|discriminate]. cbn [bind] in Run.
    injection Run as <-. cbn [payload noise]. split; [discriminate|].
    apply noise_step; try assumption; reflexivity.
  - unfold linear_model in Run. rewrite Ec in Run. cbn [bind] in Run.
    destruct (negb _); [discriminate|].
    destruct (self_key_id self); [|discriminate]. cbn [bind] in Run.
    injection Run as <-. cbn [payload noise]. split; [discriminate|].
    apply noise_step; try assumption; reflexivity.
Qed.

Lemma one_nonneg : nonneg 1 = true.
Proof. reflexivity. Qed.

Lemma half_nonneg : nonneg 0.5 = true.
Proof. reflexivity. Qed.

Lemma binary_invariant self call x y cx cy c :
  resolves x cx -> resolves y cy -> invariant cx -> invariant cy ->
  run_binary self call x y = Ok c ->
  payload c <> [] /\ nonneg (noise c) = true.
Proof.
  intros Rx Ry (Px & _ & _ & Nx) (Py & _ & _ & Ny) Run.
  destruct (binary_ok_inv self call x y c Run) as (a & b & Ea & Eb).
  pose proof Ea as Ea'. rewrite (resolves_coerce self x cx Rx) in Ea'.
  destruct (_validate_ciphertext self cx) as [[]|e]; [|discriminate].
  cbn [bind] in Ea'. injection Ea' as <-.
  pose proof Eb as Eb'. rewrite (resolves_coerce self y cy Ry) in Eb'.
  destruct (_validate_ciphertext self cy) as [[]|e]; [|discriminate].
  cbn [bind] in Eb'. injection Eb' as <-.
  destruct call as [now|now|now]; cbn [run_binary] in Run.
  - unfold add in Run. rewrite Ea, Eb in Run. cbn [bind] in Run.
    destruct (negb _); [discriminate|].
    destruct (self_key_id self); [|discriminate]. cbn [bind] in Run.
    injection Run as <-. cbn [payload noise]. split.
    + destruct (payload cx); [congruence|].
      destruct (payload cy); [congruence|discriminate].
    + apply div2_nonneg, add_nonneg; assumption.
  - unfold mul in Run. rewrite Ea, Eb in Run. cbn [bind] in Run.
    destruct (negb _); [discriminate|].
    destruct (self_key_id self); [|discriminate]. cbn [bind] in Run.
    injection Run as <-. cbn [payload noise]. split.
    + destruct (payload cx); [congruence|].
      destruct (payload cy); [congruence|discriminate].
    + apply add_nonneg; [apply add_nonneg; assumption|exact one_nonneg].
  - unfold dot in Run. rewrite Ea, Eb in Run. cbn [bind] in Run.
    destruct (negb _); [discriminate|].
    destruct (self_key_id self); [|discriminate]. cbn [bind] in Run.
    injection Run as <-. cbn [payload noise]. split; [discriminate|].
    apply add_nonneg; [apply add_nonneg; assumption|exact half_nonneg].
Qed.

(** C8 as worded fails: the payload of an arithmetic result need not be
    finite.  [encrypt] of [1e200] with the draw 0 satisfies the
    invariant, and [scalar_mul] of it by [1e200] has the payload
    [Infinity]. *)
Lemma invariant_counterexample :
  let c0 := demo_ct [1e200]%float zero in
  encrypt demo_engine [1e200]%float 0 zero = Ok c0
  /\ invariant c0
  /\ run_unary demo_engine (CallScalarMul 1e200 zero) (Object c0)
     = Ok (demo_ct [infinity] 0.2%float)
  /\ forallb isfinite [infinity] = false.
Proof.
  vm_compute. repeat split. discriminate.
Qed.

(** C8, as the code has it.  A ciphertext that [encrypt] returns (the
    noise draw is below 100) satisfies the invariant: non-empty payload,
    finite payload values, finite and non-negative noise.  For operand
    ciphertexts that satisfy the invariant, a ciphertext that
    [scalar_mul], [polynomial], [mean] or [linear_model] returns has a
    non-empty payload and a finite, non-negative noise, and a ciphertext
    that [add], [mul] or [dot] returns has a non-empty payload and a
    non-negative noise.  The payload values of these results need not be
    finite: [invariant_counterexample]. *)
Theorem invariant_kept self :
  (forall values draw now c,
      draw < 100 -> encrypt self values draw now = Ok c -> invariant c)
  /\ (forall call x c0 c,
         resolves x c0 -> invariant c0 -> run_unary self call x = Ok c ->
         payload c <> [] /\ isfinite (noise c) = true
         /\ nonneg (noise c) = true)
  /\ (forall call x y cx cy c,
         resolves x cx -> resolves y cy -> invariant cx -> invariant cy ->
         run_binary self call x y = Ok c ->
         payload c <> [] /\ nonneg (noise c) = true).
Proof.
  split; [|split].
  - apply encrypt_invariant.
  - apply unary_invariant.
  - apply binary_invariant.
Qed.

Lemma invariant_kept_witness :
  invariant (mkCiphertext (u "00112233aabbccdd")
                          [(1.5 + noise_of_draw 7)%float]
                          (noise_of_draw 7) zero)
  /\ nonneg (noise_of_draw 7 + 0.2)%float = true.
Proof.
  split.
  - exact (proj1 (invariant_kept demo_engine) [1.5%float] 7 zero _
                 eq_refl eq_refl).
  - refine (proj2 (proj2
             (proj1 (proj2 (invariant_kept demo_engine))
                    (CallScalarMul 2 zero)
                    (Object (demo_ct [1.5%float] (noise_of_draw 7)))
                    (demo_ct [1.5%float] (noise_of_draw 7))
                    (mkCiphertext (u "00112233aabbccdd") [3%float]
                                  (noise_of_draw 7 + 0.2)%float zero)
                    eq_refl _ eq_refl))).
    repeat split. discriminate.
Defined.

(* ================================================================= *)
(** * Further properties of the engine *)

(** ** [encrypt]: when it fails *)

(** X1. [encrypt] looks at the public key first, then at the values: without
    a public key it fails with [KeysNotInitialized] whatever the values
    are; on an engine with keys it succeeds exactly on a non-empty
    sequence of finite floats, and fails with [InvalidInput] on every
    other one. *)
Theorem encrypt_outcome self values draw now :
  (_public_key self = None ->
   encrypt self values draw now = Raise KeysNotInitialized)
  /\ (keys_generated self = true ->
      (values = [] \/ forallb isfinite values = false ->
       encrypt self values draw now = Raise InvalidInput)
      /\ (values <> [] -> forallb isfinite values = true ->
          exists k,
            _key_id self = Some k
            /\ encrypt self values draw now
               = Ok (mkCiphertext k
                       (map (fun v => (v + float_of_N draw / 10)%float)
                            values)
                       (float_of_N draw / 10)%float now))).
Proof.
  split.
  - intros P. unfold encrypt. rewrite P. reflexivity.
  - intros K.
    destruct (keys_generated_inv self K) as (p & s & c & k & Hp & _ & Hk).
    destruct (self_key_id_generated self K) as (k' & Ek & Ek').
    split.
    + intros [-> | F]; unfold encrypt; rewrite Hp; [reflexivity|].
      destruct values as [|v vs]; [reflexivity|]. rewrite F. reflexivity.
    + intros Hv F. exists k'. split; [exact Ek'|].
      unfold encrypt. rewrite Hp.
      destruct values as [|v vs]; [congruence|].
      rewrite F, Ek. reflexivity.
Qed.

Lemma encrypt_outcome_witness :
  encrypt demo_engine [1; nan; 2]%float 3 zero = Raise InvalidInput.
Proof.
  apply (proj1 (proj2 (encrypt_outcome demo_engine [1; nan; 2]%float 3 zero)
                      eq_refl)).
  right. reflexivity.
Defined.

(** ** [generate_keys] and the key store *)

Lemma dict_find_cons k k' v d :
  dict_find k ((k', v) :: d)
  = if text_eqb k k' then Some v else dict_find k d.
Proof. reflexivity. Qed.

(** X2. [generate_keys] makes [kid] the active key of the engine, returns
    [kid] with the public key, and registers the pair in the key store:
    the store then answers for [kid] with the new public key and holds a
    secret for it, and answers for every other identifier as before. *)
Theorem generate_keys_registers self store kid public secret :
  kid <> [] ->
  let '(engine, store', context) :=
    generate_keys self store kid public secret in
  keys_generated engine = true
  /\ self_key_id engine = Ok kid
  /\ context = (kid, public)
  /\ get_public_key store' kid = Some public
  /\ has_secret store' kid = true
  /\ (forall other, other <> kid ->
        get_public_key store' other = get_public_key store other
        /\ has_secret store' other = has_secret store other).
Proof.
  intros Hk. cbn [generate_keys].
  destruct kid as [|c k]; [congruence|].
  repeat split.
  - unfold get_public_key, save_keys. cbn [_public_keys].
    rewrite dict_find_cons, text_eqb_refl. reflexivity.
  - unfold has_secret, save_keys. cbn [_secret_keys].
    rewrite dict_find_cons, text_eqb_refl. reflexivity.
  - unfold get_public_key, save_keys. cbn [_public_keys].
    rewrite dict_find_cons, (text_eqb_neq _ _ H). reflexivity.
  - unfold has_secret, save_keys. cbn [_secret_keys].
    rewrite dict_find_cons, (text_eqb_neq _ _ H). reflexivity.
Qed.

Lemma generate_keys_registers_witness :
  get_public_key
    (snd (fst (generate_keys new_engine (mkKeyStore [] [])
                             (u "00112233aabbccdd") (u "pub") (u "sec"))))
    (u "00112233aabbccdd")
  = Some (u "pub").
Proof.
  pose proof (generate_keys_registers new_engine (mkKeyStore [] [])
                (u "00112233aabbccdd") (u "pub") (u "sec")) as H.
  cbv beta iota zeta delta [generate_keys] in H.
  refine (proj1 (proj2 (proj2 (proj2 (H _))))).
  discriminate.
Defined.

(** ** What the operators return *)

Lemma coerce_object_inv self c c' :
  _coerce_ciphertext self (Object c) = Ok c' ->
  c' = c /\ _validate_ciphertext self c = Ok tt.
Proof.
  unfold _coerce_ciphertext. cbn [bind].
  destruct (_validate_ciphertext self c) as [[]|e]; [|discriminate].
  cbn [bind]. intros E; injection E as <-. split; reflexivity.
Qed.

Lemma self_key_id_inv self k : self_key_id self = Ok k -> _key_id self = Some k.
Proof.
  unfold self_key_id. destruct (_key_id self) as [[|c r]|]; try discriminate.
  intros E; injection E as <-. reflexivity.
Qed.

Lemma unary_result self call x c0 c :
  _coerce_ciphertext self x = Ok c0 ->
  run_unary self call x = Ok c ->
  c = mkCiphertext (key_id c0) (unary_payload call (payload c0))
                   (noise c) (unary_now call)
  /\ _key_id self = Some (key_id c0).
Proof.
  intros Ec Run.
  destruct (validate_inv self c0 (coerce_valid self x c0 Ec)) as (Hk & _).
  assert (Sk : forall k, self_key_id self = Ok k -> k = key_id c0).
  { intros k E. apply self_key_id_inv in E. congruence. }
  split; [|exact Hk].
  destruct call as [scalar now|coefficients now|now|weights bias now];
    cbn [run_unary] in Run.
  - unfold scalar_mul in Run. rewrite Ec in Run. cbn [bind] in Run.
    destruct (self_key_id self) as [k|] eqn:Ek; [|discriminate].
    cbn [bind] in Run. injection Run as <-. rewrite (Sk k eq_refl).
    reflexivity.
  - unfold polynomial in Run. rewrite Ec in Run. cbn [bind] in Run.
    destruct coefficients as [|c1 cs]; [discriminate|].
    destruct (self_key_id self) as [k|] eqn:Ek; [|discriminate].
    cbn [bind] in Run. injection Run as <-. rewrite (Sk k eq_refl).
    rewrite polynomial_loop_map. reflexivity.
  - unfold mean in Run. rewrite Ec in Run. cbn [bind] in Run.
    destruct (self_key_id self) as [k|] eqn:Ek; [|discriminate].
    cbn [bind] in Run. injection Run as <-. rewrite (Sk k eq_refl).
    reflexivity.
  - unfold linear_model in Run. rewrite Ec in Run. cbn [bind] in Run.
    destruct (negb _); [discriminate|].
    destruct (self_key_id self) as [k|] eqn:Ek; [|discriminate].
    cbn [bind] in Run. injection Run as <-. rewrite (Sk k eq_refl).
    reflexivity.
Qed.

Lemma binary_result self call x y cx cy c :
  _coerce_ciphertext self x = Ok cx ->
  _coerce_ciphertext self y = Ok cy ->
  run_binary self call x y = Ok c ->
  c = mkCiphertext (key_id cx)
                   (binary_payload call (payload cx) (payload cy))
                   (noise c) (binary_now call)
  /\ _key_id self = Some (key_id cx)
  /\ key_id cy = key_id cx
  /\ length (payload cx) = length (payload cy).
Proof.
  intros Ex Ey Run.
  destruct (validate_inv self cx (coerce_valid self x cx Ex)) as (Hx & _).
  destruct (validate_inv self cy (coerce_valid self y cy Ey)) as (Hy & _).
  assert (Sk : forall k, self_key_id self = Ok k -> k = key_id cx).
  { intros k E. apply self_key_id_inv in E. congruence. }
  assert (L : forall r : result Ciphertext,
             (if negb (length (payload cx) =? length (payload cy))%nat
              then Raise DimensionMismatch else r) = Ok c ->
             length (payload cx) = length (payload cy) /\ r = Ok c).
  { intros r. destruct (Nat.eqb_spec (length (payload cx))
                                     (length (payload cy))) as [E|E];
      cbn [negb]; [auto|discriminate]. }
  assert (Kxy : key_id cy = key_id cx) by congruence.
  destruct call as [now|now|now]; cbn [run_binary] in Run.
  - unfold add in Run. rewrite Ex, Ey in Run. cbn [bind] in Run.
    apply L in Run. destruct Run as (Len & Run).
    destruct (self_key_id self) as [k|] eqn:Ek; [|discriminate].
    cbn [bind] in Run. injection Run as <-. rewrite (Sk k eq_refl).
    repeat split; assumption.
  - unfold mul in Run. rewrite Ex, Ey in Run. cbn [bind] in Run.
    apply L in Run. destruct Run as (Len & Run).
    destruct (self_key_id self) as [k|] eqn:Ek; [|discriminate].
    cbn [bind] in Run. injection Run as <-. rewrite (Sk k eq_refl).
    repeat split; assumption.
  - unfold dot in Run. rewrite Ex, Ey in Run. cbn [bind] in Run.
    apply L in Run. destruct Run as (Len & Run).
    destruct (self_key_id self) as [k|] eqn:Ek; [|discriminate].
    cbn [bind] in Run. injection Run as <-. rewrite (Sk k eq_refl).
    repeat split; assumption.
Qed.

(** X3. A ciphertext that an operator with one operand returns carries the
    active key, which is the operand's, and the time of the call.
    [scalar_mul] returns the operand's payload with every element
    multiplied by the scalar, [polynomial] returns it with every element
    replaced by Horner's value of the coefficients there; [mean] returns
    a payload of exactly one element, and so does [linear_model], which
    has as many weights as the operand has elements. *)
Theorem unary_result_shape self call x c0 c :
  resolves x c0 ->
  run_unary self call x = Ok c ->
  _key_id self = Some (key_id c)
  /\ key_id c = key_id c0
  /\ created_at c = unary_now call
  /\ match call with
     | CallScalarMul scalar _ =>
         payload c = map (fun value => (value * scalar)%float) (payload c0)
     | CallPolynomial coefficients _ =>
         payload c = map (horner coefficients) (payload c0)
     | CallMean _ => length (payload c) = 1%nat
     | CallLinearModel weights _ _ =>
         length (payload c) = 1%nat
         /\ length weights = length (payload c0)
     end.
Proof.
  intros Rx Run.
  destruct (unary_ok_inv self call x c Run) as (c0' & Ec).
  pose proof Ec as Ec'. rewrite (resolves_coerce self x c0 Rx) in Ec'.
  destruct (_validate_ciphertext self c0) as [[]|e]; [|discriminate].
  cbn [bind] in Ec'. injection Ec' as <-.
  destruct (unary_result self call x c0 c Ec Run) as (E & K).
  assert (W : match call with
              | CallLinearModel weights _ _ =>
                  length weights = length (payload c0)
              | _ => True
              end).
  { destruct call as [scalar now|coefficients now|now|weights bias now];
      try exact I.
    cbn [run_unary] in Run. unfold linear_model in Run.
    rewrite Ec in Run. cbn [bind] in Run.
    destruct (Nat.eqb_spec (length weights) (length (payload c0)))
      as [L|L]; [exact L|discriminate]. }
  rewrite E. cbn [key_id payload created_at].
  repeat (split; [first [exact K | reflexivity]|]).
  destruct call; cbn [unary_payload]; try reflexivity.
  split; [reflexivity|exact W].
Qed.

Lemma unary_result_shape_witness :
  payload (mkCiphertext (u "00112233aabbccdd")
             (map (fun value => (value * 2)%float) [1; 2; 6]%float)
             (0.5 + 0.2)%float zero)
  = map (fun value => (value * 2)%float)
        (payload (demo_ct [1; 2; 6]%float 0.5%float)).
Proof.
  exact (proj2 (proj2 (proj2
    (unary_result_shape demo_engine (CallScalarMul 2 zero)
       (Object (demo_ct [1; 2; 6]%float 0.5%float))
       (demo_ct [1; 2; 6]%float 0.5%float)
       (mkCiphertext (u "00112233aabbccdd")
          (map (fun value => (value * 2)%float) [1; 2; 6]%float)
          (0.5 + 0.2)%float zero)
       eq_refl eq_refl)))).
Defined.

(** X4. A ciphertext that [add], [mul] or [dot] returns: the operands have
    the active key and payloads of one length; the result carries that
    key and the time of the call; the payload of [add] and of [mul] has
    the operands' length, with the sum, respectively the product, of the
    operands' elements at each index, and the payload of [dot] has
    exactly one element. *)
Theorem binary_result_shape self call x y cx cy c :
  resolves x cx -> resolves y cy ->
  run_binary self call x y = Ok c ->
  _key_id self = Some (key_id c)
  /\ key_id cx = key_id c /\ key_id cy = key_id c
  /\ created_at c = binary_now call
  /\ length (payload cx) = length (payload cy)
  /\ match call with
     | CallAdd _ =>
         length (payload c) = length (payload cx)
         /\ forall i, (i < length (payload cx))%nat ->
              nth i (payload c) zero
              = (nth i (payload cx) zero + nth i (payload cy) zero)%float
     | CallMul _ =>
         length (payload c) = length (payload cx)
         /\ forall i, (i < length (payload cx))%nat ->
              nth i (payload c) zero
              = (nth i (payload cx) zero * nth i (payload cy) zero)%float
     | CallDot _ => length (payload c) = 1%nat
     end.
Proof.
  intros Rx Ry Run.
  destruct (binary_ok_inv self call x y c Run) as (a & b & Ea & Eb).
  pose proof Ea as Ea'. rewrite (resolves_coerce self x cx Rx) in Ea'.
  destruct (_validate_ciphertext self cx) as [[]|e]; [|discriminate].
  cbn [bind] in Ea'. injection Ea' as <-.
  pose proof Eb as Eb'. rewrite (resolves_coerce self y cy Ry) in Eb'.
  destruct (_validate_ciphertext self cy) as [[]|e]; [|discriminate].
  cbn [bind] in Eb'. injection Eb' as <-.
  destruct (binary_result self call x y cx cy c Ea Eb Run)
    as (E & K & Kxy & Len).
  rewrite E. cbn [key_id payload created_at].
  repeat (split; [first [exact K | exact Kxy | exact Len | reflexivity]|]).
  destruct call as [now|now|now]; cbn [binary_payload].
  - split; [apply np_add_length; exact Len|].
    intros i Hi. apply np_add_nth; assumption.
  - split; [apply np_multiply_length; exact Len|].
    intros i Hi. apply np_multiply_nth; assumption.
  - reflexivity.
Qed.

Lemma binary_result_shape_witness :
  length (payload (mkCiphertext (u "00112233aabbccdd")
                                (np_add [1; 2]%float [3; 4]%float)
                                ((zero + zero) / 2)%float zero))
  = 2%nat.
Proof.
  exact (proj1 (proj2 (proj2 (proj2 (proj2 (proj2
    (binary_result_shape demo_engine (CallAdd zero)
       (Object (demo_ct [1; 2]%float zero))
       (Object (demo_ct [3; 4]%float zero))
       (demo_ct [1; 2]%float zero) (demo_ct [3; 4]%float zero)
       (mkCiphertext (u "00112233aabbccdd")
                     (np_add [1; 2]%float [3; 4]%float)
                     ((zero + zero) / 2)%float zero)
       eq_refl eq_refl eq_refl))))))).
Defined.

(** ** Results are operands *)

Lemma encrypt_ok_inv self values draw now c :
  encrypt self values draw now = Ok c ->
  _key_id self = Some (key_id c) /\ payload c <> []
  /\ length (payload c) = length values.
Proof.
  unfold encrypt.
  destruct (_public_key self); [|discriminate].
  destruct values as [|x v]; [discriminate|].
  destruct (negb _); [discriminate|].
  destruct (self_key_id self) as [k|e] eqn:Ek; cbn [bind]; [|discriminate].
  intros E; injection E as <-. cbn [key_id payload].
  split; [apply self_key_id_inv; exact Ek|].
  split; [discriminate|]. cbn [length]. rewrite length_map. reflexivity.
Qed.

(** X6. Every ciphertext that [encrypt] or an operator returns passes the
    validation of the engine that made it (it carries the active key and
    its payload is not empty), so it can be the operand of a further
    operation: [_coerce_ciphertext] returns it unchanged. *)
Theorem results_are_operands self c :
  (exists values draw now, encrypt self values draw now = Ok c)
  \/ (exists call x, run_unary self call x = Ok c)
  \/ (exists call x y, run_binary self call x y = Ok c) ->
  _validate_ciphertext self c = Ok tt
  /\ _coerce_ciphertext self (Object c) = Ok c.
Proof.
  intros H.
  assert (V : _validate_ciphertext self c = Ok tt).
  { destruct H as [(values & draw & now & E)
                  |[(call & x & Run)|(call & x & y & Run)]].
    - destruct (encrypt_ok_inv self values draw now c E) as (K & P & _).
      apply (validate_ok self c (key_id c)); auto.
    - destruct (unary_ok_inv self call x c Run) as (c0 & Ec).
      destruct (validate_inv self c0 (coerce_valid self x c0 Ec))
        as (_ & P0).
      destruct (unary_result self call x c0 c Ec Run) as (E & K).
      apply (validate_ok self c (key_id c0)); [exact K|rewrite E; reflexivity|].
      rewrite E. cbn [payload].
      destruct call; cbn [unary_payload]; try discriminate;
        destruct (payload c0); try congruence; discriminate.
    - destruct (binary_ok_inv self call x y c Run) as (a & b & Ea & Eb).
      destruct (validate_inv self a (coerce_valid self x a Ea)) as (_ & Pa).
      destruct (validate_inv self b (coerce_valid self y b Eb)) as (_ & Pb).
      destruct (binary_result self call x y a b c Ea Eb Run)
        as (E & K & _ & Len).
      apply (validate_ok self c (key_id a)); [exact K|rewrite E; reflexivity|].
      rewrite E. cbn [payload].
      destruct call; cbn [binary_payload]; try discriminate;
        destruct (payload a); try congruence;
        destruct (payload b); try congruence; discriminate. }
  split; [exact V|].
  unfold _coerce_ciphertext. cbn [bind]. rewrite V. reflexivity.
Qed.

Lemma results_are_operands_witness :
  _coerce_ciphertext demo_engine
    (Object (mkCiphertext (u "00112233aabbccdd") [np_mean [1; 2; 6]%float]
                          (0.5 + 0.1)%float zero))
  = Ok (mkCiphertext (u "00112233aabbccdd") [np_mean [1; 2; 6]%float]
                     (0.5 + 0.1)%float zero).
Proof.
  apply results_are_operands. right. left.
  exists (CallMean zero), (Object (demo_ct [1; 2; 6]%float 0.5%float)).
  reflexivity.
Defined.

(** ** Tokens and objects *)

Lemma unary_coerce_ext self call x x' :
  _coerce_ciphertext self x = _coerce_ciphertext self x' ->
  run_unary self call x = run_unary self call x'.
Proof.
  intros E. destruct call; cbn [run_unary];
    unfold scalar_mul, polynomial, mean, linear_model; rewrite E; reflexivity.
Qed.

Lemma binary_coerce_ext self call x x' y y' :
  _coerce_ciphertext self x = _coerce_ciphertext self x' ->
  _coerce_ciphertext self y = _coerce_ciphertext self y' ->
  run_binary self call x y = run_binary self call x' y'.
Proof.
  intros E E'. destruct call; cbn [run_binary];
    unfold add, mul, dot; rewrite E, E'; reflexivity.
Qed.

Lemma b64encode_nonempty bs : bs <> [] -> b64encode bs <> [].
Proof.
  destruct bs as [|a [|b [|c r]]]; [congruence|..]; intros _;
    cbn [b64encode]; discriminate.
Qed.

Lemma serialize_resolves c :
  wf_text (key_id c) = true ->
  exists token, serialize c = Some token /\ resolves (Token token) c.
Proof.
  intros W. apply wf_text_pair_free in W.
  destruct (serialize_deserialize c W) as (S & D).
  eexists. split; [exact S|]. cbn [resolves]. split; [|exact D].
  apply b64encode_nonempty. pose proof (blob_length c) as L.
  destruct (json_dumps (blob_of c)); [cbn [length] in L; lia|discriminate].
Qed.

(** X7. An operator does the same with a ciphertext object and with its
    token: for a ciphertext whose key identifier is a text of Unicode
    scalar values, [serialize] returns a token, and every operator
    called with the token in the place of the object returns the same
    result or raises the same error. *)
Theorem token_as_operand c :
  wf_text (key_id c) = true ->
  exists token,
    serialize c = Some token
    /\ (forall self call,
          run_unary self call (Token token)
          = run_unary self call (Object c))
    /\ (forall self call y,
          run_binary self call (Token token) y
          = run_binary self call (Object c) y
          /\ run_binary self call y (Token token)
             = run_binary self call y (Object c)).
Proof.
  intros W. destruct (serialize_resolves c W) as (token & S & R).
  exists token. split; [exact S|].
  assert (E : forall self,
             _coerce_ciphertext self (Token token)
             = _coerce_ciphertext self (Object c)).
  { intros self. rewrite (resolves_coerce self (Token token) c R).
    reflexivity. }
  split.
  - intros self call. apply unary_coerce_ext, E.
  - intros self call y. split; apply binary_coerce_ext;
      first [apply E | reflexivity].
Qed.

Lemma token_as_operand_witness :
  exists token,
    serialize (demo_ct [1; 2]%float 0.5%float) = Some token
    /\ mean demo_engine (Token token) zero
       = mean demo_engine (Object (demo_ct [1; 2]%float 0.5%float)) zero.
Proof.
  destruct (token_as_operand (demo_ct [1; 2]%float 0.5%float) eq_refl)
    as (token & S & U & _).
  exists token. split; [exact S|].
  exact (U demo_engine (CallMean zero)).
Defined.



(** ** A second key generation *)

(** X8. After a second [generate_keys] with another identifier, the engine
    refuses the ciphertexts of the first key in every operator, with
    [KeyMismatch], while [decrypt] goes on returning their values (it
    does not look at the key), and the key store still holds the first
    public key and secret. *)
Theorem key_rotation self store k1 p1 s1 k2 p2 s2 c :
  k1 <> [] -> k2 <> [] -> k2 <> k1 ->
  key_id c = k1 ->
  let '(engine1, store1, _) := generate_keys self store k1 p1 s1 in
  let '(engine2, store2, _) := generate_keys engine1 store1 k2 p2 s2 in
  (forall call, run_unary engine2 call (Object c) = Raise KeyMismatch)
  /\ (forall call y, run_binary engine2 call (Object c) y = Raise KeyMismatch)
  /\ decrypt engine2 c
     = Ok (map (fun value => (value - noise c)%float) (payload c))
  /\ get_public_key store2 k1 = Some p1
  /\ has_secret store2 k1 = true.
Proof.
  intros H1 H2 Hne Hc. cbn [generate_keys].
  set (engine2 := mkEngine (Some p2) (Some s2) (Some k2)).
  assert (V : _validate_ciphertext engine2 c = Raise KeyMismatch).
  { apply (validate_key_mismatch engine2 c k2); [reflexivity|congruence]. }
  assert (C : _coerce_ciphertext engine2 (Object c) = Raise KeyMismatch).
  { unfold _coerce_ciphertext. cbn [bind]. rewrite V. reflexivity. }
  repeat split.
  - intros call. apply unary_stops, C.
  - intros call y. apply binary_stops_first, C.
  - unfold get_public_key, save_keys. cbn [_public_keys].
    rewrite dict_find_cons, (text_eqb_neq k1 k2) by congruence.
    rewrite dict_find_cons, text_eqb_refl. reflexivity.
  - unfold has_secret, save_keys. cbn [_secret_keys].
    rewrite dict_find_cons, (text_eqb_neq k1 k2) by congruence.
    rewrite dict_find_cons, text_eqb_refl. reflexivity.
Qed.

Lemma key_rotation_witness :
  scalar_mul
    (fst (fst (generate_keys demo_engine (mkKeyStore [] [])
                             (u "ffeeddccbbaa9988") (u "pub2") (u "sec2"))))
    (Object (demo_ct [1]%float zero)) 2 zero
  = Raise KeyMismatch.
Proof.
  pose proof (key_rotation new_engine (mkKeyStore [] [])
                (u "00112233aabbccdd") (u "pub") (u "sec")
                (u "ffeeddccbbaa9988") (u "pub2") (u "sec2")
                (demo_ct [1]%float zero)) as H.
  cbv beta iota zeta delta [generate_keys] in H.
  refine (proj1 (H _ _ _ eq_refl) (CallScalarMul 2 zero)); discriminate.
Defined.

(** ** The characters of a token *)

Lemma b64_char_token v : v < 64 -> is_token_char (b64_char v) = true.
Proof.
  intros H; unfold b64_char, is_token_char, in_range.
  destruct (N.ltb_spec v 26); [|destruct (N.ltb_spec v 52);
    [|destruct (N.ltb_spec v 62); [|destruct (N.eqb_spec v 62)]]];
    cases_N; try reflexivity; try lia.
Qed.

Lemma b64encode_token_bounded n :
  forall bs, (length bs <= n)%nat -> Forall (fun b => b < 256) bs ->
             forallb is_token_char (b64encode bs) = true
             /\ exists q, length (b64encode bs) = (4 * q)%nat.
Proof.
  induction n as [|n IH]; intros bs L B.
  - destruct bs; [split; [reflexivity|exists 0%nat; reflexivity]
                 | simpl in L; lia].
  - destruct bs as [|a [|b [|c rest]]];
      [split; [reflexivity|exists 0%nat; reflexivity]| | |];
      inversion B as [|? ? Ha B']; subst.
    + cbn [b64encode forallb].
      rewrite !b64_char_token by lia.
      split; [reflexivity|exists 1%nat; reflexivity].
    + inversion B' as [|? ? Hb _]; subst.
      cbn [b64encode forallb].
      rewrite !b64_char_token by lia.
      split; [reflexivity|exists 1%nat; reflexivity].
    + inversion B' as [|? ? Hb B'']; subst.
      inversion B'' as [|? ? Hc B3]; subst.
      destruct (IH rest) as (F & q & Lq); [simpl in L; lia|assumption|].
      cbn [b64encode forallb length].
      rewrite !b64_char_token by lia. rewrite F.
      split; [reflexivity|]. exists (S q). lia.
Qed.

(** X9. A token is transport-safe: for a ciphertext whose key identifier is
    a text of Unicode scalar values, [serialize] returns a non-empty
    text of letters, digits, [-], [_] and [=] only, whose length is a
    multiple of four. *)
Theorem token_alphabet c :
  wf_text (key_id c) = true ->
  exists token,
    serialize c = Some token
    /\ token <> []
    /\ forallb is_token_char token = true
    /\ exists q, length token = (4 * q)%nat.
Proof.
  intros W. apply wf_text_pair_free in W.
  destruct (serialize_deserialize c W) as (S & _).
  eexists. split; [exact S|].
  pose proof (blob_ascii c W) as A.
  pose proof (is_ascii_octets _ A) as O.
  destruct (b64encode_token_bounded _ _ (Nat.le_refl _) O) as (F & Q).
  split; [|split; assumption].
  pose proof (blob_length c) as L.
  destruct (json_dumps (blob_of c)) as [|a [|b [|c' r]]];
    [cbn [length] in L; lia|..]; cbn [b64encode]; discriminate.
Qed.

Lemma token_alphabet_witness :
  exists token,
    serialize (demo_ct [1.5]%float 0.1%float) = Some token
    /\ forallb is_token_char token = true.
Proof.
  destruct (token_alphabet (demo_ct [1.5]%float 0.1%float) eq_refl)
    as (token & S & _ & F & _).
  exists token. split; assumption.
Defined.

(** ** Characters that the token decoder passes over *)

Lemma utf8_encode_app a b :
  utf8_encode (a ++ b)
  = obind (utf8_encode a) (fun x =>
    obind (utf8_encode b) (fun y => Some (x ++ y))).
Proof.
  induction a as [|c a IH]; cbn [app utf8_encode obind].
  - destruct (utf8_encode b); reflexivity.
  - destruct (utf8_encode_char c) as [bs|]; cbn [obind]; [|reflexivity].
    rewrite IH. destruct (utf8_encode a) as [x|]; cbn [obind]; [|reflexivity].
    destruct (utf8_encode b) as [y|]; cbn [obind]; [|reflexivity].
    rewrite app_assoc. reflexivity.
Qed.

(** An octet that [a2b_base64] skips. *)
Lemma a2b_skip_one c bs q l p :
  c <> b64_pad -> b64_value c = None ->
  a2b_base64 (c :: bs) q l p = a2b_base64 bs q l p.
Proof.
  intros P V. cbn [a2b_base64].
  apply N.eqb_neq in P. rewrite P, V. reflexivity.
Qed.

Lemma a2b_skip junk bs q l p :
  Forall (fun c => c <> b64_pad /\ b64_value c = None) junk ->
  a2b_base64 (junk ++ bs) q l p = a2b_base64 bs q l p.
Proof.
  induction 1 as [|c junk (P & V) _ IH]; [reflexivity|].
  cbn [app]. rewrite a2b_skip_one by assumption. exact IH.
Qed.

Lemma a2b_skip_inside pre junk post :
  Forall (fun c => c <> b64_pad /\ b64_value c = None) junk ->
  forall q l p,
    a2b_base64 (pre ++ junk ++ post) q l p = a2b_base64 (pre ++ post) q l p.
Proof.
  intros J. induction pre as [|c pre IH]; intros q l p.
  - cbn [app]. apply a2b_skip, J.
  - cbn [app a2b_base64].
    destruct (b64_value c) as [v|]; rewrite ?IH; reflexivity.
Qed.

Lemma filler_octets c :
  is_filler c = true ->
  exists bs, utf8_encode_char c = Some bs
             /\ Forall (fun b => b <> b64_pad /\ b64_value b = None) bs.
Proof.
  unfold is_filler, is_scalar. intros H.
  apply andb_prop in H. destruct H as (H & V).
  apply andb_prop in H. destruct H as (H & P).
  apply andb_prop in H. destruct H as (R & S).
  apply N.ltb_lt in R. apply negb_true_iff in S, P. apply N.eqb_neq in P.
  unfold utf8_encode_char. rewrite S.
  destruct (N.ltb_spec c 128).
  - eexists. split; [reflexivity|]. constructor; [|constructor].
    split; [exact P|]. destruct (b64_value c); [discriminate|reflexivity].
  - destruct (N.ltb_spec c 2048);
      [|destruct (N.ltb_spec c 65536);
        [|destruct (N.ltb_spec c 1114112); [|lia]]];
      (eexists; split; [reflexivity|]);
      repeat (constructor; [apply high_octet_skipped; lia|]); constructor.
Qed.

Lemma filler_text junk :
  forallb is_filler junk = true ->
  exists bs, utf8_encode junk = Some bs
             /\ Forall (fun b => b <> b64_pad /\ b64_value b = None) bs.
Proof.
  induction junk as [|c junk IH]; intros F.
  - exists []. split; [reflexivity|constructor].
  - cbn [forallb] in F. apply andb_prop in F. destruct F as (Fc & Fj).
    destruct (filler_octets c Fc) as (bs & E & B).
    destruct (IH Fj) as (bs' & E' & B').
    exists (bs ++ bs'). cbn [utf8_encode]. rewrite E, E'. cbn [obind].
    split; [reflexivity|]. apply Forall_app. split; assumption.
Qed.

(** X11. Tokens are not canonical.  [deserialize] reads a token with the
    lenient Base64 decoder, which passes over every character that is
    neither a Base64 digit nor the pad: line breaks, spaces or any other
    such characters put anywhere into a token do not change what
    [deserialize] returns, or the error it raises. *)
Theorem deserialize_skips_filler pre junk post :
  forallb is_filler junk = true ->
  deserialize (pre ++ junk ++ post) = deserialize (pre ++ post).
Proof.
  intros F. destruct (filler_text junk F) as (j & Ej & Bj).
  unfold deserialize, decode_token.
  rewrite !utf8_encode_app, Ej.
  destruct (utf8_encode pre) as [x|]; cbn [obind]; [|reflexivity].
  destruct (utf8_encode post) as [y|]; cbn [obind]; [|reflexivity].
  unfold b64decode. rewrite (a2b_skip_inside x j y Bj). reflexivity.
Qed.

Lemma deserialize_skips_filler_witness :
  deserialize (u "e30" ++ [10; 32] ++ u "=")
  = deserialize (u "e30" ++ u "=").
Proof.
  exact (deserialize_skips_filler (u "e30") [10; 32] (u "=") eq_refl).
Defined.

(* ================================================================= *)
(** * The rate limiter *)

Lemma nat_text_inj a b : nat_text a = nat_text b -> a = b.
Proof.
  intros E. pose proof (text_nat_text a) as A. rewrite E, text_nat_text in A.
  congruence.
Qed.

Lemma nat_text_head n :
  exists c t, nat_text n = c :: t /\ is_digit c = true.
Proof.
  destruct n as [|p].
  - exists 48, []. split; reflexivity.
  - destruct (nat_text_pos p) as (c & t & E & _ & D). eauto.
Qed.

Lemma int_text_inj a b : int_text a = int_text b -> a = b.
Proof.
  assert (Neg : forall p n, 45 :: nat_text (Npos p) <> nat_text n).
  { intros p n E. destruct (nat_text_head n) as (c & t & En & D).
    rewrite En in E. injection E as <- _. discriminate D. }
  destruct a as [|p|p], b as [|q|q]; cbn [int_text]; intros E;
    try reflexivity;
    try (apply nat_text_inj in E; cbn in E; congruence);
    try (exfalso; eapply Neg; first [exact E | symmetry; exact E]).
  injection E as E. apply nat_text_inj in E. congruence.
Qed.

Lemma window_key_inj a b : window_key a = window_key b -> a = b.
Proof.
  unfold window_key. intros E. apply app_inv_head in E.
  apply int_text_inj, E.
Qed.

Lemma rate_get_same key value r : rate_get key (rate_set key value r) = value.
Proof.
  induction r as [|(k, count) r IH]; cbn [rate_set rate_get].
  - rewrite text_eqb_refl. reflexivity.
  - destruct (text_eqb key k) eqn:E; cbn [rate_get]; rewrite E; auto.
Qed.

Lemma rate_get_other key k value r :
  key <> k -> rate_get key (rate_set k value r) = rate_get key r.
Proof.
  intros H. induction r as [|(k', count) r IH]; cbn [rate_set rate_get].
  - rewrite (text_eqb_neq _ _ H). reflexivity.
  - destruct (text_eqb k k') eqn:E; cbn [rate_get].
    + apply text_eqb_eq in E. subst k'.
      rewrite (text_eqb_neq _ _ H). reflexivity.
    + rewrite IH. reflexivity.
Qed.

Local Open Scope Z_scope.

Lemma rate_limiter_cases limit now rate_limits :
  (limit <= 0 -> rate_limiter limit now rate_limits = Some rate_limits)
  /\ (0 < limit ->
      (limit <= rate_get (window_key (now / 60)) rate_limits ->
       rate_limiter limit now rate_limits = None)
      /\ (rate_get (window_key (now / 60)) rate_limits < limit ->
          exists rate_limits',
            rate_limiter limit now rate_limits = Some rate_limits'
            /\ rate_get (window_key (now / 60)) rate_limits'
               = rate_get (window_key (now / 60)) rate_limits + 1
            /\ forall window, window <> now / 60 ->
                 rate_get (window_key window) rate_limits'
                 = rate_get (window_key window) rate_limits)).
Proof.
  unfold rate_limiter. split.
  - intros L. apply Z.leb_le in L. rewrite L. reflexivity.
  - intros L. apply Z.leb_gt in L. rewrite L. cbv zeta. split.
    + intros C. apply Z.geb_le in C. rewrite C. reflexivity.
    + intros C.
      destruct (Z.geb_spec (rate_get (window_key (now / 60)) rate_limits)
                           limit) as [G|G]; [lia|].
      eexists. split; [reflexivity|]. split.
      * apply rate_get_same.
      * intros window W. apply rate_get_other.
        intros E. apply window_key_inj in E. contradiction.
Qed.

(** X12. One call of the limiter.  With a limit of zero (or less) it lets
    every request pass and keeps no count.  With a positive limit it
    answers 429 exactly when the count of the current minute has reached
    the limit, and then changes nothing; otherwise it adds one to the
    count of the current minute and leaves the counts of all other
    minutes as they are. *)
Theorem rate_limiter_step limit now rate_limits :
  (limit <= 0 -> rate_limiter limit now rate_limits = Some rate_limits)
  /\ (0 < limit ->
      (limit <= rate_get (window_key (now / 60)) rate_limits ->
       rate_limiter limit now rate_limits = None)
      /\ (rate_get (window_key (now / 60)) rate_limits < limit ->
          exists rate_limits',
            rate_limiter limit now rate_limits = Some rate_limits'
            /\ rate_get (window_key (now / 60)) rate_limits'
               = rate_get (window_key (now / 60)) rate_limits + 1
            /\ forall window, window <> now / 60 ->
                 rate_get (window_key window) rate_limits'
                 = rate_get (window_key window) rate_limits)).
Proof. apply rate_limiter_cases. Qed.

Lemma rate_limiter_step_witness :
  rate_limiter 2 125 [(window_key 2, 2)%Z] = None.
Proof.
  apply (proj1 (proj2 (rate_limiter_step 2 125 [(window_key 2, 2)])
                      eq_refl)).
  vm_compute. discriminate.
Defined.

Lemma serve_bound limit times :
  0 < limit ->
  forall rate_limits window,
    (forall w, 0 <= rate_get (window_key w) rate_limits <= limit) ->
    passed_in window times (fst (serve limit times rate_limits))
    + rate_get (window_key window) rate_limits <= limit
    /\ 0 <= passed_in window times (fst (serve limit times rate_limits)).
Proof.
  intros L. induction times as [|now rest IH]; intros rl window Inv.
  - cbn [serve fst passed_in]. specialize (Inv window). lia.
  - cbn [serve].
    destruct (proj2 (rate_limiter_cases limit now rl) L) as (Full & Free).
    destruct (Z.le_gt_cases limit (rate_get (window_key (now / 60)) rl))
      as [C|C].
    + rewrite (Full C). specialize (IH rl window Inv).
      destruct (serve limit rest rl) as (passed & final).
      cbn [fst passed_in andb] in *. lia.
    + destruct (Free C) as (rl' & E & Same & Other). rewrite E.
      assert (Inv' : forall w, 0 <= rate_get (window_key w) rl' <= limit).
      { intros w. destruct (Z.eq_dec w (now / 60)) as [->|N].
        - rewrite Same. specialize (Inv (now / 60)). lia.
        - rewrite (Other w N). apply Inv. }
      specialize (IH rl' window Inv').
      destruct (serve limit rest rl') as (passed & final).
      cbn [fst passed_in andb] in *.
      destruct (Z.eqb_spec (now / 60) window) as [Ew|Nw].
      * subst window. rewrite Same in IH. lia.
      * rewrite (Other window) in IH by congruence. lia.
Qed.

(** The count is kept by calendar minute, not over the last sixty
    seconds: with a limit of two, four requests pass within two seconds
    when the minute changes between them. *)
Lemma rate_window_straddles :
  fst (serve 2 [59; 59; 60; 60] []) = [true; true; true; true].
Proof. reflexivity. Qed.

(** X13. What the limiter guarantees.  From the empty dict, with a positive
    limit, whatever the times of the requests: of the requests of one
    calendar minute (those with the same [int(time.time()) // 60]) no
    more pass than the limit. *)
Theorem rate_limit_holds limit times window :
  0 < limit ->
  passed_in window times (fst (serve limit times [])) <= limit.
Proof.
  intros L.
  destruct (serve_bound limit times L [] window) as (B & _).
  - intros w. cbn [rate_get]. lia.
  - cbn [rate_get] in B. lia.
Qed.

Lemma rate_limit_holds_witness :
  passed_in 0 [1; 2; 3; 61] (fst (serve 2 [1; 2; 3; 61] [])) <= 2.
Proof.
  apply (rate_limit_holds 2 [1; 2; 3; 61] 0). reflexivity.
Defined.

(** X14. The dict counts the requests that passed, minute by minute, and
    never forgets a minute: after any run of requests the count of every
    minute is its count before the run plus the number of requests of
    that minute that passed; no count is ever reset or removed. *)
Theorem rate_counts_exact limit times rate_limits window :
  0 < limit ->
  (forall w, 0 <= rate_get (window_key w) rate_limits <= limit) ->
  rate_get (window_key window) (snd (serve limit times rate_limits))
  = rate_get (window_key window) rate_limits
    + passed_in window times (fst (serve limit times rate_limits)).
Proof.
  intros L. revert rate_limits.
  induction times as [|now rest IH]; intros rl Inv.
  - cbn [serve fst snd passed_in]. lia.
  - cbn [serve].
    destruct (proj2 (rate_limiter_cases limit now rl) L) as (Full & Free).
    destruct (Z.le_gt_cases limit (rate_get (window_key (now / 60)) rl))
      as [C|C].
    + rewrite (Full C). specialize (IH rl Inv).
      destruct (serve limit rest rl) as (passed & final).
      cbn [fst snd passed_in andb] in *. lia.
    + destruct (Free C) as (rl' & E & Same & Other). rewrite E.
      assert (Inv' : forall w, 0 <= rate_get (window_key w) rl' <= limit).
      { intros w. destruct (Z.eq_dec w (now / 60)) as [->|N].
        - rewrite Same. specialize (Inv (now / 60)). lia.
        - rewrite (Other w N). apply Inv. }
      specialize (IH rl' Inv').
      destruct (serve limit rest rl') as (passed & final).
      cbn [fst snd passed_in andb] in *.
      destruct (Z.eqb_spec (now / 60) window) as [Ew|Nw].
      * subst window. rewrite Same in IH. lia.
      * rewrite (Other window) in IH by congruence. lia.
Qed.

Lemma rate_counts_exact_witness :
  rate_get (window_key 0) (snd (serve 2 [1; 2; 3; 61] []))
  = 0 + passed_in 0 [1; 2; 3; 61] (fst (serve 2 [1; 2; 3; 61] [])).
Proof.
  apply (rate_counts_exact 2 [1; 2; 3; 61] [] 0); [reflexivity|].
  intros w. cbn [rate_get]. lia.
Defined.

Local Close Scope Z_scope.

(* ================================================================= *)
(** * The HTTP handlers *)

Lemma caught_cases {A B} message (step : result A) svc
      (k : A -> response B * Service) :
  (exists a, step = Ok a /\ caught message step svc k = k a)
  \/ (exists e, step = Raise e /\ e <> OutsideModel
                /\ caught message step svc k
                   = (HTTPException 400 (Str e),
                      emit (Warning message e) svc))
  \/ (step = Raise OutsideModel
      /\ caught message step svc k = (NotFollowed, svc)).
Proof.
  destruct step as [a|e]; [left; eauto|].
  destruct e; cbn [caught];
    try (right; left; eexists; repeat split; discriminate);
    right; right; split; reflexivity.
Qed.

Lemma traced_as_body name message svc {A} (f : A -> body)
      (r : response A * Service) :
  traced_if_followed name message svc r ->
  traced_if_followed name message svc (as_body f r).
Proof.
  unfold traced_if_followed, traced, as_body.
  destruct r as (r & svc'). cbn [fst snd].
  destruct r; intros H N; try (apply H; discriminate).
  exfalso. apply N. reflexivity.
Qed.

Lemma traced_error name message svc {A} e :
  @traced name message svc A
          (HTTPException 400 (Str e), emit (Warning message e) svc).
Proof.
  unfold traced. cbn [fst snd emit engine KEY_STORE
                      enable_simulated_decrypt audit_log].
  repeat split. left. split; [reflexivity|]. exists e. split; reflexivity.
Qed.

Lemma traced_not_followed name message svc svc' {A} :
  @traced_if_followed name message svc A (NotFollowed, svc').
Proof. intros N. exfalso. apply N. reflexivity. Qed.

Lemma traced_caught name message svc {A B} (step : result A)
      (k : A -> response B * Service) :
  (forall a, step = Ok a -> traced_if_followed name message svc (k a)) ->
  traced_if_followed name message svc (caught message step svc k).
Proof.
  intros H.
  destruct (caught_cases message step svc k)
    as [(a & E & ->)|[(e & E & _ & ->)|(E & ->)]].
  - apply H, E.
  - intros _. apply traced_error.
  - apply traced_not_followed.
Qed.

Lemma traced_computed name message svc eng more outcome :
  engine svc = Some eng ->
  traced_if_followed name message svc
                     (computed svc eng name message more outcome).
Proof.
  intros En. unfold computed.
  apply traced_caught. intros c _. unfold serialized.
  destruct (serialize c) as [token|]; [|apply traced_not_followed].
  apply traced_caught. intros k Ek _.
  unfold traced. cbn [fst snd log_event emit engine KEY_STORE
                      enable_simulated_decrypt audit_log].
  repeat split. exists ((u "key_id", JStr k) :: more), k.
  repeat split. exists eng. split; [exact En|].
  apply self_key_id_inv, Ek.
Qed.

(** ** Requests one after the other *)

Lemma encrypt_ok self values draw now :
  keys_generated self = true -> values <> [] ->
  forallb isfinite values = true ->
  exists k,
    _key_id self = Some k /\ self_key_id self = Ok k
    /\ encrypt self values draw now
       = Ok (mkCiphertext k
               (map (fun v => (v + noise_of_draw draw)%float) values)
               (noise_of_draw draw) now).
Proof.
  intros K Hv F.
  destruct (keys_generated_inv self K) as (p & s & c & k & Hp & _ & Hk).
  destruct (self_key_id_generated self K) as (k' & Ek & Ek').
  exists k'. split; [exact Ek'|]. split; [exact Ek|].
  unfold encrypt. rewrite Hp.
  destruct values as [|v vs]; [congruence|].
  rewrite F, Ek. reflexivity.
Qed.

Lemma decrypt_ok self c :
  keys_generated self = true ->
  decrypt self c
  = Ok (map (fun value => (value - noise c)%float) (payload c)).
Proof.
  intros K.
  destruct (keys_generated_inv self K) as (p & s & c0 & k & _ & Hs & _).
  unfold decrypt. rewrite Hs. reflexivity.
Qed.

(** ** The requests that the embedding follows *)

Lemma validate_not_outside self c :
  _validate_ciphertext self c <> Raise OutsideModel.
Proof.
  unfold _validate_ciphertext.
  destruct (_key_id self); [|discriminate].
  destruct (negb _); [discriminate|].
  destruct (payload c); discriminate.
Qed.

Lemma self_key_id_not_outside self : self_key_id self <> Raise OutsideModel.
Proof.
  unfold self_key_id. destruct (_key_id self) as [[|c k]|]; discriminate.
Qed.

Lemma coerce_outside self x :
  _coerce_ciphertext self x = Raise OutsideModel ->
  exists t, x = Token t /\ deserialize t = Raise OutsideModel.
Proof.
  unfold _coerce_ciphertext. destruct x as [[|n t]|c]; cbn [bind].
  - discriminate.
  - destruct (deserialize (n :: t)) as [c|e] eqn:D; cbn [bind].
    + pose proof (validate_not_outside self c) as V.
      destruct (_validate_ciphertext self c) as [[]|e]; cbn [bind];
        [discriminate|congruence].
    + intros E. exists (n :: t). split; [reflexivity|]. congruence.
  - pose proof (validate_not_outside self c) as V.
    destruct (_validate_ciphertext self c) as [[]|e]; cbn [bind];
      [discriminate|congruence].
Qed.

Lemma run_unary_outside self call x :
  run_unary self call x = Raise OutsideModel ->
  _coerce_ciphertext self x = Raise OutsideModel.
Proof.
  pose proof (self_key_id_not_outside self) as K.
  destruct (_coerce_ciphertext self x) as [c|e] eqn:E.
  - destruct call as [scalar now|coefficients now|now|weights bias now];
      cbn [run_unary];
      unfold scalar_mul, polynomial, mean, linear_model; rewrite E;
      cbn [bind];
      try (destruct coefficients; [discriminate|]);
      try (destruct (negb _); [discriminate|]);
      destruct (self_key_id self); cbn [bind]; congruence.
  - rewrite (unary_stops self call x e E). congruence.
Qed.

Lemma run_binary_outside self call x y :
  run_binary self call x y = Raise OutsideModel ->
  _coerce_ciphertext self x = Raise OutsideModel
  \/ _coerce_ciphertext self y = Raise OutsideModel.
Proof.
  pose proof (self_key_id_not_outside self) as K.
  destruct (_coerce_ciphertext self x) as [a|e] eqn:Ea.
  - destruct (_coerce_ciphertext self y) as [b|e] eqn:Eb.
    + destruct call as [now|now|now]; cbn [run_binary];
        unfold add, mul, dot; rewrite Ea, Eb; cbn [bind];
        (destruct (negb _); [discriminate|]);
        destruct (self_key_id self); cbn [bind]; congruence.
    + rewrite (binary_stops_second self call x y a e Ea Eb). auto.
  - rewrite (binary_stops_first self call x y e Ea). auto.
Qed.

Lemma encrypt_not_outside self values draw now :
  encrypt self values draw now <> Raise OutsideModel.
Proof.
  pose proof (self_key_id_not_outside self) as K.
  unfold encrypt. destruct (_public_key self); [|discriminate].
  destruct values; [discriminate|].
  destruct (negb _); [discriminate|].
  destruct (self_key_id self); cbn [bind]; congruence.
Qed.

Lemma caught_followed {A B} message (step : result A) svc
      (k : A -> response B * Service) :
  step <> Raise OutsideModel ->
  (forall a, step = Ok a -> fst (k a) <> NotFollowed) ->
  fst (caught message step svc k) <> NotFollowed.
Proof.
  intros N H.
  destruct (caught_cases message step svc k)
    as [(a & E & ->)|[(e & E & _ & ->)|(E & _)]].
  - apply H, E.
  - discriminate.
  - contradiction.
Qed.

Lemma as_body_followed {A} (f : A -> body) (r : response A * Service) :
  fst r <> NotFollowed -> fst (as_body f r) <> NotFollowed.
Proof.
  unfold as_body. destruct r as (r & svc). cbn [fst].
  destruct r; intros H; try discriminate. contradiction.
Qed.

Lemma computed_followed svc eng k event message more outcome :
  keys_generated eng = true -> _key_id eng = Some k -> wf_text k = true ->
  outcome <> Raise OutsideModel ->
  (forall c, outcome = Ok c -> key_id c = k) ->
  fst (computed svc eng event message more outcome) <> NotFollowed.
Proof.
  intros K Hk W N Key. unfold computed.
  apply caught_followed; [exact N|]. intros c Ec.
  unfold serialized.
  assert (Wc : wf_text (key_id c) = true) by (rewrite (Key c Ec); exact W).
  destruct (serialize_resolves c Wc) as (token & -> & _).
  apply caught_followed; [apply self_key_id_not_outside|].
  intros k' _. discriminate.
Qed.

Lemma followed_token self t :
  followed t -> _coerce_ciphertext self (Token t) <> Raise OutsideModel.
Proof.
  intros F E. destruct (coerce_outside self _ E) as (t' & Et & D).
  injection Et as <-. exact (F D).
Qed.

Lemma followed_object self t call :
  followed t ->
  (c <- deserialize t ;; run_unary self call (Object c))
  <> Raise OutsideModel.
Proof.
  intros F. destruct (deserialize t) as [c|e] eqn:D; cbn [bind].
  - intros E. apply run_unary_outside in E.
    destruct (coerce_outside self _ E) as (t' & Et & _). discriminate.
  - intros E. apply F. congruence.
Qed.

Lemma unary_key self call x c k :
  _key_id self = Some k -> run_unary self call x = Ok c -> key_id c = k.
Proof.
  intros Hk Run. destruct (unary_ok_inv self call x c Run) as (c0 & Ec).
  destruct (unary_result self call x c0 c Ec Run) as (E & K).
  rewrite E. cbn [key_id]. congruence.
Qed.

Lemma binary_key self call x y c k :
  _key_id self = Some k -> run_binary self call x y = Ok c -> key_id c = k.
Proof.
  intros Hk Run.
  destruct (binary_ok_inv self call x y c Run) as (a & b & Ea & Eb).
  destruct (binary_result self call x y a b c Ea Eb Run) as (E & K & _).
  rewrite E. cbn [key_id]. congruence.
Qed.

Lemma handle_followed svc req :
  started svc -> Forall followed (tokens req) ->
  fst (handle svc req) <> NotFollowed.
Proof.
  intros (eng & k & En & K & Hk & W) F.
  assert (B : forall call a b,
             followed a -> followed b ->
             run_binary eng call (Token a) (Token b) <> Raise OutsideModel).
  { intros call a b Fa Fb E. apply run_binary_outside in E.
    destruct E as [E|E]; [exact (followed_token eng a Fa E)
                         |exact (followed_token eng b Fb E)]. }
  assert (Ukey : forall t call c,
             (c0 <- deserialize t ;; run_unary eng call (Object c0)) = Ok c ->
             key_id c = k).
  { intros t call c. destruct (deserialize t) as [c0|e]; cbn [bind];
      [|discriminate]. apply (unary_key eng call _ c k Hk). }
  destruct req; cbn [handle tokens] in *; apply as_body_followed;
    unfold encrypt_route, decrypt_route, add_route, multiply_route,
      dot_route, polynomial_route, mean_route, linear_model_route,
      with_engine; rewrite En.
  - (* encrypt *)
    apply caught_followed; [apply encrypt_not_outside|]. intros c Ec.
    unfold serialized.
    assert (Wc : wf_text (key_id c) = true).
    { destruct (encrypt_ok_inv eng values draw now c Ec) as (Kc & _).
      assert (key_id c = k) by congruence. congruence. }
    destruct (serialize_resolves c Wc) as (token & -> & _). discriminate.
  - (* decrypt *)
    apply Forall_inv in F.
    destruct (negb _); [discriminate|].
    apply caught_followed.
    + destruct (deserialize ciphertext) as [c|e] eqn:D; cbn [bind].
      * rewrite (decrypt_ok eng c K). discriminate.
      * intros E. apply F. congruence.
    + intros d _. apply caught_followed;
        [apply self_key_id_not_outside|]. intros k' _. discriminate.
  - pose proof (Forall_inv F) as Fa.
    pose proof (Forall_inv (Forall_inv_tail F)) as Fb.
    apply (computed_followed svc eng k _ _ _ _ K Hk W);
      [exact (B (CallAdd now) a b Fa Fb)
      |intros c; apply (binary_key eng (CallAdd now) _ _ c k Hk)].
  - pose proof (Forall_inv F) as Fa.
    pose proof (Forall_inv (Forall_inv_tail F)) as Fb.
    apply (computed_followed svc eng k _ _ _ _ K Hk W);
      [exact (B (CallMul now) a b Fa Fb)
      |intros c; apply (binary_key eng (CallMul now) _ _ c k Hk)].
  - pose proof (Forall_inv F) as Fa.
    pose proof (Forall_inv (Forall_inv_tail F)) as Fb.
    apply (computed_followed svc eng k _ _ _ _ K Hk W);
      [exact (B (CallDot now) a b Fa Fb)
      |intros c; apply (binary_key eng (CallDot now) _ _ c k Hk)].
  - apply Forall_inv in F.
    apply (computed_followed svc eng k _ _ _ _ K Hk W);
      [exact (followed_object eng ciphertext
                (CallPolynomial coefficients now) F)
      |intros c; apply (Ukey ciphertext (CallPolynomial coefficients now))].
  - apply Forall_inv in F.
    apply (computed_followed svc eng k _ _ _ _ K Hk W);
      [exact (followed_object eng ciphertext (CallMean now) F)
      |intros c; apply (Ukey ciphertext (CallMean now))].
  - apply Forall_inv in F.
    apply (computed_followed svc eng k _ _ _ _ K Hk W);
      [exact (followed_object eng ciphertext
                (CallLinearModel weights bias now) F)
      |intros c; apply (Ukey ciphertext (CallLinearModel weights bias now))].
Qed.

(** X15. A handler of [keys.py] or [compute.py] that goes to the engine,
    called on a request that the embedding follows, leaves the engine,
    the key store and the configuration as they are, and writes at most
    one record to the log.  When it replies, the record is the event of
    the request, with the active key of the engine.  When it raises an
    [HTTPException], either the status is 400, the detail is the text of
    the exception caught, and the record is the warning of the handler
    with that exception; or it is the 403 of [/decrypt] with the
    endpoint disabled, and nothing is written.  The only exception that
    escapes a handler is the [RuntimeError] of a missing engine.  On a
    started service the embedding follows every request whose tokens it
    reads: those that [deserialize] refuses, and those that give a
    ciphertext of the declared types (a string, a list of JSON reals,
    two numbers). *)
Theorem handler_trace svc req :
  (fst (handle svc req) <> NotFollowed ->
   traced (event_name req) (failure_message req) svc (handle svc req))
  /\ (started svc -> Forall followed (tokens req) ->
      fst (handle svc req) <> NotFollowed).
Proof.
  split; [|apply handle_followed].
  change (traced_if_followed (event_name req) (failure_message req) svc
                             (handle svc req)).
  destruct (engine svc) as [eng|] eqn:En.
  - destruct req; cbn [handle event_name failure_message];
      apply traced_as_body;
      unfold encrypt_route, decrypt_route, add_route, multiply_route,
        dot_route, polynomial_route, mean_route, linear_model_route,
        with_engine; rewrite En;
      try (apply traced_computed; exact En).
    + (* encrypt *)
      apply traced_caught. intros c Ec. unfold serialized.
      destruct (serialize c) as [token|]; [|apply traced_not_followed].
      intros _.
      unfold traced. cbn [fst snd log_event emit engine KEY_STORE
                          enable_simulated_decrypt audit_log].
      repeat split. eexists _, (key_id c). repeat split.
      exists eng. split; [exact En|].
      apply (encrypt_ok_inv eng values draw now c Ec).
    + (* decrypt *)
      destruct (enable_simulated_decrypt svc) eqn:Cfg; cbn [negb].
      * apply traced_caught. intros d _.
        apply traced_caught. intros k Ek _.
        unfold traced. cbn [fst snd log_event emit engine KEY_STORE
                            enable_simulated_decrypt audit_log].
        repeat split; try (symmetry; exact Cfg).
        eexists _, k. repeat split.
        exists eng. split; [exact En|]. apply self_key_id_inv, Ek.
      * intros _. unfold traced. cbn [fst snd]. repeat split.
        right. repeat split. exact Cfg.
  - intros _.
    destruct req; cbn [handle event_name failure_message];
      unfold as_body, encrypt_route, decrypt_route, add_route,
        multiply_route, dot_route, polynomial_route, mean_route,
        linear_model_route, with_engine; rewrite En;
      unfold traced; cbn [fst snd]; repeat split; exact En.
Qed.

Lemma handler_trace_witness :
  handle demo_service (PostDecrypt (u "e30"))
  = (HTTPException 400 (Str MalformedToken),
     emit (Warning (u "Decryption failed") MalformedToken) demo_service)
  /\ traced (u "decrypt") (u "Decryption failed") demo_service
            (handle demo_service (PostDecrypt (u "e30"))).
Proof.
  split; [reflexivity|].
  destruct (handler_trace demo_service (PostDecrypt (u "e30"))) as (T & N).
  apply T, N.
  - exists demo_engine, (u "00112233aabbccdd"). repeat split.
  - repeat constructor. unfold followed. vm_compute. discriminate.
Defined.

(** [POST /encrypt] on a started service. *)
Lemma encrypt_route_ok svc eng k values draw now :
  engine svc = Some eng -> keys_generated eng = true ->
  _key_id eng = Some k -> wf_text k = true ->
  values <> [] -> forallb isfinite values = true ->
  let c := mkCiphertext k
             (map (fun v => (v + noise_of_draw draw)%float) values)
             (noise_of_draw draw) now in
  exists token,
    resolves (Token token) c
    /\ encrypt_route svc values draw now
       = (Reply token,
          log_event (u "encrypt")
            [(u "key_id", JStr k);
             (u "length", JInt (Z.of_nat (length values)))] svc).
Proof.
  intros En K Hk W Hv F c.
  destruct (encrypt_ok eng values draw now K Hv F) as (k' & Hk' & _ & E).
  assert (k' = k) by congruence. subst k'. fold c in E.
  destruct (serialize_resolves c W) as (token & S & R).
  exists token. split; [exact R|].
  unfold encrypt_route, with_engine. rewrite En, E.
  cbn [caught]. unfold serialized. rewrite S. reflexivity.
Qed.

(** [POST /decrypt] of a token on a started service. *)
Lemma decrypt_route_ok svc eng k token c :
  engine svc = Some eng -> keys_generated eng = true ->
  _key_id eng = Some k -> enable_simulated_decrypt svc = true ->
  resolves (Token token) c ->
  decrypt_route svc token
  = (Reply (map (fun value => (value - noise c)%float) (payload c)),
     log_event (u "decrypt")
       [(u "key_id", JStr k);
        (u "length", JInt (Z.of_nat (length (payload c))))] svc).
Proof.
  intros En K Hk Cfg (_ & D).
  destruct (self_key_id_generated eng K) as (k' & Ek & Ek').
  assert (k' = k) by congruence. subst k'.
  unfold decrypt_route, with_engine. rewrite En, Cfg, D. cbn [negb bind].
  rewrite (decrypt_ok eng c K). cbn [caught]. rewrite Ek. cbn [caught].
  rewrite length_map. reflexivity.
Qed.

(** X16. The handler of [/encrypt], then the handler of [/decrypt].  On a
    started service with the decrypt endpoint enabled, for a non-empty
    sequence of finite values of magnitude at most [2^32]: the handler
    [encrypt] replies with a token, and the handler [decrypt], called on
    that token, replies with values that are within 1e-6 of the ones
    given.  (The handlers are called one after the other as Python
    functions; the rate limiter and the middleware that FastAPI runs
    around them are not part of the statement.) *)
Theorem handlers_roundtrip svc values draw now :
  started svc -> enable_simulated_decrypt svc = true ->
  values <> [] -> forallb isfinite values = true ->
  Forall (fun x => magnitude_le x 4294967296) values -> draw < 100 ->
  exists token svc1 out svc2,
    encrypt_route svc values draw now = (Reply token, svc1)
    /\ decrypt_route svc1 token = (Reply out, svc2)
    /\ Forall2 close out values.
Proof.
  intros (eng & k & En & K & Hk & W) Cfg Hv F M Hd.
  destruct (encrypt_route_ok svc eng k values draw now En K Hk W Hv F)
    as (token & R & E).
  eexists token, _, _, _. split; [exact E|]. split.
  - match type of E with
    | _ = (_, ?s) => exact (decrypt_route_ok s eng k token _ En K Hk Cfg R)
    end.
  - cbn [payload noise]. apply roundtrip_elements; assumption.
Qed.

Lemma handlers_roundtrip_witness :
  exists token svc1 out svc2,
    encrypt_route demo_service [1.5; -2]%float 7 zero = (Reply token, svc1)
    /\ decrypt_route svc1 token = (Reply out, svc2)
    /\ Forall2 close out [1.5; -2]%float.
Proof.
  apply (handlers_roundtrip demo_service [1.5; -2]%float 7 zero).
  - exists demo_engine, (u "00112233aabbccdd"). repeat split.
  - reflexivity.
  - discriminate.
  - reflexivity.
  - repeat constructor; unfold magnitude_le; vm_compute; discriminate.
  - reflexivity.
Defined.

(** [POST /compute/add] of two tokens on a started service. *)
Lemma add_route_ok svc eng k a b ca cb now :
  engine svc = Some eng -> keys_generated eng = true ->
  _key_id eng = Some k -> wf_text k = true ->
  resolves (Token a) ca -> resolves (Token b) cb ->
  key_id ca = k -> key_id cb = k ->
  payload ca <> [] -> length (payload ca) = length (payload cb) ->
  let c := mkCiphertext k (np_add (payload ca) (payload cb))
                        ((noise ca + noise cb) / 2)%float now in
  exists token,
    resolves (Token token) c
    /\ add_route svc a b now
       = (Reply token, log_event (u "compute.add") [(u "key_id", JStr k)] svc).
Proof.
  intros En K Hk W Ra Rb Ka Kb Pa Len c.
  destruct (self_key_id_generated eng K) as (k' & Ek & Ek').
  assert (k' = k) by congruence. subst k'.
  assert (Pb : payload cb <> []).
  { destruct (payload ca); [congruence|].
    destruct (payload cb); [discriminate Len|discriminate]. }
  assert (A : add eng (Token a) (Token b) now = Ok c).
  { unfold add.
    rewrite (coerce_ok eng (Token a) ca Ra (validate_ok eng ca k Hk Ka Pa)).
    rewrite (coerce_ok eng (Token b) cb Rb (validate_ok eng cb k Hk Kb Pb)).
    cbn [bind]. rewrite Len, Nat.eqb_refl. cbn [negb]. rewrite Ek.
    reflexivity. }
  destruct (serialize_resolves c W) as (token & S & R).
  exists token. split; [exact R|].
  unfold add_route, with_engine, computed. rewrite En, A. cbn [caught].
  unfold serialized. rewrite S, Ek. reflexivity.
Qed.

(** X17. The handlers of [test_encrypt_add_flow], called one after the
    other.  On a started service with the decrypt endpoint enabled, for
    a non-empty sequence of finite values: the handler [encrypt] replies
    with a token, the handler [add], called on that token twice, replies
    with a token, and the handler [decrypt], called on this one, replies
    with as many values as were given.  The three handlers write three
    records to the log, the events [encrypt], [compute.add] and
    [decrypt], in this order and each with the active key.  (The
    [http.access] records of the middleware and the rate limiter, which
    FastAPI runs around the handlers, are not part of the statement.) *)
Theorem handlers_encrypt_add_flow svc values draw now now' :
  started svc -> enable_simulated_decrypt svc = true ->
  values <> [] -> forallb isfinite values = true ->
  exists k token svc1 added svc2 out svc3,
    encrypt_route svc values draw now = (Reply token, svc1)
    /\ add_route svc1 token token now' = (Reply added, svc2)
    /\ decrypt_route svc2 added = (Reply out, svc3)
    /\ length out = length values
    /\ audit_log svc3
       = audit_log svc
         ++ [Event (u "encrypt")
               [(u "key_id", JStr k);
                (u "length", JInt (Z.of_nat (length values)))];
             Event (u "compute.add") [(u "key_id", JStr k)];
             Event (u "decrypt")
               [(u "key_id", JStr k);
                (u "length", JInt (Z.of_nat (length values)))]].
Proof.
  intros (eng & k & En & K & Hk & W) Cfg Hv F.
  destruct (encrypt_route_ok svc eng k values draw now En K Hk W Hv F)
    as (token & R & E).
  set (c := mkCiphertext k
              (map (fun v => (v + noise_of_draw draw)%float) values)
              (noise_of_draw draw) now) in *.
  set (svc1 := log_event (u "encrypt") _ svc) in *.
  assert (Pc : payload c <> []).
  { cbn [c payload]. destruct values; [congruence|discriminate]. }
  destruct (add_route_ok svc1 eng k token token c c now' En K Hk W R R
                         eq_refl eq_refl Pc eq_refl) as (added & Ra & A).
  set (svc2 := log_event (u "compute.add") _ svc1) in *.
  eexists k, token, svc1, added, svc2, _, _.
  split; [exact E|]. split; [exact A|]. split.
  - apply (decrypt_route_ok svc2 eng k added _ En K Hk Cfg Ra).
  - cbn [payload noise c].
    assert (L : length (map (fun value => (value - (noise_of_draw draw
                                                    + noise_of_draw draw)
                                                   / 2)%float)
                            (np_add
                               (map (fun v => (v + noise_of_draw draw)%float)
                                    values)
                               (map (fun v => (v + noise_of_draw draw)%float)
                                    values)))
                = length values).
    { rewrite length_map, np_add_length, length_map; reflexivity. }
    split; [exact L|].
    rewrite np_add_length, length_map by reflexivity.
    cbn [log_event emit audit_log svc2 svc1]. rewrite <- !app_assoc.
    reflexivity.
Qed.

Lemma handlers_encrypt_add_flow_witness :
  exists k token svc1 added svc2 out svc3,
    encrypt_route demo_service [1; 2; 3]%float 5 zero = (Reply token, svc1)
    /\ add_route svc1 token token zero = (Reply added, svc2)
    /\ decrypt_route svc2 added = (Reply out, svc3)
    /\ length out = 3%nat
    /\ audit_log svc3
       = [Event (u "encrypt")
            [(u "key_id", JStr k); (u "length", JInt 3)];
          Event (u "compute.add") [(u "key_id", JStr k)];
          Event (u "decrypt")
            [(u "key_id", JStr k); (u "length", JInt 3)]].
Proof.
  apply (handlers_encrypt_add_flow demo_service [1; 2; 3]%float 5 zero zero).
  - exists demo_engine, (u "00112233aabbccdd"). repeat split.
  - reflexivity.
  - discriminate.
  - reflexivity.
Defined.

(** X18. After the handler of [/keys/generate], the handler of
    [/keys/public] replies with the identifier and the public key that
    were generated (the draws are not empty), and the engine has these
    keys: the service is started.  Generating writes two records to the
    log: the message of the engine, then the event [keys.generated],
    both with the new identifier; reading the public key writes none.
    (The [http.access] records of the middleware are written around the
    handlers and are not part of the statement.) *)
Theorem public_key_after_generate svc kid public secret eng0 :
  engine svc = Some eng0 -> kid <> [] -> public <> [] ->
  wf_text kid = true ->
  exists svc1,
    generate_keys_route svc kid public secret = (Reply (kid, public), svc1)
    /\ get_public_key_route svc1 = (Reply (kid, public), svc1)
    /\ started svc1
    /\ audit_log svc1
       = audit_log svc
         ++ [Info (u "Generated new simulated keypair")
                  [(u "key_id", JStr kid)];
             Event (u "keys.generated") [(u "key_id", JStr kid)]].
Proof.
  intros En Hk Hp W.
  unfold generate_keys_route, with_engine. rewrite En.
  cbn [generate_keys fst]. eexists. split; [reflexivity|].
  destruct kid as [|c k]; [congruence|].
  destruct public as [|c' p]; [congruence|].
  split; [|split].
  - unfold get_public_key_route, with_engine.
    cbn [log_event emit engine KEY_STORE self_key_id _key_id].
    unfold get_public_key, save_keys. cbn [_public_keys].
    rewrite dict_find_cons, text_eqb_refl. reflexivity.
  - eexists _, (c :: k). cbn [log_event emit engine]. repeat split. exact W.
  - cbn [log_event emit audit_log]. rewrite <- app_assoc. reflexivity.
Qed.

Lemma public_key_after_generate_witness :
  exists svc1,
    generate_keys_route (mkService (Some new_engine) (mkKeyStore [] []) true [])
                        (u "00112233aabbccdd") (u "pub") (u "sec")
    = (Reply (u "00112233aabbccdd", u "pub"), svc1)
    /\ get_public_key_route svc1 = (Reply (u "00112233aabbccdd", u "pub"), svc1)
    /\ audit_log svc1
       = [Info (u "Generated new simulated keypair")
               [(u "key_id", JStr (u "00112233aabbccdd"))];
          Event (u "keys.generated")
                [(u "key_id", JStr (u "00112233aabbccdd"))]].
Proof.
  destruct (public_key_after_generate
              (mkService (Some new_engine) (mkKeyStore [] []) true [])
              (u "00112233aabbccdd") (u "pub") (u "sec") new_engine
              eq_refl) as (svc1 & G & P & _ & L); try discriminate.
  - reflexivity.
  - exists svc1. repeat split; assumption.
Defined.

(* ================================================================= *)
(** * The order of the operands *)

Lemma SFadd_comm x y : SF64add x y = SF64add y x.
Proof.
  destruct x as [sx|sx| |sx mx ex], y as [sy|sy| |sy my ey];
    try reflexivity; try (destruct sx, sy; reflexivity).
  unfold SF64add, SFadd. rewrite (Z.min_comm ex ey), Z.add_comm.
  reflexivity.
Qed.

Lemma SFmul_comm x y : SF64mul x y = SF64mul y x.
Proof.
  destruct x as [sx|sx| |sx mx ex], y as [sy|sy| |sy my ey];
    try reflexivity; try (destruct sx, sy; reflexivity).
  unfold SF64mul, SFmul.
  rewrite (xorb_comm sx sy), (Pos.mul_comm mx my), (Z.add_comm ex ey).
  reflexivity.
Qed.

Lemma float_add_comm x y : (x + y = y + x)%float.
Proof. apply Prim2SF_inj. rewrite !add_spec. apply SFadd_comm. Qed.

Lemma float_mul_comm x y : (x * y = y * x)%float.
Proof. apply Prim2SF_inj. rewrite !mul_spec. apply SFmul_comm. Qed.

Lemma np_add_comm xs ys : np_add xs ys = np_add ys xs.
Proof.
  revert ys. induction xs as [|x xs IH]; intros [|y ys]; cbn [np_add];
    try reflexivity.
  rewrite float_add_comm, IH. reflexivity.
Qed.

Lemma np_multiply_comm xs ys : np_multiply xs ys = np_multiply ys xs.
Proof.
  revert ys. induction xs as [|x xs IH]; intros [|y ys]; cbn [np_multiply];
    try reflexivity.
  rewrite float_mul_comm, IH. reflexivity.
Qed.

(** X5. [add], [mul] and [dot] do not depend on the order of their
    operands: when the call succeeds, the call with the operands
    exchanged returns the same ciphertext (payload, noise and key).  The
    order only decides which error is reported when both operands are
    refused. *)
Theorem binary_commutes self call x y c :
  run_binary self call x y = Ok c -> run_binary self call y x = Ok c.
Proof.
  intros Run.
  destruct (binary_ok_inv self call x y c Run) as (a & b & Ea & Eb).
  revert Run.
  destruct call as [now|now|now]; cbn [run_binary];
    unfold add, mul, dot; rewrite Ea, Eb; cbn [bind];
    rewrite (Nat.eqb_sym (length (payload b)) (length (payload a)));
    destruct (negb _); try discriminate;
    destruct (self_key_id self) as [k|e]; cbn [bind]; try discriminate;
    intros E; injection E as <-.
  - rewrite np_add_comm, (float_add_comm (noise b)). reflexivity.
  - rewrite np_multiply_comm, (float_add_comm (noise b)). reflexivity.
  - unfold np_dot. rewrite np_multiply_comm, (float_add_comm (noise b)).
    reflexivity.
Qed.

Lemma binary_commutes_witness :
  add demo_engine (Object (demo_ct [3; 4]%float 0.5%float))
      (Object (demo_ct [1; 2]%float zero)) zero
  = Ok (mkCiphertext (u "00112233aabbccdd")
                     (np_add [1; 2]%float [3; 4]%float)
                     ((zero + 0.5) / 2)%float zero).
Proof.
  exact (binary_commutes demo_engine (CallAdd zero)
           (Object (demo_ct [1; 2]%float zero))
           (Object (demo_ct [3; 4]%float 0.5%float)) _ eq_refl).
Defined.
